(** * Verification of dagger, a DAWG built by incremental minimisation

    The development embeds [include/dagger.hpp] (namespace [doom]):
    the [details::vertex] class with its ordering, the comparator
    [details::dereferencing_less], and the class [dagger] with
    [minimize_until], [finish_minimization], [add_suffix], [insert],
    [contains] and [from_dictionary].

    Vertices are heap objects in the source ([std::unique_ptr<vertex>] owners,
    raw [vertex *] in the transition tables), so the embedding has an explicit
    heap: a finite map from addresses to vertex values.  Owners (the root,
    the entries of the unminimized path, the elements of the registry) and
    transition targets are addresses into that heap. *)

From stdpp Require Import gmap strings list sorting.
From Stdlib Require Import Ascii ZArith.

Local Open Scope nat_scope.

(** ** Characters and words *)

(** A [std::string] / [std::string_view] is a sequence of [char]. *)
Definition word := list ascii.

Definition word_of_string (s : string) : word := String.list_ascii_of_string s.

(** The value of a [char] read as a byte, and read as a signed [char]
    (whether [char] is signed is left to the implementation). *)
Definition char_code (a : ascii) : Z := Z.of_nat (nat_of_ascii a).

Definition signed_char_code (a : ascii) : Z :=
  if decide (128 ≤ char_code a)%Z then (char_code a - 256)%Z else char_code a.

(** Order of two [char] values, read as bytes. *)
Definition char_lt (a b : ascii) : Prop := (char_code a < char_code b)%Z.

Global Instance char_lt_dec a b : Decision (char_lt a b).
Proof. unfold char_lt. apply _. Defined.

(** Byte-wise lexicographic order on words, the order of [std::string]. *)
Fixpoint word_ltb (u v : word) : bool :=
  match u, v with
  | _, [] => false
  | [], _ :: _ => true
  | a :: u', b :: v' =>
      if decide (char_lt a b) then true
      else if decide (a = b) then word_ltb u' v'
      else false
  end.

Definition word_lt (u v : word) : Prop := word_ltb u v = true.

(** The precondition of [from_dictionary]: each word is strictly greater
    than the one before it. *)
Fixpoint strictly_ascending (ws : list word) : bool :=
  match ws with
  | [] => true
  | w :: rest =>
      match rest with
      | [] => true
      | w' :: _ => word_ltb w w' && strictly_ascending rest
      end
  end.

(** ** Vertices *)

(** [class vertex]: the transition table [edges_] and the flag
    [is_accepting_].  Targets are addresses. *)
Record vertex := Vertex {
  edges : gmap ascii nat;
  is_word_end : bool
}.

(** A default-constructed vertex: no edges, [is_accepting_{false}]. *)
Definition new_vertex : vertex := Vertex ∅ false.

Definition mark_word_end (v : vertex) : vertex := Vertex (edges v) true.

(** [edges()[c] = target]. *)
Definition assign_edge (c : ascii) (target : nat) (v : vertex) : vertex :=
  Vertex (<[c := target]> (edges v)) (is_word_end v).

(** *** The ordering of vertices *)

(** The order of the keys of a [std::map<char, vertex *>] is the order of
    [char], which depends on its signedness: the definitions take the value
    [code] of a [char] as a parameter. *)
Section vertex_order.
Context (code : ascii → Z).

(** [operator<] of [std::pair<const char, vertex *>]. *)
Definition pair_ltb (x y : ascii * nat) : bool :=
  bool_decide (code x.1 < code y.1)%Z
  || (negb (bool_decide (code y.1 < code x.1)%Z) && bool_decide (x.2 < y.2)).

(** [std::lexicographical_compare], which is what [operator<] of two
    [std::map] is. *)
Fixpoint lexicographical_compare (l1 l2 : list (ascii * nat)) : bool :=
  match l1, l2 with
  | _, [] => false
  | [], _ :: _ => true
  | x :: l1', y :: l2' =>
      if pair_ltb x y then true
      else if pair_ltb y x then false
      else lexicographical_compare l1' l2'
  end.

Definition key_le (x y : ascii * nat) : Prop := (code x.1 ≤ code y.1)%Z.

Global Instance key_le_dec x y : Decision (key_le x y).
Proof. unfold key_le. apply _. Defined.

(** The elements of a [std::map<char, vertex *>] in iteration order, that
    is by ascending key. *)
Definition in_order (m : gmap ascii nat) : list (ascii * nat) :=
  merge_sort key_le (map_to_list m).

(** [friend bool operator<(const vertex &lhs, const vertex &rhs)].  The
    addresses of the two operands are passed along for the identity test
    [&lhs == &rhs]. *)
Definition vertex_lt (lhs_addr : nat) (lhs : vertex)
    (rhs_addr : nat) (rhs : vertex) : bool :=
  if decide (lhs_addr = rhs_addr) then false
  else if negb (Bool.eqb (is_word_end lhs) (is_word_end rhs))
       then Bool.eqb (is_word_end lhs) false
       else lexicographical_compare (in_order (edges lhs))
              (in_order (edges rhs)).
End vertex_order.

(** ** The heap and the automaton under construction *)

(** [struct unminimized_vertex]. *)
Record unminimized_vertex := UnminimizedVertex {
  vertex_ : nat;
  edge_from_parent_ : ascii
}.

(** [class dagger].  [unminimized_path_] is a [std::stack]: the head of the
    list is its top.  [minimized_vertices_] lists the elements of the
    [std::set], most recently inserted first; the order in which the set
    keeps them plays no part, its only operations here being [find] and
    [emplace].  [heap] maps the address of every live vertex to its value,
    and [next_addr] is the address the next [std::make_unique<vertex>()]
    returns.  The model does not recycle the address of a destroyed vertex;
    no live vertex holds such an address ([wf_no_dangling]), so that a
    recycled one could not be told from a new one. *)
Record dagger := Dagger {
  prev_word_ : word;
  root_vertex_ : nat;
  unminimized_path_ : list unminimized_vertex;
  minimized_vertices_ : list nat;
  heap : gmap nat vertex;
  next_addr : nat
}.

(** [dagger() = default]: the member initialiser allocates the root. *)
Definition empty_dagger : dagger :=
  Dagger [] 0 [] [] {[ 0 := new_vertex ]} 1.

(** [dereferencing_less::operator()]: [*a < *b], with [char] unsigned and
    the targets of the edges compared as addresses of this heap.  The order
    depends on the reading of [char] ([dereferencing_less_as]) and on where
    the allocator puts the vertices.  What the construction uses of it is
    the equivalence it induces, and that depends on neither: it is having
    the same flag and the same edges ([vertex_equivalence_signedness]). *)
Definition dereferencing_less (h : gmap nat vertex) (a b : nat) : bool :=
  match h !! a, h !! b with
  | Some va, Some vb => vertex_lt char_code a va b vb
  | _, _ => false
  end.

(** The value of a [char] under either reading: [signed] says whether the
    implementation makes [char] signed. *)
Definition char_as (signed : bool) : ascii → Z :=
  if signed then signed_char_code else char_code.

(** [dereferencing_less::operator()] under either reading of [char];
    [dereferencing_less] is the unsigned one.  The order depends on the
    reading, the equivalence does not, so that the lookup is the same for
    both ([registry_find_signedness]). *)
Definition dereferencing_less_as (signed : bool) (h : gmap nat vertex)
    (a b : nat) : bool :=
  match h !! a, h !! b with
  | Some va, Some vb => vertex_lt (char_as signed) a va b vb
  | _, _ => false
  end.

(** [std::set::find]: an element equivalent to the key under the comparator,
    that is one with neither [elem < key] nor [key < elem]. *)
Definition registry_find (h : gmap nat vertex) (registry : list nat)
    (key : nat) : option nat :=
  List.find (λ elem, negb (dereferencing_less h elem key)
                     && negb (dereferencing_less h key elem)) registry.

(** The vertex that owns the edge to the entry on top of [path]: the next
    entry of the stack, or the root. *)
Definition parent_of (root : nat) (path : list unminimized_vertex) : nat :=
  match path with
  | [] => root
  | p :: _ => vertex_ p
  end.

(** One iteration of the [while] loop of [minimize_until]: pop the top
    entry and look its vertex up in the registry.  If an equivalent vertex
    [it] is there, the edge of the parent is assigned [it] and the popped
    vertex is destroyed with its [std::unique_ptr] at the end of the
    iteration; otherwise [emplace] moves the vertex into the registry (it
    does insert: [find] has just failed).  The loop condition keeps the
    body from running on an empty stack. *)
Definition minimize_body (s : dagger) : dagger :=
  match unminimized_path_ s with
  | [] => s
  | top :: rest =>
      match registry_find (heap s) (minimized_vertices_ s) (vertex_ top) with
      | Some it =>
          let parent := parent_of (root_vertex_ s) rest in
          Dagger (prev_word_ s) (root_vertex_ s) rest (minimized_vertices_ s)
            (delete (vertex_ top)
               (alter (assign_edge (edge_from_parent_ top) it) parent (heap s)))
            (next_addr s)
      | None =>
          Dagger (prev_word_ s) (root_vertex_ s) rest
            (vertex_ top :: minimized_vertices_ s) (heap s) (next_addr s)
      end
  end.

(** The [while] loop of [minimize_until].  [fuel] bounds the number of times
    the loop condition is evaluated; [None] means the bound was reached with
    the loop still running. *)
Fixpoint minimize_while (fuel : nat) (until : nat) (s : dagger)
    : option dagger :=
  match fuel with
  | 0 => None
  | S fuel' =>
      if decide (until < length (unminimized_path_ s))
      then minimize_while fuel' until (minimize_body s)
      else Some s
  end.

(** [minimize_until]: every iteration pops one entry, so the condition is
    evaluated at most once more than the stack has entries. *)
Definition minimize_until (until : nat) (s : dagger) : dagger :=
  default s (minimize_while (S (length (unminimized_path_ s))) until s).

Definition finish_minimization (s : dagger) : dagger :=
  minimize_until 0 s.

(** One iteration of the [for] loop of [add_suffix]: allocate a vertex, make
    it the target of the edge of [parent_vertex] labelled [c], push it. *)
Definition add_suffix_body (c : ascii) (parent_vertex : nat) (s : dagger)
    : dagger :=
  let fresh := next_addr s in
  let h1 := <[fresh := new_vertex]> (heap s) in
  let h2 := alter (assign_edge c fresh) parent_vertex h1 in
  Dagger (prev_word_ s) (root_vertex_ s)
    (UnminimizedVertex fresh c :: unminimized_path_ s)
    (minimized_vertices_ s) h2 (S fresh).

(** The [for] loop of [add_suffix]; returns the final [parent_vertex], which
    after an iteration is the vertex just pushed. *)
Fixpoint add_suffix_loop (suffix : word) (parent_vertex : nat) (s : dagger)
    : nat * dagger :=
  match suffix with
  | [] => (parent_vertex, s)
  | c :: suffix' =>
      add_suffix_loop suffix' (next_addr s) (add_suffix_body c parent_vertex s)
  end.

Definition add_suffix (suffix : word) (s : dagger) : dagger :=
  let parent_vertex := parent_of (root_vertex_ s) (unminimized_path_ s) in
  let '(last, s') := add_suffix_loop suffix parent_vertex s in
  Dagger (prev_word_ s') (root_vertex_ s') (unminimized_path_ s')
    (minimized_vertices_ s') (alter mark_word_end last (heap s'))
    (next_addr s').

(** [std::mismatch(a.begin(), a.end(), b.begin(), b.end()).first - a.begin()]:
    the length of the longest common prefix. *)
Fixpoint mismatch (a b : word) : nat :=
  match a, b with
  | x :: a', y :: b' => if decide (x = y) then S (mismatch a' b') else 0
  | _, _ => 0
  end.

(** [dagger::insert]; [insert] is the name of the map operation here. *)
Definition insert_word (w : word) (s : dagger) : dagger :=
  let common_prefix_len := mismatch (prev_word_ s) w in
  let s1 := minimize_until common_prefix_len s in
  let s2 := add_suffix (drop common_prefix_len w) s1 in
  Dagger w (root_vertex_ s2) (unminimized_path_ s2)
    (minimized_vertices_ s2) (heap s2) (next_addr s2).

(** The vertex on which [insert] calls [mark_word_end]: the final
    [parent_vertex] of [add_suffix]. *)
Definition marked_vertex (w : word) (s : dagger) : nat :=
  let common_prefix_len := mismatch (prev_word_ s) w in
  let s1 := minimize_until common_prefix_len s in
  (add_suffix_loop (drop common_prefix_len w)
     (parent_of (root_vertex_ s1) (unminimized_path_ s1)) s1).1.

(** The words accepted from [current_vertex]: those that lead along the
    edges to a vertex flagged as the end of a word. *)
Fixpoint walk (h : gmap nat vertex) (current_vertex : nat) (w : word) : bool :=
  match h !! current_vertex with
  | None => false
  | Some v =>
      match w with
      | [] => is_word_end v
      | c :: w' =>
          match edges v !! c with
          | None => false
          | Some target => walk h target w'
          end
      end
  end.

(** [contains] is a non-const member function, and it reaches the vertices
    through [vertex *] and the non-const [edges()]: it is code that could
    write.  It is embedded as such, in the state monad of the automaton: a
    computation takes the automaton and returns its result together with
    the automaton it leaves behind. *)
Definition access (A : Type) : Type := dagger → A * dagger.

Global Instance access_ret : MRet access := λ A a s, (a, s).

Global Instance access_bind : MBind access :=
  λ A B f m s, let '(a, s') := m s in f a s'.

(** [root_vertex_.get()]. *)
Definition get_root : access nat := λ s, (root_vertex_ s, s).

(** [v->edges().find(c)]: the target of the edge found, [None] for
    [edges().end()]. *)
Definition edges_find (v : nat) (c : ascii) : access (option nat) :=
  λ s, (vertex ← heap s !! v; edges vertex !! c, s).

(** [v->is_word_end()]. *)
Definition is_word_end_at (v : nat) : access bool :=
  λ s, (from_option is_word_end false (heap s !! v), s).

(** The [for] loop of [contains] and the [return] after it. *)
Fixpoint contains_loop (current_vertex : nat) (w : word) : access bool :=
  match w with
  | [] => is_word_end_at current_vertex
  | c :: w' =>
      it ← edges_find current_vertex c;
      match it with
      | None => mret false
      | Some target => contains_loop target w'
      end
  end.

Definition contains (w : word) : access bool :=
  current_vertex ← get_root; contains_loop current_vertex w.

(** The [for] loop of [from_dictionary]. *)
Definition insert_all (ws : list word) (s : dagger) : dagger :=
  fold_left (λ d w, insert_word w d) ws s.

Definition from_dictionary (ws : list word) : dagger :=
  finish_minimization (insert_all ws empty_dagger).

(** Number of distinct vertices of the automaton: the registry and the root. *)
Definition vertex_count (s : dagger) : nat :=
  S (length (minimized_vertices_ s)).

(** ** Construction with a bound on the iterations of the loop *)

(** [insert] and [from_dictionary] with the [while] loop of every call to
    [minimize_until] bounded by [fuel]; the [for] loops range over a finite
    string or sequence and need no bound. *)
Definition insert_word_fuel (fuel : nat) (w : word) (s : dagger)
    : option dagger :=
  let common_prefix_len := mismatch (prev_word_ s) w in
  s1 ← minimize_while fuel common_prefix_len s;
  let s2 := add_suffix (drop common_prefix_len w) s1 in
  Some (Dagger w (root_vertex_ s2) (unminimized_path_ s2)
          (minimized_vertices_ s2) (heap s2) (next_addr s2)).

Fixpoint insert_all_fuel (fuel : nat) (ws : list word) (s : dagger)
    : option dagger :=
  match ws with
  | [] => Some s
  | w :: ws' => s' ← insert_word_fuel fuel w s; insert_all_fuel fuel ws' s'
  end.

Definition from_dictionary_fuel (fuel : nat) (ws : list word)
    : option dagger :=
  s ← insert_all_fuel fuel ws empty_dagger; minimize_while fuel 0 s.

(** Length of the longest word of a sequence. *)
Definition longest (ws : list word) : nat :=
  foldr (λ w n, length w `max` n) 0 ws.

(** ** Vocabulary of the statements *)

(** The labels of the unminimized path, read from its bottom to its top. *)
Definition path_word (path : list unminimized_vertex) : word :=
  reverse (edge_from_parent_ <$> path).

(** The entries that [add_suffix] pushes for [suffix], first pushed first,
    when the allocator is at address [a]. *)
Fixpoint fresh_entries (a : nat) (suffix : word) : list unminimized_vertex :=
  match suffix with
  | [] => []
  | c :: suffix' => UnminimizedVertex a c :: fresh_entries (S a) suffix'
  end.

(** The flag of the root, if the root is live. *)
Definition root_flag (s : dagger) : option bool :=
  is_word_end <$> heap s !! root_vertex_ s.

(** ** Well-formed automata under construction *)

(** Every edge of the vertex at [a], except one labelled [except], leads to
    an element of [reg]. *)
Definition edges_into (h : gmap nat vertex) (reg : list nat) (a : nat)
    (except : option ascii) : Prop :=
  ∀ v c t, h !! a = Some v → edges v !! c = Some t → Some c ≠ except → t ∈ reg.

(** Each entry of the path is the target of the edge of its parent labelled
    [edge_from_parent_], and the other edges of the parent lead into the
    registry. *)
Fixpoint path_linked (h : gmap nat vertex) (reg : list nat) (root : nat)
    (path : list unminimized_vertex) : Prop :=
  match path with
  | [] => True
  | top :: rest =>
      (∃ v, h !! parent_of root rest = Some v
            ∧ edges v !! edge_from_parent_ top = Some (vertex_ top))
      ∧ edges_into h reg (parent_of root rest) (Some (edge_from_parent_ top))
      ∧ path_linked h reg root rest
  end.

(** The addresses owned by the automaton: the root, the entries of the path
    and the elements of the registry. *)
Definition owned (s : dagger) : list nat :=
  root_vertex_ s :: (vertex_ <$> unminimized_path_ s) ++ minimized_vertices_ s.

Record wf (s : dagger) : Prop := Wf {
  wf_nodup : NoDup (owned s);
  wf_live : ∀ a, a ∈ owned s → is_Some (heap s !! a);
  wf_next : ∀ a, is_Some (heap s !! a) → a < next_addr s;
  wf_owned : ∀ a, is_Some (heap s !! a) → a ∈ owned s;
  wf_closed : ∀ e, e ∈ minimized_vertices_ s →
      edges_into (heap s) (minimized_vertices_ s) e None;
  wf_top : edges_into (heap s) (minimized_vertices_ s)
      (parent_of (root_vertex_ s) (unminimized_path_ s)) None;
  wf_linked : path_linked (heap s) (minimized_vertices_ s) (root_vertex_ s)
      (unminimized_path_ s);
  wf_canonical : ∀ e1 e2, e1 ∈ minimized_vertices_ s →
      e2 ∈ minimized_vertices_ s → heap s !! e1 = heap s !! e2 → e1 = e2
}.

(** The registry of [s] is kept by [s']: same elements still present, each
    with the value it had. *)
Definition registry_kept (s s' : dagger) : Prop :=
  ∀ e, e ∈ minimized_vertices_ s →
    e ∈ minimized_vertices_ s' ∧ heap s' !! e = heap s !! e.

(** [construction_steps s s']: the construction gets from [s] to [s'], for
    some input, by iterations of the loop of [minimize_until], calls of
    [add_suffix] and whole calls of [insert]. *)
Inductive construction_steps (s : dagger) : dagger → Prop :=
  | steps_refl : construction_steps s s
  | steps_minimize s' :
      construction_steps s s' → construction_steps s (minimize_body s')
  | steps_add_suffix s' suffix :
      construction_steps s s' → construction_steps s (add_suffix suffix s')
  | steps_insert s' w :
      construction_steps s s' → construction_steps s (insert_word w s').

(** The states the construction goes through. *)
Definition construction_state (s : dagger) : Prop :=
  construction_steps empty_dagger s.

(** ** Languages *)

(** The vertex at [a] accepts exactly the continuations of [u] in [ws]: it
    stands for the state reached by reading [u]. *)
Definition lang_of (h : gmap nat vertex) (a : nat) (u : word)
    (ws : list word) : Prop :=
  ∀ v, walk h a v = true ↔ u ++ v ∈ ws.

(** [P] holds of every vertex along the path, from the one on top down to
    the root, together with the word that leads to it. *)
Fixpoint path_forall (P : nat → word → Prop) (root : nat)
    (path : list unminimized_vertex) : Prop :=
  P (parent_of root path) (path_word path)
  ∧ match path with
    | [] => True
    | _ :: rest => path_forall P root rest
    end.

(** The automaton [s] stands for the words [ws] inserted so far: the
    vertices of the path accept the continuations of the prefixes of the
    current word, and the registry holds exactly one vertex for every other
    prefix that can be continued to a word. *)
Record lang_inv (ws : list word) (s : dagger) : Prop := LangInv {
  li_path :
    path_forall (λ a u, lang_of (heap s) a u ws)
      (root_vertex_ s) (unminimized_path_ s);
  li_extends :
    unminimized_path_ s ≠ [] →
    ∃ v, path_word (unminimized_path_ s) ++ v ∈ ws;
  li_registry :
    ∀ e, e ∈ minimized_vertices_ s →
    ∃ u, u ≠ [] ∧ ¬ u `prefix_of` path_word (unminimized_path_ s)
         ∧ (∃ v, u ++ v ∈ ws) ∧ lang_of (heap s) e u ws;
  li_complete :
    ∀ u v, u ≠ [] → u ++ v ∈ ws →
    ¬ u `prefix_of` path_word (unminimized_path_ s) →
    ∃ e, e ∈ minimized_vertices_ s ∧ lang_of (heap s) e u ws;
  li_distinct :
    ∀ e1 e2, e1 ∈ minimized_vertices_ s → e2 ∈ minimized_vertices_ s →
    (∀ v, walk (heap s) e1 v = walk (heap s) e2 v) → e1 = e2
}.

(** The vertices that [add_suffix] allocates for [suffix], the first one at
    address [a], accept each the rest of [suffix] and nothing else. *)
Fixpoint chain_lang (h : gmap nat vertex) (a : nat) (suffix : word) : Prop :=
  match suffix with
  | [] => True
  | _ :: suffix' =>
      (∀ v, walk h a v = true ↔ v = suffix') ∧ chain_lang h (S a) suffix'
  end.

(** The vertex reached from [a] by reading [u], if the edges are there. *)
Fixpoint reach (h : gmap nat vertex) (a : nat) (u : word) : option nat :=
  match u with
  | [] => Some a
  | c :: u' =>
      match h !! a with
      | None => None
      | Some v =>
          match edges v !! c with
          | None => None
          | Some t => reach h t u'
          end
      end
  end.

(** ** The minimal automaton of a finite language *)

(** [drop_prefix u w] is [Some v] when [w = u ++ v]. *)
Fixpoint drop_prefix (u w : word) : option word :=
  match u, w with
  | [], _ => Some w
  | _ :: _, [] => None
  | a :: u', b :: w' => if decide (a = b) then drop_prefix u' w' else None
  end.

(** The residual (left quotient) of the language [ws] by [u]: the words [v]
    with [u ++ v] in [ws], in the order of [ws]. *)
Definition residual (u : word) (ws : list word) : list word :=
  omap (drop_prefix u) ws.

(** The prefixes of a word, the empty one and the word itself included. *)
Definition prefixes (w : word) : list word :=
  (λ n, take n w) <$> seq 0 (S (length w)).

(** The empty word and the prefixes of the words of [ws]: the words that the
    minimal automaton can read from its initial state without getting
    stuck. *)
Definition all_prefixes (ws : list word) : list word :=
  [] :: (ws ≫= prefixes).

(** The states of the minimal deterministic automaton of [ws], as Myhill and
    Nerode describe it: one state for each distinct residual of the language
    by a word the automaton can read.  The automaton is partial (there is no
    sink state for the words that lead nowhere: with one it would not be
    acyclic), and it has an initial state even when [ws] is empty. *)
Definition minimal_dfa_states (ws : list word) : list (list word) :=
  remove_dups ((λ u, residual u ws) <$> all_prefixes ws).

(** ** The minimisation engine as the specification words it *)

(** [canonical] is a vertex of the registry equivalent to [v]: the same
    accepting flag and the same transitions, targets compared by identity. *)
Definition spec_found (h : gmap nat vertex) (registry : list nat)
    (v canonical : nat) : Prop :=
  canonical ∈ registry
  ∧ ∃ vc vv, h !! canonical = Some vc ∧ h !! v = Some vv
             ∧ is_word_end vc = is_word_end vv
             ∧ ∀ c, edges vc !! c = edges vv !! c.

(** From [h] to [h']: the new parent has its transition for [label]
    redirected to [canonical], its other transitions and its flag are what
    they were; [v] is discarded; no other vertex changes. *)
Record spec_redirected (v : nat) (label : ascii) (new_parent canonical : nat)
    (h h' : gmap nat vertex) : Prop := SpecRedirected {
  sr_parent :
    ∃ vp vp', h !! new_parent = Some vp ∧ h' !! new_parent = Some vp'
              ∧ edges vp' !! label = Some canonical
              ∧ (∀ c, c ≠ label → edges vp' !! c = edges vp !! c)
              ∧ is_word_end vp' = is_word_end vp;
  sr_discarded : h' !! v = None;
  sr_frame : ∀ a, a ≠ new_parent → a ≠ v → h' !! a = h !! a
}.

(** One popped entry [(v, label)] resolved: if an equivalent vertex is found
    in the registry the new parent is redirected to it and [v] is discarded,
    otherwise [v] itself enters the registry and nothing else changes. *)
Inductive spec_resolved (v : nat) (label : ascii) (new_parent : nat)
    (registry : list nat) (h : gmap nat vertex)
    : list nat → gmap nat vertex → Prop :=
  | resolved_found canonical h' :
      spec_found h registry v canonical →
      spec_redirected v label new_parent canonical h h' →
      spec_resolved v label new_parent registry h registry h'
  | resolved_new :
      (∀ e, ¬ spec_found h registry v e) →
      spec_resolved v label new_parent registry h (v :: registry) h.

(** The entries deeper than [d] popped and resolved, deepest first; the new
    parent of a popped entry is the entry now on top of the path, or the
    root when the path is empty. *)
Inductive spec_minimized (d : nat) (root : nat)
    : list unminimized_vertex → list nat → gmap nat vertex →
      list unminimized_vertex → list nat → gmap nat vertex → Prop :=
  | minimized_done path registry h :
      length path ≤ d →
      spec_minimized d root path registry h path registry h
  | minimized_pop top rest registry h registry1 h1 path' registry' h' :
      d < length (top :: rest) →
      spec_resolved (vertex_ top) (edge_from_parent_ top)
        (from_option vertex_ root (head rest)) registry h registry1 h1 →
      spec_minimized d root rest registry1 h1 path' registry' h' →
      spec_minimized d root (top :: rest) registry h path' registry' h'.

(** ** Shape of the graph and size of the input *)

(** The vertices of [l] are in topological order: the edges of each lead to
    vertices further down the list. *)
Fixpoint edges_descend (h : gmap nat vertex) (l : list nat) : Prop :=
  match l with
  | [] => True
  | a :: l' => edges_into h l' a None ∧ edges_descend h l'
  end.

(** The root, the entries of the path from the bottom to the top, then the
    registry. *)
Definition graph_order (s : dagger) : list nat :=
  (root_vertex_ s :: reverse (vertex_ <$> unminimized_path_ s))
  ++ minimized_vertices_ s.

(** Number of characters of the input. *)
Definition total_length (ws : list word) : nat :=
  foldr (λ w n, length w + n) 0 ws.

(** Ascending order with repetitions allowed: each word is the one before
    it, or is greater. *)
Fixpoint ascending (ws : list word) : bool :=
  match ws with
  | [] => true
  | w :: rest =>
      match rest with
      | [] => true
      | w' :: _ => (bool_decide (w = w') || word_ltb w w') && ascending rest
      end
  end.

(** Every vertex of the path accepts only continuations that make a word of
    [ws]. *)
Definition accepts_only (ws : list word) (s : dagger) : Prop :=
  path_forall (λ a u, ∀ v, walk (heap s) a v = true → u ++ v ∈ ws)
    (root_vertex_ s) (unminimized_path_ s).

(** ** Example dictionaries *)

(** The automaton after [insert] of "ab" and of "cb", before the final
    flush: both entries of the path wait to be minimised. *)
Definition example_state : dagger :=
  insert_all (word_of_string <$> ["ab"; "cb"]%string) empty_dagger.

(** The word list of the test suite. *)
Definition test_words : list word :=
  word_of_string <$>
    ["abaca"; "abacas"; "abacost"; "abacosts"; "abacule"; "abacules";
     "abaissa"; "abaissable"; "balader"]%string.


(** * The comparator and the registry lookup *)

Section comparator.

Lemma nat_of_ascii_inj a b : nat_of_ascii a = nat_of_ascii b → a = b.
Proof.
  intros E. rewrite <- (ascii_nat_embedding a), <- (ascii_nat_embedding b).
  by rewrite E.
Qed.

Lemma char_code_inj a b : char_code a = char_code b → a = b.
Proof. unfold char_code. intros E. apply nat_of_ascii_inj. lia. Qed.

Lemma char_code_range a : (0 ≤ char_code a < 256)%Z.
Proof.
  unfold char_code. pose proof (nat_ascii_bounded a). lia.
Qed.

Lemma signed_char_code_inj a b :
  signed_char_code a = signed_char_code b → a = b.
Proof.
  unfold signed_char_code. intros E. apply char_code_inj.
  pose proof (char_code_range a). pose proof (char_code_range b).
  repeat case_decide; lia.
Qed.

Section any_code.
Context (code : ascii → Z) (code_inj : ∀ a b, code a = code b → a = b).

Lemma pair_ltb_irrefl x : pair_ltb code x x = false.
Proof.
  unfold pair_ltb.
  rewrite !bool_decide_eq_false_2 by lia. done.
Qed.

Lemma pair_ltb_total x y :
  pair_ltb code x y = false → pair_ltb code y x = false → x = y.
Proof.
  destruct x as [a p], y as [b q]. unfold pair_ltb. simpl.
  intros H1 H2.
  apply orb_false_elim in H1 as [H1 H1'], H2 as [H2 H2'].
  apply bool_decide_eq_false in H1, H2.
  rewrite (bool_decide_eq_false_2 _ H1) in H2'.
  rewrite (bool_decide_eq_false_2 _ H2) in H1'.
  simpl in *. apply bool_decide_eq_false in H1', H2'.
  f_equal; [apply code_inj|]; lia.
Qed.

Lemma lexicographical_compare_irrefl l :
  lexicographical_compare code l l = false.
Proof. induction l as [|x l IH]; simpl; [done|]. by rewrite pair_ltb_irrefl. Qed.

Lemma lexicographical_compare_total l1 l2 :
  lexicographical_compare code l1 l2 = false →
  lexicographical_compare code l2 l1 = false → l1 = l2.
Proof.
  revert l2. induction l1 as [|x l1 IH]; intros [|y l2]; simpl; try done.
  destruct (pair_ltb code x y) eqn:Hxy; [done|].
  destruct (pair_ltb code y x) eqn:Hyx; [done|].
  intros H1 H2. f_equal; [by apply pair_ltb_total | by apply IH].
Qed.

Lemma in_order_inj (m1 m2 : gmap ascii nat) :
  in_order code m1 = in_order code m2 → m1 = m2.
Proof.
  unfold in_order. intros E. apply map_to_list_inj.
  rewrite <- (merge_sort_Permutation (key_le code) (map_to_list m1)).
  rewrite <- (merge_sort_Permutation (key_le code) (map_to_list m2)).
  by rewrite E.
Qed.

(** Two vertices at different addresses are equivalent under [operator<]
    exactly when they have the same flag and the same transition table,
    targets compared as addresses. *)
Lemma vertex_lt_equiv a va b vb :
  a ≠ b →
  negb (vertex_lt code a va b vb) && negb (vertex_lt code b vb a va) = true
  ↔ va = vb.
Proof.
  intros Hab. unfold vertex_lt.
  rewrite !decide_False by congruence.
  destruct va as [ea fa], vb as [eb fb]; simpl. split.
  - destruct fa, fb; simpl; try done.
    + intros [H1 H2]%andb_true_iff. apply negb_true_iff in H1, H2.
      f_equal. apply in_order_inj. by apply lexicographical_compare_total.
    + intros [H1 H2]%andb_true_iff. apply negb_true_iff in H1, H2.
      f_equal. apply in_order_inj. by apply lexicographical_compare_total.
  - intros [= -> ->]. rewrite eqb_reflx. simpl.
    by rewrite lexicographical_compare_irrefl.
Qed.

End any_code.

(** The equivalence of vertices is the same whether [char] is signed or
    not: only the order in which the registry keeps its elements differs. *)
Lemma vertex_equivalence_signedness a va b vb :
  a ≠ b →
  negb (vertex_lt signed_char_code a va b vb)
  && negb (vertex_lt signed_char_code b vb a va)
  = negb (vertex_lt char_code a va b vb)
    && negb (vertex_lt char_code b vb a va).
Proof.
  intros Hab.
  pose proof (vertex_lt_equiv signed_char_code signed_char_code_inj
                a va b vb Hab) as H1.
  pose proof (vertex_lt_equiv char_code char_code_inj a va b vb Hab) as H2.
  destruct (negb (vertex_lt signed_char_code a va b vb)
            && negb (vertex_lt signed_char_code b vb a va)),
    (negb (vertex_lt char_code a va b vb)
     && negb (vertex_lt char_code b vb a va)); intuition congruence.
Qed.

Lemma registry_find_Some h reg key e vk :
  h !! key = Some vk → key ∉ reg → (∀ x, x ∈ reg → is_Some (h !! x)) →
  registry_find h reg key = Some e → e ∈ reg ∧ h !! e = Some vk.
Proof.
  intros Hk Hnin Hlive Hf. apply find_some in Hf as [Hin Hf].
  apply list_elem_of_In in Hin. split; [done|].
  destruct (Hlive e Hin) as [ve Hve].
  unfold dereferencing_less in Hf. rewrite Hk, Hve in Hf.
  apply (vertex_lt_equiv char_code char_code_inj) in Hf; [by subst|].
  intros ->. done.
Qed.

Lemma registry_find_None h reg key vk :
  h !! key = Some vk → key ∉ reg →
  registry_find h reg key = None → ∀ e, e ∈ reg → h !! e ≠ Some vk.
Proof.
  intros Hk Hnin Hf e Hin Hve.
  eapply find_none in Hf; [|by apply list_elem_of_In].
  unfold dereferencing_less in Hf. rewrite Hk, Hve in Hf.
  assert (e ≠ key) as Hne by (intros ->; done).
  pose proof (proj2 (vertex_lt_equiv char_code char_code_inj e vk key vk Hne)
                eq_refl). congruence.
Qed.

End comparator.


(** * The loop of [minimize_until] *)

Section minimize_loop.

Lemma minimize_body_path s :
  unminimized_path_ (minimize_body s) = drop 1 (unminimized_path_ s).
Proof.
  unfold minimize_body. destruct (unminimized_path_ s) as [|top rest] eqn:E.
  - by rewrite E.
  - by destruct (registry_find _ _ _).
Qed.

Lemma minimize_body_root s : root_vertex_ (minimize_body s) = root_vertex_ s.
Proof.
  unfold minimize_body. destruct (unminimized_path_ s); [done|].
  by destruct (registry_find _ _ _).
Qed.

Lemma minimize_body_prev s : prev_word_ (minimize_body s) = prev_word_ s.
Proof.
  unfold minimize_body. destruct (unminimized_path_ s); [done|].
  by destruct (registry_find _ _ _).
Qed.

Lemma minimize_body_next s : next_addr (minimize_body s) = next_addr s.
Proof.
  unfold minimize_body. destruct (unminimized_path_ s); [done|].
  by destruct (registry_find _ _ _).
Qed.

Lemma iter_body_path k s :
  unminimized_path_ (Nat.iter k minimize_body s) = drop k (unminimized_path_ s).
Proof.
  induction k as [|k IH]; simpl; [done|].
  rewrite minimize_body_path, IH, drop_drop. f_equal. lia.
Qed.

Lemma iter_body_root k s :
  root_vertex_ (Nat.iter k minimize_body s) = root_vertex_ s.
Proof. induction k; simpl; [done|]. by rewrite minimize_body_root. Qed.

Lemma iter_body_prev k s :
  prev_word_ (Nat.iter k minimize_body s) = prev_word_ s.
Proof. induction k; simpl; [done|]. by rewrite minimize_body_prev. Qed.

Lemma iter_body_next k s :
  next_addr (Nat.iter k minimize_body s) = next_addr s.
Proof. induction k; simpl; [done|]. by rewrite minimize_body_next. Qed.

(** With enough fuel the loop runs [size - until] iterations and stops. *)
Lemma minimize_while_iter fuel until s :
  length (unminimized_path_ s) - until < fuel →
  minimize_while fuel until s
  = Some (Nat.iter (length (unminimized_path_ s) - until) minimize_body s).
Proof.
  revert s. induction fuel as [|fuel IH]; intros s Hf; [lia|]. simpl.
  destruct (decide (until < length (unminimized_path_ s))) as [Hlt|Hge].
  - rewrite IH; rewrite minimize_body_path, length_drop; [|lia].
    replace (length (unminimized_path_ s) - until)
      with (S (length (unminimized_path_ s) - 1 - until)) by lia.
    by rewrite Nat.iter_succ_r.
  - by replace (length (unminimized_path_ s) - until) with 0 by lia.
Qed.

Lemma minimize_until_iter until s :
  minimize_until until s
  = Nat.iter (length (unminimized_path_ s) - until) minimize_body s.
Proof.
  unfold minimize_until. rewrite minimize_while_iter by lia. done.
Qed.

Lemma minimize_while_until fuel until s :
  length (unminimized_path_ s) - until < fuel →
  minimize_while fuel until s = Some (minimize_until until s).
Proof. intros. rewrite minimize_until_iter. by apply minimize_while_iter. Qed.

Lemma minimize_until_done until s :
  length (unminimized_path_ s) ≤ until → minimize_until until s = s.
Proof.
  intros. rewrite minimize_until_iter.
  by replace (length (unminimized_path_ s) - until) with 0 by lia.
Qed.

Lemma minimize_until_step until s :
  until < length (unminimized_path_ s) →
  minimize_until until s = minimize_until until (minimize_body s).
Proof.
  intros. rewrite !minimize_until_iter, minimize_body_path, length_drop.
  replace (length (unminimized_path_ s) - until)
    with (S (length (unminimized_path_ s) - 1 - until)) by lia.
  by rewrite Nat.iter_succ_r.
Qed.

Lemma minimize_until_path until s :
  unminimized_path_ (minimize_until until s)
  = drop (length (unminimized_path_ s) - until) (unminimized_path_ s).
Proof. by rewrite minimize_until_iter, iter_body_path. Qed.

Lemma minimize_until_prev until s :
  prev_word_ (minimize_until until s) = prev_word_ s.
Proof. by rewrite minimize_until_iter, iter_body_prev. Qed.

Lemma minimize_until_root until s :
  root_vertex_ (minimize_until until s) = root_vertex_ s.
Proof. by rewrite minimize_until_iter, iter_body_root. Qed.

(** A property kept by the loop body is kept by the loop. *)
Lemma minimize_until_ind (P : dagger → Prop) until s :
  (∀ s', P s' → unminimized_path_ s' ≠ [] → P (minimize_body s')) →
  P s → P (minimize_until until s).
Proof.
  intros Hstep. rewrite minimize_until_iter.
  generalize (length (unminimized_path_ s) - until) as k.
  intros k. revert s. induction k as [|k IH]; intros s Hs; simpl; [done|].
  destruct (unminimized_path_ (Nat.iter k minimize_body s)) eqn:E.
  - unfold minimize_body at 1. rewrite E. by apply IH.
  - apply Hstep; [by apply IH|]. by rewrite E.
Qed.

End minimize_loop.

(** * The loop of [add_suffix] *)

Section add_suffix_loop.

Lemma add_suffix_loop_path suffix parent s :
  unminimized_path_ (add_suffix_loop suffix parent s).2
  = reverse (fresh_entries (next_addr s) suffix) ++ unminimized_path_ s.
Proof.
  revert parent s. induction suffix as [|c suffix IH]; intros parent s; simpl.
  - done.
  - rewrite IH. simpl. rewrite reverse_cons, <- app_assoc. done.
Qed.

Lemma add_suffix_loop_root suffix parent s :
  root_vertex_ (add_suffix_loop suffix parent s).2 = root_vertex_ s.
Proof.
  revert parent s. induction suffix as [|c suffix IH]; intros parent s; simpl;
    [done|]. by rewrite IH.
Qed.

Lemma add_suffix_loop_registry suffix parent s :
  minimized_vertices_ (add_suffix_loop suffix parent s).2 = minimized_vertices_ s.
Proof.
  revert parent s. induction suffix as [|c suffix IH]; intros parent s; simpl;
    [done|]. by rewrite IH.
Qed.

Lemma add_suffix_loop_next suffix parent s :
  next_addr (add_suffix_loop suffix parent s).2 = next_addr s + length suffix.
Proof.
  revert parent s. induction suffix as [|c suffix IH]; intros parent s; simpl;
    [lia|]. rewrite IH. simpl. lia.
Qed.

(** The loop ends with [parent_vertex] at the top of the stack. *)
Lemma add_suffix_loop_last suffix parent s :
  parent = parent_of (root_vertex_ s) (unminimized_path_ s) →
  (add_suffix_loop suffix parent s).1
  = parent_of (root_vertex_ (add_suffix_loop suffix parent s).2)
      (unminimized_path_ (add_suffix_loop suffix parent s).2).
Proof.
  revert parent s.
  induction suffix as [|c suffix IH]; intros parent s Hp; simpl; [done|].
  by apply IH.
Qed.

Lemma add_suffix_path suffix s :
  unminimized_path_ (add_suffix suffix s)
  = reverse (fresh_entries (next_addr s) suffix) ++ unminimized_path_ s.
Proof.
  unfold add_suffix.
  pose proof (add_suffix_loop_path suffix
    (parent_of (root_vertex_ s) (unminimized_path_ s)) s) as H.
  destruct (add_suffix_loop _ _ _) as [last s']. done.
Qed.

Lemma add_suffix_root suffix s :
  root_vertex_ (add_suffix suffix s) = root_vertex_ s.
Proof.
  unfold add_suffix.
  pose proof (add_suffix_loop_root suffix
    (parent_of (root_vertex_ s) (unminimized_path_ s)) s) as H.
  destruct (add_suffix_loop _ _ _) as [last s']. done.
Qed.

Lemma add_suffix_registry suffix s :
  minimized_vertices_ (add_suffix suffix s) = minimized_vertices_ s.
Proof.
  unfold add_suffix.
  pose proof (add_suffix_loop_registry suffix
    (parent_of (root_vertex_ s) (unminimized_path_ s)) s) as H.
  destruct (add_suffix_loop _ _ _) as [last s']. done.
Qed.

Lemma fresh_entries_labels a suffix :
  edge_from_parent_ <$> fresh_entries a suffix = suffix.
Proof.
  revert a. induction suffix as [|c suffix IH]; intros a; simpl; [done|].
  by rewrite IH.
Qed.

End add_suffix_loop.


(** * The common prefix and the shape of the unminimized path *)

Section mismatch.

Lemma mismatch_le_l a b : mismatch a b ≤ length a.
Proof.
  revert b. induction a as [|x a IH]; intros [|y b]; simpl; try lia.
  destruct (decide (x = y)); [|lia]. specialize (IH b). lia.
Qed.

(** [word.substr(common_prefix_len)] starts within the word. *)
Lemma mismatch_le_r a b : mismatch a b ≤ length b.
Proof.
  revert b. induction a as [|x a IH]; intros [|y b]; simpl; try lia.
  destruct (decide (x = y)); [|lia]. specialize (IH b). lia.
Qed.

Lemma mismatch_take a b : take (mismatch a b) a = take (mismatch a b) b.
Proof.
  revert b. induction a as [|x a IH]; intros [|y b]; simpl; try done.
  destruct (decide (x = y)) as [->|]; [|done]. simpl. by rewrite IH.
Qed.

Lemma mismatch_refl a : mismatch a a = length a.
Proof.
  induction a as [|x a IH]; simpl; [done|].
  rewrite decide_True by done. by rewrite IH.
Qed.

(** No common prefix is longer than [mismatch] says. *)
Lemma mismatch_max u a b :
  u `prefix_of` a → u `prefix_of` b → length u ≤ mismatch a b.
Proof.
  revert a b. induction u as [|c u IH]; intros a b [ka ->] [kb ->]; simpl;
    [lia|].
  rewrite decide_True by done.
  specialize (IH (u ++ ka) (u ++ kb)).
  assert (u `prefix_of` u ++ ka) by by apply prefix_app_r.
  assert (u `prefix_of` u ++ kb) by by apply prefix_app_r.
  apply le_n_S. by apply IH.
Qed.

End mismatch.

Section path_shape.

Lemma path_word_length path : length (path_word path) = length path.
Proof. unfold path_word. by rewrite length_reverse, length_fmap. Qed.

Lemma path_word_app p1 p2 :
  path_word (p1 ++ p2) = path_word p2 ++ path_word p1.
Proof. unfold path_word. by rewrite fmap_app, reverse_app. Qed.

Lemma path_word_drop k path :
  path_word (drop k path) = take (length path - k) (path_word path).
Proof.
  unfold path_word. rewrite fmap_drop, reverse_drop, length_fmap. done.
Qed.

Lemma path_word_fresh a suffix :
  path_word (reverse (fresh_entries a suffix)) = suffix.
Proof.
  unfold path_word.
  by rewrite fmap_reverse, reverse_involutive, fresh_entries_labels.
Qed.

Lemma insert_word_prev w s : prev_word_ (insert_word w s) = w.
Proof. done. Qed.

Lemma insert_word_path w s :
  unminimized_path_ (insert_word w s)
  = reverse (fresh_entries (next_addr s) (drop (mismatch (prev_word_ s) w) w))
    ++ drop (length (unminimized_path_ s) - mismatch (prev_word_ s) w)
         (unminimized_path_ s).
Proof.
  unfold insert_word. simpl.
  rewrite add_suffix_path, minimize_until_path.
  by rewrite minimize_until_iter, iter_body_next.
Qed.

(** The labels of the path spell the previous word; [insert] keeps it so,
    whatever the order of the words. *)
Lemma insert_word_path_word w s :
  path_word (unminimized_path_ s) = prev_word_ s →
  path_word (unminimized_path_ (insert_word w s)) = w.
Proof.
  intros Hs. rewrite insert_word_path, path_word_app, path_word_fresh.
  rewrite path_word_drop, Hs.
  assert (length (unminimized_path_ s) = length (prev_word_ s)) as ->
    by by rewrite <- Hs, path_word_length.
  pose proof (mismatch_le_l (prev_word_ s) w).
  replace (length (prev_word_ s)
           - (length (prev_word_ s) - mismatch (prev_word_ s) w))
    with (mismatch (prev_word_ s) w) by lia.
  by rewrite mismatch_take, take_drop.
Qed.

Lemma insert_all_snoc ws w s :
  insert_all (ws ++ [w]) s = insert_word w (insert_all ws s).
Proof. unfold insert_all. by rewrite fold_left_app. Qed.

Lemma insert_all_app ws1 ws2 s :
  insert_all (ws1 ++ ws2) s = insert_all ws2 (insert_all ws1 s).
Proof. unfold insert_all. by rewrite fold_left_app. Qed.

Lemma insert_all_path_word ws :
  path_word (unminimized_path_ (insert_all ws empty_dagger))
  = prev_word_ (insert_all ws empty_dagger).
Proof.
  induction ws as [|w ws IH] using rev_ind; [done|].
  rewrite insert_all_snoc. by apply insert_word_path_word.
Qed.

Lemma insert_all_path_length ws :
  length (unminimized_path_ (insert_all ws empty_dagger))
  = length (prev_word_ (insert_all ws empty_dagger)).
Proof. by rewrite <- insert_all_path_word, path_word_length. Qed.

Lemma insert_all_prev ws :
  prev_word_ (insert_all ws empty_dagger) = List.last ws [].
Proof.
  induction ws as [|w ws IH] using rev_ind; [done|].
  rewrite insert_all_snoc, insert_word_prev. by rewrite last_last.
Qed.

End path_shape.

(** * Termination of the construction *)

Section termination.

Lemma longest_ge ws w : w ∈ ws → length w ≤ longest ws.
Proof.
  induction ws as [|w' ws IH]; [by intros ?%elem_of_nil|].
  intros [->|Hin]%elem_of_cons; simpl; [lia|].
  specialize (IH Hin). lia.
Qed.

Lemma insert_word_fuel_enough fuel w s :
  length (unminimized_path_ s) < fuel →
  insert_word_fuel fuel w s = Some (insert_word w s).
Proof.
  intros Hf. unfold insert_word_fuel.
  rewrite minimize_while_until by lia. done.
Qed.

Lemma insert_all_fuel_enough fuel ws s :
  length (unminimized_path_ s) < fuel →
  path_word (unminimized_path_ s) = prev_word_ s →
  (∀ w, w ∈ ws → length w < fuel) →
  insert_all_fuel fuel ws s = Some (insert_all ws s).
Proof.
  revert s. induction ws as [|w ws IH]; intros s Hf Hp Hws; simpl; [done|].
  rewrite insert_word_fuel_enough by done. simpl.
  assert (path_word (unminimized_path_ (insert_word w s)) = w) as Hw
    by by apply insert_word_path_word.
  apply IH.
  - rewrite <- path_word_length, Hw. apply Hws. by left.
  - done.
  - intros w' Hw'. apply Hws. by right.
Qed.

Lemma from_dictionary_fuel_enough fuel ws :
  longest ws < fuel →
  from_dictionary_fuel fuel ws = Some (from_dictionary ws).
Proof.
  intros Hf. unfold from_dictionary_fuel.
  rewrite insert_all_fuel_enough; simpl; [|lia|done|].
  - unfold from_dictionary, finish_minimization.
    apply minimize_while_until.
    rewrite insert_all_path_length, insert_all_prev.
    destruct ws as [|w0 ws] using rev_ind; simpl; [lia|].
    rewrite last_last.
    pose proof (longest_ge (ws ++ [w0]) w0) as Hl.
    assert (w0 ∈ ws ++ [w0]) by (apply elem_of_app; right; by left).
    specialize (Hl H). lia.
  - intros w Hw. pose proof (longest_ge ws w Hw). lia.
Qed.

End termination.


(** * Well-formedness is kept by every operation *)

Create HintDb owned.

Section well_formed.

Lemma edges_into_mono h reg reg' a x :
  (∀ e, e ∈ reg → e ∈ reg') → edges_into h reg a x → edges_into h reg' a x.
Proof. unfold edges_into. naive_solver. Qed.

Lemma edges_into_agree h h' reg a x :
  h' !! a = h !! a → edges_into h reg a x → edges_into h' reg a x.
Proof. unfold edges_into. intros ->. done. Qed.

Lemma parent_of_in root path : parent_of root path ∈ root :: (vertex_ <$> path).
Proof. destruct path; simpl; [by left|]. right. by left. Qed.

Lemma path_linked_mono h reg reg' root path :
  (∀ e, e ∈ reg → e ∈ reg') →
  path_linked h reg root path → path_linked h reg' root path.
Proof.
  intros Hsub. induction path as [|top rest IH]; simpl; [done|].
  intros (Hv & He & Hrest). split_and!; [done| |by apply IH].
  by eapply edges_into_mono.
Qed.

(** [path_linked] reads the heap at the root and at the entries below the
    top only. *)
Lemma path_linked_agree h h' reg root path :
  (∀ a, a ∈ root :: (vertex_ <$> drop 1 path) → h' !! a = h !! a) →
  path_linked h reg root path → path_linked h' reg root path.
Proof.
  revert h'. induction path as [|top rest IH]; intros h' Hag; simpl; [done|].
  intros ((v & Hv & Hc) & He & Hrest). simpl in Hag.
  rewrite drop_0 in Hag.
  assert (h' !! parent_of root rest = h !! parent_of root rest) as Hp
    by (apply Hag, parent_of_in).
  split_and!.
  - exists v. by rewrite Hp.
  - by eapply edges_into_agree.
  - apply IH; [|done]. intros a Ha. apply Hag.
    apply elem_of_cons in Ha as [->|Ha]; [by left|]. right.
    destruct rest as [|r rest']; simpl in *; [by apply elem_of_nil in Ha|].
    rewrite drop_0 in Ha. by right.
Qed.

(** What the automaton owns. *)
Lemma owned_root s : root_vertex_ s ∈ owned s.
Proof. unfold owned. by left. Qed.

Lemma owned_path s a : a ∈ vertex_ <$> unminimized_path_ s → a ∈ owned s.
Proof. intros Ha. unfold owned. right. apply elem_of_app. by left. Qed.

Lemma owned_top s top rest :
  unminimized_path_ s = top :: rest → vertex_ top ∈ owned s.
Proof. intros Hp. apply owned_path. rewrite Hp. by left. Qed.

Lemma owned_registry s e : e ∈ minimized_vertices_ s → e ∈ owned s.
Proof. intros He. unfold owned. right. apply elem_of_app. by right. Qed.

#[local] Hint Resolve owned_root owned_path owned_top owned_registry : owned.

Lemma wf_empty_dagger : wf empty_dagger.
Proof.
  split; unfold owned; simpl.
  - apply NoDup_singleton.
  - intros a ->%list_elem_of_singleton. by rewrite lookup_singleton_eq.
  - intros a [v Hv]. apply lookup_singleton_Some in Hv as [<- _]. lia.
  - intros a [v Hv]. apply lookup_singleton_Some in Hv as [<- _]. by left.
  - intros e []%elem_of_nil.
  - intros v c t Hv Hc _. rewrite lookup_singleton_eq in Hv.
    injection Hv as <-. simpl in Hc. by rewrite lookup_empty in Hc.
  - done.
  - intros e1 e2 []%elem_of_nil.
Qed.

(** Membership facts read off [wf_nodup]. *)
Lemma wf_top_fresh s top rest :
  wf s → unminimized_path_ s = top :: rest →
  (vertex_ top ∉ minimized_vertices_ s)
  ∧ (vertex_ top ∉ root_vertex_ s :: (vertex_ <$> rest))
  ∧ (∀ e, e ∈ minimized_vertices_ s → e ∉ root_vertex_ s :: (vertex_ <$> rest)).
Proof.
  intros Hwf Hp. pose proof (wf_nodup s Hwf) as Hnd. unfold owned in Hnd.
  rewrite Hp in Hnd. simpl in Hnd.
  apply NoDup_cons in Hnd as [Hroot Hnd].
  apply NoDup_cons in Hnd as [Htop Hnd].
  apply NoDup_app in Hnd as (_ & Hdisj & _).
  apply not_elem_of_cons in Hroot as [Hroot1 Hroot2].
  apply not_elem_of_app in Hroot2 as [Hroot2 Hroot3].
  apply not_elem_of_app in Htop as [Htop1 Htop2].
  split_and!.
  - done.
  - apply not_elem_of_cons. split; [congruence|done].
  - intros e He. apply not_elem_of_cons. split; [congruence|].
    intros Hin. by eapply Hdisj.
Qed.

Lemma wf_registry_not_parent s :
  wf s → ∀ e, e ∈ minimized_vertices_ s →
  e ≠ parent_of (root_vertex_ s) (unminimized_path_ s).
Proof.
  intros Hwf e He ->. pose proof (wf_nodup s Hwf) as Hnd. unfold owned in Hnd.
  pose proof (parent_of_in (root_vertex_ s) (unminimized_path_ s)) as Hin.
  apply NoDup_cons in Hnd as [Hroot Hnd].
  apply NoDup_app in Hnd as (_ & Hdisj & _).
  apply elem_of_cons in Hin as [Heq|Hin].
  - apply Hroot. rewrite <- Heq. apply elem_of_app. by right.
  - by eapply Hdisj.
Qed.

Lemma minimize_body_found s top rest it :
  unminimized_path_ s = top :: rest →
  registry_find (heap s) (minimized_vertices_ s) (vertex_ top) = Some it →
  minimize_body s
  = Dagger (prev_word_ s) (root_vertex_ s) rest (minimized_vertices_ s)
      (delete (vertex_ top)
         (alter (assign_edge (edge_from_parent_ top) it)
            (parent_of (root_vertex_ s) rest) (heap s)))
      (next_addr s).
Proof. intros Hp Hf. unfold minimize_body. by rewrite Hp, Hf. Qed.

Lemma minimize_body_not_found s top rest :
  unminimized_path_ s = top :: rest →
  registry_find (heap s) (minimized_vertices_ s) (vertex_ top) = None →
  minimize_body s
  = Dagger (prev_word_ s) (root_vertex_ s) rest
      (vertex_ top :: minimized_vertices_ s) (heap s) (next_addr s).
Proof. intros Hp Hf. unfold minimize_body. by rewrite Hp, Hf. Qed.

(** What a successful lookup returns: an element of the registry whose value
    is the value of the probe. *)
Lemma wf_find_Some s top rest it :
  wf s → unminimized_path_ s = top :: rest →
  registry_find (heap s) (minimized_vertices_ s) (vertex_ top) = Some it →
  it ∈ minimized_vertices_ s ∧ heap s !! it = heap s !! vertex_ top.
Proof.
  intros Hwf Hp Hf.
  destruct (wf_top_fresh s top rest Hwf Hp) as (Hnin & _ & _).
  destruct (wf_live s Hwf (vertex_ top)) as [vt Hvt].
  { eauto with owned. }
  rewrite Hvt. eapply registry_find_Some; [done|done| |done].
  intros x Hx. apply (wf_live s Hwf). unfold owned. right.
  apply elem_of_app. by right.
Qed.

Lemma wf_find_None s top rest :
  wf s → unminimized_path_ s = top :: rest →
  registry_find (heap s) (minimized_vertices_ s) (vertex_ top) = None →
  ∀ e, e ∈ minimized_vertices_ s → heap s !! e ≠ heap s !! vertex_ top.
Proof.
  intros Hwf Hp Hf.
  destruct (wf_top_fresh s top rest Hwf Hp) as (Hnin & _ & _).
  destruct (wf_live s Hwf (vertex_ top)) as [vt Hvt].
  { eauto with owned. }
  rewrite Hvt. by eapply registry_find_None.
Qed.

(** The registry holds at most one vertex of each value, so the lookup does
    not depend on the order in which the registry keeps its elements: it
    returns the element that has the value of the probe. *)
Lemma wf_find_unique s top rest it :
  wf s → unminimized_path_ s = top :: rest →
  it ∈ minimized_vertices_ s → heap s !! it = heap s !! vertex_ top →
  registry_find (heap s) (minimized_vertices_ s) (vertex_ top) = Some it.
Proof.
  intros Hwf Hp Hit Hval.
  destruct (registry_find (heap s) (minimized_vertices_ s) (vertex_ top))
    as [it'|] eqn:Hf.
  - destruct (wf_find_Some s top rest it' Hwf Hp Hf) as [Hit' Hval'].
    f_equal. apply (wf_canonical s Hwf); [done|done|congruence].
  - exfalso. by eapply (wf_find_None s top rest Hwf Hp Hf).
Qed.

Lemma wf_minimize_body s :
  wf s → wf (minimize_body s).
Proof.
  intros Hwf. destruct (unminimized_path_ s) as [|top rest] eqn:Hp.
  { unfold minimize_body. by rewrite Hp. }
  destruct (wf_top_fresh s top rest Hwf Hp) as (Htr & Htp & Hrp).
  pose proof (wf_linked s Hwf) as Hlk. rewrite Hp in Hlk. simpl in Hlk.
  destruct Hlk as ((vp & Hvp & Hcp) & Hinto & Hlk).
  pose proof (wf_top s Hwf) as Htop. rewrite Hp in Htop. simpl in Htop.
  pose proof (wf_nodup s Hwf) as Hnd. unfold owned in Hnd. rewrite Hp in Hnd.
  simpl in Hnd.
  pose proof (parent_of_in (root_vertex_ s) rest) as Hpin.
  assert (parent_of (root_vertex_ s) rest ≠ vertex_ top) as Hpt
    by (intros E; apply Htp; by rewrite <- E).
  destruct (registry_find (heap s) (minimized_vertices_ s) (vertex_ top))
    as [it|] eqn:Hf.
  - rewrite (minimize_body_found s top rest it Hp Hf).
    destruct (wf_find_Some s top rest it Hwf Hp Hf) as [Hit Hval].
    assert (∀ a, a ∈ minimized_vertices_ s →
      delete (vertex_ top)
        (alter (assign_edge (edge_from_parent_ top) it)
           (parent_of (root_vertex_ s) rest) (heap s)) !! a = heap s !! a)
      as Hreg.
    { intros a Ha. rewrite lookup_delete_ne by (intros <-; done).
      rewrite lookup_alter_ne; [done|]. intros <-. by apply (Hrp _ Ha). }
    split; unfold owned; simpl.
    + apply NoDup_cons in Hnd as [Hroot Hnd].
      apply NoDup_cons in Hnd as [_ Hnd].
      apply NoDup_cons. split; [|done].
      intros Hin. apply Hroot. by right.
    + intros a Ha.
      assert (a ≠ vertex_ top) as Hne.
      { intros ->. apply elem_of_cons in Ha as [E|Ha].
        - apply Htp. rewrite E. by left.
        - apply elem_of_app in Ha as [Ha|Ha]; [|done].
          apply Htp. by right. }
      rewrite lookup_delete_ne by done.
      destruct (wf_live s Hwf a) as [va Hva].
      { unfold owned. rewrite Hp. simpl.
        apply elem_of_cons in Ha as [->|Ha]; [by left|]. right. by right. }
      destruct (decide (parent_of (root_vertex_ s) rest = a)) as [<-|Hnp].
      * rewrite lookup_alter_eq, Hvp. by eexists.
      * rewrite lookup_alter_ne by done. by eexists.
    + intros a [va Hva]. apply (wf_next s Hwf).
      apply lookup_delete_Some in Hva as [_ Hva].
      destruct (decide (parent_of (root_vertex_ s) rest = a)) as [<-|Hnp].
      * by eexists.
      * rewrite lookup_alter_ne in Hva by done. by eexists.
    + intros a [va Hva]. apply lookup_delete_Some in Hva as [Hne Hva].
      assert (a ∈ owned s) as Hin.
      { apply (wf_owned s Hwf).
        destruct (decide (parent_of (root_vertex_ s) rest = a)) as [<-|Hnp].
        - by eexists.
        - rewrite lookup_alter_ne in Hva by done. by eexists. }
      unfold owned in Hin. rewrite Hp in Hin. simpl in Hin.
      apply elem_of_cons in Hin as [->|Hin]; [by left|]. right.
      apply elem_of_cons in Hin as [->|Hin]; done.
    + intros e He. eapply edges_into_agree; [by apply Hreg|].
      by apply (wf_closed s Hwf).
    + intros v c t Hv Hc _.
      rewrite lookup_delete_ne, lookup_alter_eq, Hvp in Hv by done.
      injection Hv as <-. simpl in Hc.
      destruct (decide (edge_from_parent_ top = c)) as [<-|Hne].
      * rewrite lookup_insert_eq in Hc. by injection Hc as <-.
      * rewrite lookup_insert_ne in Hc by done.
        eapply Hinto; [done|done|congruence].
    + destruct rest as [|r rest']; [done|].
      eapply path_linked_agree; [|done].
      intros a Ha. simpl in Ha. rewrite drop_0 in Ha.
      apply NoDup_cons in Hnd as [Hroot Hnd].
      apply NoDup_cons in Hnd as [Htop' Hnd].
      apply NoDup_app in Hnd as (Hnd & _ & _).
      simpl in Hnd. apply NoDup_cons in Hnd as [Hr _].
      rewrite lookup_delete_ne.
      * rewrite lookup_alter_ne; [done|]. simpl. intros <-.
        apply elem_of_cons in Ha as [E|Ha]; [|done].
        apply Hroot. rewrite <- E. right. simpl. by left.
      * intros <-. apply Htp.
        apply elem_of_cons in Ha as [E|Ha]; [rewrite E; by left|].
        right. simpl. by right.
    + intros e1 e2 H1 H2. rewrite !Hreg by done. by apply (wf_canonical s Hwf).
  - rewrite (minimize_body_not_found s top rest Hp Hf).
    pose proof (wf_find_None s top rest Hwf Hp Hf) as Hnone.
    split; unfold owned; simpl.
    + eapply NoDup_Permutation_proper; [|exact Hnd].
      apply perm_skip. symmetry. apply Permutation_middle.
    + intros a Ha. apply (wf_live s Hwf). unfold owned. rewrite Hp. simpl.
      apply elem_of_cons in Ha as [->|Ha]; [by left|]. right.
      apply elem_of_app in Ha as [Ha|Ha].
      * right. apply elem_of_app. by left.
      * apply elem_of_cons in Ha as [->|Ha]; [by left|].
        right. apply elem_of_app. by right.
    + apply (wf_next s Hwf).
    + intros a Ha. apply (wf_owned s Hwf) in Ha. unfold owned in Ha.
      rewrite Hp in Ha. simpl in Ha.
      apply elem_of_cons in Ha as [->|Ha]; [by left|]. right.
      apply elem_of_cons in Ha as [->|Ha].
      * apply elem_of_app. right. by left.
      * apply elem_of_app in Ha as [Ha|Ha]; apply elem_of_app;
          [by left|right; by right].
    + intros e [->|He]%elem_of_cons.
      * eapply edges_into_mono; [|exact Htop]. intros ? ?. by right.
      * eapply edges_into_mono; [|by apply (wf_closed s Hwf)].
        intros ? ?. by right.
    + intros v c t Hv Hc _. rewrite Hvp in Hv. injection Hv as <-.
      destruct (decide (edge_from_parent_ top = c)) as [<-|Hne].
      * rewrite Hcp in Hc. injection Hc as <-. by left.
      * right. eapply Hinto; [done|done|congruence].
    + eapply path_linked_mono; [|done]. intros ? ?. by right.
    + intros e1 e2 [->|H1]%elem_of_cons [->|H2]%elem_of_cons Heq.
      * done.
      * exfalso. by eapply Hnone.
      * exfalso. by eapply Hnone.
      * by apply (wf_canonical s Hwf).
Qed.

Lemma registry_kept_minimize_body s :
  wf s → registry_kept s (minimize_body s).
Proof.
  intros Hwf e He. destruct (unminimized_path_ s) as [|top rest] eqn:Hp.
  { unfold minimize_body. by rewrite Hp. }
  destruct (wf_top_fresh s top rest Hwf Hp) as (Htr & Htp & Hrp).
  destruct (registry_find (heap s) (minimized_vertices_ s) (vertex_ top))
    as [it|] eqn:Hf.
  - rewrite (minimize_body_found s top rest it Hp Hf). simpl. split; [done|].
    rewrite lookup_delete_ne by (intros <-; done).
    rewrite lookup_alter_ne; [done|]. intros <-.
    apply (Hrp _ He), parent_of_in.
  - rewrite (minimize_body_not_found s top rest Hp Hf). simpl.
    split; [by right|done].
Qed.

(** A change of the heap at the vertex on top of the path leaves the links
    below it as they are. *)
Lemma path_linked_top_change h h' reg root path :
  NoDup (root :: (vertex_ <$> path)) →
  (∀ a, a ≠ parent_of root path → a ∈ root :: (vertex_ <$> path) →
        h' !! a = h !! a) →
  path_linked h reg root path → path_linked h' reg root path.
Proof.
  intros Hnd Hag. destruct path as [|p rest]; [done|].
  apply path_linked_agree. intros a Ha. simpl in Ha. rewrite drop_0 in Ha.
  simpl in *. apply Hag.
  - intros ->. apply NoDup_cons in Hnd as [Hroot Hnd].
    apply NoDup_cons in Hnd as [Hp _].
    apply elem_of_cons in Ha as [E|Ha]; [|done].
    apply Hroot. rewrite <- E. by left.
  - apply elem_of_cons in Ha as [->|Ha]; [by left|]. right. by right.
Qed.

Lemma wf_nodup_spine s :
  wf s → NoDup (root_vertex_ s :: (vertex_ <$> unminimized_path_ s)).
Proof.
  intros Hwf. pose proof (wf_nodup s Hwf) as Hnd. unfold owned in Hnd.
  apply NoDup_cons in Hnd as [Hroot Hnd].
  apply NoDup_app in Hnd as (Hnd & _ & _).
  apply NoDup_cons. split; [|done].
  intros Hin. apply Hroot. apply elem_of_app. by left.
Qed.

Lemma wf_fresh s : wf s → heap s !! next_addr s = None.
Proof.
  intros Hwf. destruct (heap s !! next_addr s) eqn:E; [|done].
  pose proof (wf_next s Hwf (next_addr s)) as H.
  rewrite E in H. specialize (H (mk_is_Some _ _ eq_refl)). lia.
Qed.

Lemma wf_parent_live s :
  wf s → is_Some (heap s !! parent_of (root_vertex_ s) (unminimized_path_ s)).
Proof.
  intros Hwf. apply (wf_live s Hwf). unfold owned.
  pose proof (parent_of_in (root_vertex_ s) (unminimized_path_ s)) as H.
  apply elem_of_cons in H as [->|H]; [by left|]. right.
  apply elem_of_app. by left.
Qed.

Lemma wf_add_suffix_body c s :
  wf s →
  wf (add_suffix_body c (parent_of (root_vertex_ s) (unminimized_path_ s)) s).
Proof.
  intros Hwf. pose proof (wf_fresh s Hwf) as Hfresh.
  destruct (wf_parent_live s Hwf) as [vp Hvp].
  set (parent := parent_of (root_vertex_ s) (unminimized_path_ s)) in *.
  assert (parent ≠ next_addr s) as Hpf by (intros E; congruence).
  assert (∀ a, a ≠ parent → a ≠ next_addr s →
    alter (assign_edge c (next_addr s)) parent
      (<[next_addr s := new_vertex]> (heap s)) !! a = heap s !! a) as Hother.
  { intros a H1 H2. rewrite lookup_alter_ne by done.
    by rewrite lookup_insert_ne. }
  assert (alter (assign_edge c (next_addr s)) parent
      (<[next_addr s := new_vertex]> (heap s)) !! parent
      = Some (assign_edge c (next_addr s) vp)) as Hparent.
  { rewrite lookup_alter_eq, lookup_insert_ne by done. by rewrite Hvp. }
  assert (alter (assign_edge c (next_addr s)) parent
      (<[next_addr s := new_vertex]> (heap s)) !! next_addr s
      = Some new_vertex) as Hnew.
  { rewrite lookup_alter_ne by done. by rewrite lookup_insert_eq. }
  assert (∀ a, a ∈ owned s → a ≠ next_addr s) as Hown.
  { intros a Ha ->. destruct (wf_live s Hwf _ Ha) as [? ?]. congruence. }
  assert (∀ e, e ∈ minimized_vertices_ s →
    alter (assign_edge c (next_addr s)) parent
      (<[next_addr s := new_vertex]> (heap s)) !! e = heap s !! e) as Hreg.
  { intros e He. apply Hother.
    - by apply wf_registry_not_parent.
    - apply Hown. eauto with owned. }
  split; unfold owned, add_suffix_body; simpl.
  - pose proof (wf_nodup s Hwf) as Hnd. unfold owned in Hnd.
    apply NoDup_cons in Hnd as [Hroot Hnd].
    apply NoDup_cons. split.
    + apply not_elem_of_cons. split; [|done].
      apply Hown. eauto with owned.
    + apply NoDup_cons. split; [|done].
      intros Hin. eapply Hown; [|done]. unfold owned. by right.
  - intros a [->|Ha]%elem_of_cons.
    + destruct (decide (root_vertex_ s = parent)) as [E|E].
      * rewrite E, Hparent. by eexists.
      * rewrite Hother; [|done|apply Hown; eauto with owned].
        apply (wf_live s Hwf). eauto with owned.
    + apply elem_of_cons in Ha as [->|Ha]; [rewrite Hnew; by eexists|].
      destruct (decide (a = parent)) as [->|E].
      * rewrite Hparent. by eexists.
      * rewrite Hother; [|done|apply Hown; unfold owned; by right].
        apply (wf_live s Hwf). unfold owned. by right.
  - intros a [va Hva].
    destruct (decide (a = next_addr s)) as [->|E1]; [lia|].
    enough (a < next_addr s) by lia. apply (wf_next s Hwf).
    destruct (decide (a = parent)) as [->|E2]; [by eexists|].
    rewrite Hother in Hva by done. by eexists.
  - intros a [va Hva].
    destruct (decide (a = next_addr s)) as [->|E1]; [right; by left|].
    assert (a ∈ owned s) as Hin.
    { apply (wf_owned s Hwf).
      destruct (decide (a = parent)) as [->|E2]; [by eexists|].
      rewrite Hother in Hva by done. by eexists. }
    unfold owned in Hin. apply elem_of_cons in Hin as [->|Hin]; [by left|].
    right. by right.
  - intros e He. eapply edges_into_agree; [by apply Hreg|].
    by apply (wf_closed s Hwf).
  - intros v c' t Hv Hc' _. rewrite Hnew in Hv. injection Hv as <-.
    simpl in Hc'. by rewrite lookup_empty in Hc'.
  - split_and!.
    + eexists. split; [exact Hparent|]. simpl. by rewrite lookup_insert_eq.
    + intros v c' t Hv Hc' Hne. fold parent in Hv. rewrite Hparent in Hv.
      injection Hv as <-. simpl in Hc'.
      rewrite lookup_insert_ne in Hc' by congruence.
      by eapply (wf_top s Hwf).
    + eapply path_linked_top_change; [by apply wf_nodup_spine| |
        by apply (wf_linked s Hwf)].
      intros a Ha Hin. apply Hother; [done|]. apply Hown. unfold owned.
      apply elem_of_cons in Hin as [->|Hin]; [by left|]. right.
      apply elem_of_app. by left.
  - intros e1 e2 H1 H2. rewrite !Hreg by done. by apply (wf_canonical s Hwf).
Qed.

Lemma registry_kept_add_suffix_body c s :
  wf s →
  registry_kept s
    (add_suffix_body c (parent_of (root_vertex_ s) (unminimized_path_ s)) s).
Proof.
  intros Hwf e He. simpl. split; [done|].
  pose proof (wf_fresh s Hwf) as Hfresh.
  rewrite lookup_alter_ne by (by apply not_eq_sym, wf_registry_not_parent).
  rewrite lookup_insert_ne; [done|]. intros <-.
  destruct (wf_live s Hwf (next_addr s)) as [? ?]; [|congruence].
  unfold owned. right. apply elem_of_app. by right.
Qed.

Lemma registry_kept_refl s : registry_kept s s.
Proof. by intros e He. Qed.

Lemma registry_kept_trans s1 s2 s3 :
  registry_kept s1 s2 → registry_kept s2 s3 → registry_kept s1 s3.
Proof.
  intros H12 H23 e He. destruct (H12 e He) as [He2 Hv2].
  destruct (H23 e He2) as [He3 Hv3]. split; [done|congruence].
Qed.

Lemma wf_add_suffix_loop suffix s :
  wf s →
  wf (add_suffix_loop suffix
        (parent_of (root_vertex_ s) (unminimized_path_ s)) s).2
  ∧ registry_kept s
      (add_suffix_loop suffix
         (parent_of (root_vertex_ s) (unminimized_path_ s)) s).2.
Proof.
  revert s. induction suffix as [|c suffix IH]; intros s Hwf; simpl.
  - split; [done|apply registry_kept_refl].
  - pose proof (wf_add_suffix_body c s Hwf) as Hwf'.
    destruct (IH _ Hwf') as [H1 H2]. simpl in H1, H2. split; [done|].
    eapply registry_kept_trans; [|exact H2].
    by apply registry_kept_add_suffix_body.
Qed.

(** Setting the flag of the vertex on top of the path. *)
Lemma wf_mark_top s :
  wf s →
  wf (Dagger (prev_word_ s) (root_vertex_ s) (unminimized_path_ s)
        (minimized_vertices_ s)
        (alter mark_word_end
           (parent_of (root_vertex_ s) (unminimized_path_ s)) (heap s))
        (next_addr s)).
Proof.
  intros Hwf. destruct (wf_parent_live s Hwf) as [vp Hvp].
  set (parent := parent_of (root_vertex_ s) (unminimized_path_ s)) in *.
  assert (∀ e, e ∈ minimized_vertices_ s →
    alter mark_word_end parent (heap s) !! e = heap s !! e) as Hreg.
  { intros e He. apply lookup_alter_ne, not_eq_sym.
    by apply wf_registry_not_parent. }
  split; unfold owned; simpl.
  - apply (wf_nodup s Hwf).
  - intros a Ha. destruct (decide (parent = a)) as [<-|E].
    + rewrite lookup_alter_eq, Hvp. by eexists.
    + rewrite lookup_alter_ne by done. by apply (wf_live s Hwf).
  - intros a [va Hva]. apply (wf_next s Hwf).
    destruct (decide (parent = a)) as [<-|E]; [by eexists|].
    rewrite lookup_alter_ne in Hva by done. by eexists.
  - intros a [va Hva]. apply (wf_owned s Hwf).
    destruct (decide (parent = a)) as [<-|E]; [by eexists|].
    rewrite lookup_alter_ne in Hva by done. by eexists.
  - intros e He. eapply edges_into_agree; [by apply Hreg|].
    by apply (wf_closed s Hwf).
  - intros v c t Hv Hc _. fold parent in Hv.
    rewrite lookup_alter_eq, Hvp in Hv. injection Hv as <-. simpl in Hc.
    by eapply (wf_top s Hwf).
  - eapply path_linked_top_change; [by apply wf_nodup_spine| |
      by apply (wf_linked s Hwf)].
    intros a Ha _. by apply lookup_alter_ne, not_eq_sym.
  - intros e1 e2 H1 H2. rewrite !Hreg by done. by apply (wf_canonical s Hwf).
Qed.

Lemma add_suffix_eq suffix s :
  let s' := (add_suffix_loop suffix
               (parent_of (root_vertex_ s) (unminimized_path_ s)) s).2 in
  add_suffix suffix s
  = Dagger (prev_word_ s') (root_vertex_ s') (unminimized_path_ s')
      (minimized_vertices_ s')
      (alter mark_word_end
         (parent_of (root_vertex_ s') (unminimized_path_ s')) (heap s'))
      (next_addr s').
Proof.
  intros s'. unfold add_suffix.
  pose proof (add_suffix_loop_last suffix
    (parent_of (root_vertex_ s) (unminimized_path_ s)) s eq_refl) as Hlast.
  subst s'. destruct (add_suffix_loop _ _ _) as [last s']. simpl in *.
  by rewrite Hlast.
Qed.

Lemma wf_add_suffix suffix s : wf s → wf (add_suffix suffix s).
Proof.
  intros Hwf. rewrite add_suffix_eq. apply wf_mark_top.
  by apply wf_add_suffix_loop.
Qed.

Lemma registry_kept_add_suffix suffix s :
  wf s → registry_kept s (add_suffix suffix s).
Proof.
  intros Hwf. rewrite add_suffix_eq.
  destruct (wf_add_suffix_loop suffix s Hwf) as [Hwf' Hk].
  eapply registry_kept_trans; [exact Hk|].
  intros e He. simpl. split; [done|].
  apply lookup_alter_ne, not_eq_sym. by apply wf_registry_not_parent.
Qed.

Lemma wf_minimize_until until s : wf s → wf (minimize_until until s).
Proof.
  intros Hwf. apply (minimize_until_ind wf); [|done].
  intros s' Hs' _. by apply wf_minimize_body.
Qed.

Lemma registry_kept_minimize_until until s :
  wf s → registry_kept s (minimize_until until s).
Proof.
  intros Hwf.
  enough (wf (minimize_until until s)
          ∧ registry_kept s (minimize_until until s)) by tauto.
  apply (minimize_until_ind (λ s', wf s' ∧ registry_kept s s')).
  - intros s' [Hs' Hk] _. split; [by apply wf_minimize_body|].
    eapply registry_kept_trans; [exact Hk|].
    by apply registry_kept_minimize_body.
  - split; [done|apply registry_kept_refl].
Qed.

Lemma wf_set_prev w s :
  wf s →
  wf (Dagger w (root_vertex_ s) (unminimized_path_ s) (minimized_vertices_ s)
        (heap s) (next_addr s)).
Proof. intros [? ? ? ? ? ? ? ?]. by split. Qed.

Lemma wf_insert_word w s : wf s → wf (insert_word w s).
Proof.
  intros Hwf. unfold insert_word. apply wf_set_prev, wf_add_suffix.
  by apply wf_minimize_until.
Qed.

Lemma registry_kept_insert_word w s :
  wf s → registry_kept s (insert_word w s).
Proof.
  intros Hwf. unfold insert_word.
  eapply registry_kept_trans; [by apply (registry_kept_minimize_until
    (mismatch (prev_word_ s) w))|].
  eapply registry_kept_trans;
    [apply registry_kept_add_suffix; by apply wf_minimize_until|].
  by intros e He.
Qed.

Lemma wf_insert_all ws s : wf s → wf (insert_all ws s).
Proof.
  revert s. induction ws as [|w ws IH]; intros s Hwf; simpl; [done|].
  apply IH. by apply wf_insert_word.
Qed.

Lemma wf_construction_steps s s' : wf s → construction_steps s s' → wf s'.
Proof.
  intros Hwf. induction 1.
  - done.
  - by apply wf_minimize_body.
  - by apply wf_add_suffix.
  - by apply wf_insert_word.
Qed.

Lemma wf_construction_state s : construction_state s → wf s.
Proof. apply wf_construction_steps, wf_empty_dagger. Qed.

Lemma registry_kept_construction_steps s s' :
  wf s → construction_steps s s' → registry_kept s s'.
Proof.
  intros Hwf. induction 1 as [|s' Hs' IH|s' suffix Hs' IH|s' w Hs' IH].
  - apply registry_kept_refl.
  - eapply registry_kept_trans; [exact IH|].
    apply registry_kept_minimize_body. by eapply wf_construction_steps.
  - eapply registry_kept_trans; [exact IH|].
    apply registry_kept_add_suffix. by eapply wf_construction_steps.
  - eapply registry_kept_trans; [exact IH|].
    apply registry_kept_insert_word. by eapply wf_construction_steps.
Qed.

Lemma construction_steps_insert_all ws s s' :
  construction_steps s s' → construction_steps s (insert_all ws s').
Proof.
  revert s'. induction ws as [|w ws IH]; intros s' Hs; simpl; [done|].
  apply IH. by constructor.
Qed.

Lemma construction_steps_iter k s s' :
  construction_steps s s' → construction_steps s (Nat.iter k minimize_body s').
Proof. intros Hs. induction k; simpl; [done|]. by constructor. Qed.

Lemma construction_steps_minimize_until d s s' :
  construction_steps s s' → construction_steps s (minimize_until d s').
Proof. intros Hs. rewrite minimize_until_iter. by apply construction_steps_iter. Qed.

Lemma construction_state_from_dictionary ws :
  construction_state (from_dictionary ws).
Proof.
  apply construction_steps_minimize_until, construction_steps_insert_all.
  constructor.
Qed.

Lemma wf_from_dictionary ws : wf (from_dictionary ws).
Proof.
  unfold from_dictionary, finish_minimization.
  apply wf_minimize_until, wf_insert_all, wf_empty_dagger.
Qed.

(** Along the path an edge leads into the registry or to an entry of the
    path; [P] is what else the edges of the vertex on top may lead to. *)
Lemma spine_edges h reg root path (P : nat → Prop) :
  path_linked h reg root path →
  (∀ v c t, h !! parent_of root path = Some v → edges v !! c = Some t →
            t ∈ reg ∨ P t) →
  ∀ a v c t, a ∈ root :: (vertex_ <$> path) →
    h !! a = Some v → edges v !! c = Some t →
    t ∈ reg ∨ P t ∨ t ∈ vertex_ <$> path.
Proof.
  revert P. induction path as [|top rest IH]; intros P Hlk Htop a v c t Ha Hv Hc.
  - apply list_elem_of_singleton in Ha as ->.
    destruct (Htop v c t Hv Hc); [by left|right; by left].
  - destruct Hlk as ((vp & Hvp & Hcp) & Hinto & Hlk). simpl in Ha.
    assert (a = vertex_ top ∨ a ∈ root :: (vertex_ <$> rest)) as [->|Ha'].
    { rewrite !elem_of_cons in Ha. rewrite elem_of_cons. tauto. }
    + destruct (Htop v c t Hv Hc); [by left|right; by left].
    + destruct (IH (λ t, t = vertex_ top) Hlk) with (a := a) (v := v) (c := c)
        (t := t) as [?|[->|?]]; try done.
      * intros v' c' t' Hv' Hc'. rewrite Hvp in Hv'. injection Hv' as <-.
        destruct (decide (c' = edge_from_parent_ top)) as [->|Hne].
        -- rewrite Hcp in Hc'. injection Hc' as <-. by right.
        -- left. eapply Hinto; [done|done|congruence].
      * by left.
      * right. right. by left.
      * right. right. by right.
Qed.

(** No vertex holds the address of a destroyed vertex: every edge of a live
    vertex leads to a live vertex. *)
Lemma wf_no_dangling s a v c t :
  wf s → heap s !! a = Some v → edges v !! c = Some t →
  is_Some (heap s !! t).
Proof.
  intros Hwf Hv Hc. apply (wf_live s Hwf).
  assert (a ∈ owned s) as Ha by (apply (wf_owned s Hwf); by eexists).
  unfold owned in *.
  assert (a ∈ root_vertex_ s :: (vertex_ <$> unminimized_path_ s)
          ∨ a ∈ minimized_vertices_ s) as [Hspine|Hreg].
  { rewrite elem_of_cons, elem_of_app in Ha. rewrite elem_of_cons. tauto. }
  - destruct (spine_edges (heap s) (minimized_vertices_ s) (root_vertex_ s)
                (unminimized_path_ s) (λ _, False)) with (a := a) (v := v)
      (c := c) (t := t) as [?|[[]|?]]; try done.
    + apply (wf_linked s Hwf).
    + intros v' c' t' Hv' Hc'. left. by eapply (wf_top s Hwf).
    + right. apply elem_of_app. by right.
    + right. apply elem_of_app. by left.
  - right. apply elem_of_app. right. by eapply (wf_closed s Hwf a Hreg).
Qed.

(** The live vertices are the owned ones, each counted once. *)
Lemma wf_heap_size s : wf s → size (heap s) = length (owned s).
Proof.
  intros Hwf. rewrite <- length_map_to_list, <- (length_fmap fst).
  apply Permutation_length, NoDup_Permutation.
  - apply NoDup_fst_map_to_list.
  - apply (wf_nodup s Hwf).
  - intros a. split.
    + intros ((a' & va) & -> & Hin)%list_elem_of_fmap. simpl.
      apply elem_of_map_to_list in Hin. apply (wf_owned s Hwf). by eexists.
    + intros Ha. destruct (wf_live s Hwf a Ha) as [va Hva].
      apply list_elem_of_fmap. exists (a, va). split; [done|].
      by apply elem_of_map_to_list.
Qed.

End well_formed.

#[export] Hint Resolve owned_root owned_path owned_top owned_registry : owned.


(** * The order of the input words *)

Section word_order.

Lemma word_ltb_cons a u b v :
  word_ltb (a :: u) (b :: v) = true ↔ char_lt a b ∨ (a = b ∧ word_ltb u v = true).
Proof.
  simpl. destruct (decide (char_lt a b)) as [Hlt|Hnlt].
  - split; [by left|done].
  - destruct (decide (a = b)) as [->|Hne].
    + split; [by right|]. by intros [?|[_ ?]].
    + split; [done|]. by intros [?|[? _]].
Qed.

Lemma char_lt_irrefl a : ¬ char_lt a a.
Proof. unfold char_lt. lia. Qed.

Lemma char_lt_trans a b c : char_lt a b → char_lt b c → char_lt a c.
Proof. unfold char_lt. lia. Qed.

Lemma word_ltb_irrefl u : word_ltb u u = false.
Proof.
  induction u as [|a u IH]; [done|].
  apply not_true_is_false. intros [H|[_ H]]%word_ltb_cons.
  - by apply char_lt_irrefl in H.
  - congruence.
Qed.

Lemma word_ltb_trans u v w :
  word_ltb u v = true → word_ltb v w = true → word_ltb u w = true.
Proof.
  revert v w. induction u as [|a u IH]; intros [|b v] [|c w]; try done.
  rewrite !word_ltb_cons. intros [H1|[-> H1]] [H2|[-> H2]].
  - left. by eapply char_lt_trans.
  - by left.
  - by left.
  - right. split; [done|]. by eapply IH.
Qed.

(** All the words with a given prefix are next to each other in the order. *)
Lemma prefix_between u x y z :
  x = y ∨ word_ltb x y = true → word_ltb y z = true →
  u `prefix_of` x → u `prefix_of` z → u `prefix_of` y.
Proof.
  revert x y z. induction u as [|c u IH]; intros x y z Hxy Hyz Hx Hz.
  { apply prefix_nil. }
  destruct Hx as [x' ->], Hz as [z' ->].
  destruct Hxy as [<-|Hxy]; [by apply prefix_app_r|].
  destruct y as [|b y]; [done|]. simpl in Hxy, Hyz.
  apply word_ltb_cons in Hxy, Hyz.
  destruct Hxy as [Hxy|[-> Hxy]], Hyz as [Hyz|[E Hyz]].
  - exfalso. eapply char_lt_irrefl, char_lt_trans; eauto.
  - subst. by apply char_lt_irrefl in Hxy.
  - by apply char_lt_irrefl in Hyz.
  - apply prefix_cons. eapply (IH (u ++ x') y (u ++ z')); eauto.
    + by apply prefix_app_r.
    + by apply prefix_app_r.
Qed.

Lemma strictly_ascending_cons w ws :
  strictly_ascending (w :: ws) = true ↔
  strictly_ascending ws = true ∧ ∀ x, head ws = Some x → word_ltb w x = true.
Proof.
  destruct ws as [|w' ws]; simpl.
  - split; [|done]. intros _. split; [done|]. by intros x.
  - rewrite andb_true_iff. split.
    + intros [H1 H2]. split; [done|]. by intros x [= <-].
    + intros [H1 H2]. split; [|done]. by apply H2.
Qed.

Lemma strictly_ascending_all w ws :
  strictly_ascending (w :: ws) = true → ∀ x, x ∈ ws → word_ltb w x = true.
Proof.
  revert w. induction ws as [|w' ws IH]; intros w Hs x Hx.
  { by apply elem_of_nil in Hx. }
  apply strictly_ascending_cons in Hs as [Hs Hh].
  specialize (Hh w' eq_refl).
  apply elem_of_cons in Hx as [->|Hx]; [done|].
  eapply word_ltb_trans; [exact Hh|]. by apply IH.
Qed.

Lemma strictly_ascending_app_l ws1 ws2 :
  strictly_ascending (ws1 ++ ws2) = true → strictly_ascending ws1 = true.
Proof.
  induction ws1 as [|w ws1 IH]; [done|]. simpl app.
  rewrite !strictly_ascending_cons. intros [Hs Hh]. split; [by apply IH|].
  intros x Hx. apply Hh. destruct ws1; [done|]. done.
Qed.

(** In an ascending sequence every word is below the last one. *)
Lemma strictly_ascending_snoc ws w x :
  strictly_ascending (ws ++ [w]) = true → x ∈ ws → word_ltb x w = true.
Proof.
  induction ws as [|w' ws IH]; intros Hs Hx; [by apply elem_of_nil in Hx|].
  simpl app in Hs. apply elem_of_cons in Hx as [->|Hx].
  - eapply strictly_ascending_all; [exact Hs|].
    apply elem_of_app. right. by left.
  - apply IH; [|done]. by apply strictly_ascending_cons in Hs as [Hs _].
Qed.

Lemma strictly_ascending_NoDup ws : strictly_ascending ws = true → NoDup ws.
Proof.
  induction ws as [|w ws IH]; intros Hs; [constructor|].
  apply NoDup_cons. split.
  - intros Hin. pose proof (strictly_ascending_all w ws Hs w Hin) as H.
    by rewrite word_ltb_irrefl in H.
  - apply IH. by apply strictly_ascending_cons in Hs as [Hs _].
Qed.

Lemma prefix_of_take (u w : word) m :
  u `prefix_of` w → length u ≤ m → u `prefix_of` take m w.
Proof.
  intros [k ->] Hm. rewrite take_app, take_ge by done. by apply prefix_app_r.
Qed.

(** The fact about the order that the construction rests on: a prefix that
    the new word shares with an earlier word lies within the prefix it
    shares with the previous word. *)
Lemma shared_prefix_bound ws w x u :
  strictly_ascending (ws ++ [w]) = true → x ∈ ws →
  u `prefix_of` x → u `prefix_of` w →
  u `prefix_of` take (mismatch (List.last ws []) w) w.
Proof.
  intros Hs Hx Hux Huw.
  assert (∃ ws0 prev, ws = ws0 ++ [prev]) as (ws0 & prev & ->).
  { destruct ws as [|y ws] using rev_ind; [by apply elem_of_nil in Hx|].
    by eexists _, _. }
  rewrite last_last.
  assert (word_ltb prev w = true) as Hpw.
  { eapply strictly_ascending_snoc; [exact Hs|].
    apply elem_of_app. right. by left. }
  assert (x = prev ∨ word_ltb x prev = true) as Hxp.
  { apply elem_of_app in Hx as [Hx|Hx].
    - right. eapply strictly_ascending_snoc; [|exact Hx].
      by eapply strictly_ascending_app_l.
    - left. by apply list_elem_of_singleton in Hx. }
  assert (u `prefix_of` prev) as Hup by by eapply prefix_between.
  apply prefix_of_take; [done|]. by apply mismatch_max.
Qed.

End word_order.


(** * Walks and the heap *)

Section walks.

Lemma walk_nil h a :
  walk h a [] = match h !! a with Some v => is_word_end v | None => false end.
Proof. done. Qed.

Lemma walk_cons h a c w :
  walk h a (c :: w)
  = match h !! a with
    | Some v => match edges v !! c with
                | Some t => walk h t w
                | None => false
                end
    | None => false
    end.
Proof. done. Qed.

(** What [contains] computes, and what it leaves behind: the loop reads the
    vertices and writes none. *)
Lemma contains_loop_walk a w s :
  contains_loop a w s = (walk (heap s) a w, s).
Proof.
  revert a. induction w as [|c w IH]; intros a.
  - rewrite walk_nil. simpl. unfold is_word_end_at.
    by destruct (heap s !! a).
  - rewrite walk_cons. simpl. unfold mbind, access_bind, edges_find.
    destruct (heap s !! a) as [v|]; simpl; [|done].
    destruct (edges v !! c) as [t|]; [apply IH|done].
Qed.

Lemma contains_walk w s :
  contains w s = (walk (heap s) (root_vertex_ s) w, s).
Proof.
  unfold contains, mbind, access_bind, get_root. apply contains_loop_walk.
Qed.

Lemma contains_answer w s :
  (contains w s).1 = walk (heap s) (root_vertex_ s) w.
Proof. by rewrite contains_walk. Qed.

(** A walk from a vertex reads the heap at that vertex and then walks from
    a target: two vertices with the same value accept the same words. *)
Lemma walk_same_vertex h a b w : h !! a = h !! b → walk h a w = walk h b w.
Proof. intros E. destruct w; [by rewrite !walk_nil, E| by rewrite !walk_cons, E]. Qed.

(** Two heaps that agree on a set of addresses closed under the edges give
    the same walks from these addresses. *)
Lemma walk_agree (h h' : gmap nat vertex) (S : nat → Prop) :
  (∀ a, S a → h' !! a = h !! a) →
  (∀ a v c t, S a → h !! a = Some v → edges v !! c = Some t → S t) →
  ∀ w a, S a → walk h' a w = walk h a w.
Proof.
  intros Hag Hcl. induction w as [|c w IH]; intros a Ha.
  - by rewrite !walk_nil, Hag.
  - rewrite !walk_cons, Hag by done.
    destruct (h !! a) as [v|] eqn:Hv; [|done].
    destruct (edges v !! c) as [t|] eqn:Ht; [|done].
    apply IH. by eapply Hcl.
Qed.

(** The registry is closed under the edges, so a change of the heap outside
    of it does not change what its vertices accept. *)
Lemma walk_registry s h' :
  wf s → (∀ e, e ∈ minimized_vertices_ s → h' !! e = heap s !! e) →
  ∀ e w, e ∈ minimized_vertices_ s → walk h' e w = walk (heap s) e w.
Proof.
  intros Hwf Hag e w He.
  apply (walk_agree (heap s) h' (λ a, a ∈ minimized_vertices_ s)); [done| |done].
  intros a v c t Ha Hv Hc. by eapply (wf_closed s Hwf a Ha).
Qed.

End walks.

(** * Properties along the path *)

Section along_path.

Lemma path_word_cons e rest :
  path_word (e :: rest) = path_word rest ++ [edge_from_parent_ e].
Proof. unfold path_word. simpl. by rewrite reverse_cons. Qed.

Lemma path_forall_impl (P Q : nat → word → Prop) root path :
  (∀ a u, P a u → Q a u) → path_forall P root path → path_forall Q root path.
Proof.
  intros HPQ. induction path as [|e rest IH]; simpl.
  - intros [H _]. split; [by apply HPQ|done].
  - intros [H Hrest]. split; [by apply HPQ|by apply IH].
Qed.

Lemma path_forall_and (P Q : nat → word → Prop) root path :
  path_forall P root path → path_forall Q root path →
  path_forall (λ a u, P a u ∧ Q a u) root path.
Proof.
  induction path as [|e rest IH]; simpl.
  - intros [H _] [H' _]. done.
  - intros [H Hrest] [H' Hrest']. split; [done|by apply IH].
Qed.

Lemma path_forall_top (P : nat → word → Prop) root path :
  path_forall P root path → P (parent_of root path) (path_word path).
Proof. destruct path; simpl; tauto. Qed.

Lemma path_forall_root (P : nat → word → Prop) root path :
  path_forall P root path → P root [].
Proof.
  induction path as [|e rest IH]; simpl; [tauto|]. intros [_ H]. by apply IH.
Qed.

Lemma app_cons_not_prefix (p : word) c x v :
  x ≠ c → ¬ (p ++ [c]) `prefix_of` (p ++ x :: v).
Proof.
  intros Hne [k Hk]. rewrite <- app_assoc in Hk.
  apply app_inv_head in Hk. simpl in Hk. congruence.
Qed.

Lemma app_not_prefix_self (p : word) c : ¬ (p ++ [c]) `prefix_of` p.
Proof.
  intros [k Hk]. apply (f_equal length) in Hk.
  rewrite !length_app in Hk. simpl in Hk. lia.
Qed.

(** How a change at the top of the path shows at the vertices below it.
    [h'] differs from [h] at the vertex on top of the path, which now accepts
    in addition the continuations that lead into [D]; then so does every
    vertex of the path. *)
Lemma path_transfer h h' reg root path (D : word → Prop) :
  NoDup (root :: (vertex_ <$> path)) →
  (∀ a, a ∈ root :: (vertex_ <$> path) → a ≠ parent_of root path →
        h' !! a = h !! a) →
  (∀ e v, e ∈ reg → walk h' e v = walk h e v) →
  path_linked h reg root path →
  (∀ y, D y → path_word path `prefix_of` y) →
  (∀ v, walk h' (parent_of root path) v = true
        ↔ walk h (parent_of root path) v = true ∨ D (path_word path ++ v)) →
  path_forall (λ a u, ∀ v, walk h' a v = true ↔ walk h a v = true ∨ D (u ++ v))
    root path.
Proof.
  intros Hnd Hag Hreg. induction path as [|e rest IH]; intros Hlk HD Htop.
  { simpl. done. }
  simpl. split; [done|].
  destruct Hlk as ((vp & Hvp & Hc) & Hinto & Hlk).
  simpl in Hag, Hnd.
  assert (∀ a, a ∈ root :: (vertex_ <$> rest) → a ≠ vertex_ e) as Hbelow.
  { intros a Ha ->. apply NoDup_cons in Hnd as [Hroot Hnd].
    apply NoDup_cons in Hnd as [He _].
    apply elem_of_cons in Ha as [E|Ha]; [|done].
    apply Hroot. rewrite <- E. by left. }
  assert (h' !! parent_of root rest = h !! parent_of root rest) as Hp.
  { pose proof (parent_of_in root rest) as Hin. apply Hag; [|by apply Hbelow].
    apply elem_of_cons in Hin as [->|Hin]; [by left|]. right. by right. }
  rewrite path_word_cons in HD, Htop.
  apply IH; [| |done| |].
  - apply NoDup_cons in Hnd as [Hroot Hnd].
    apply NoDup_cons in Hnd as [_ Hnd]. apply NoDup_cons. split; [|done].
    intros Hin. apply Hroot. by right.
  - intros a Ha _. apply Hag; [|by apply Hbelow].
    apply elem_of_cons in Ha as [->|Ha]; [by left|]. right. by right.
  - intros y Hy. etrans; [|by apply HD]. by apply prefix_app_r.
  - intros [|x v].
    + rewrite !walk_nil, Hp, app_nil_r. split; [by left|].
      intros [H|H]; [done|]. apply HD in H. by apply app_not_prefix_self in H.
    + rewrite !walk_cons, Hp, Hvp.
      destruct (decide (x = edge_from_parent_ e)) as [->|Hne].
      * rewrite Hc. simpl in Htop. rewrite Htop, <- app_assoc. done.
      * assert (¬ D (path_word rest ++ x :: v)) as HnD.
        { intros H. apply HD in H. by apply app_cons_not_prefix in H. }
        destruct (edges vp !! x) as [t|] eqn:Ht; [|tauto].
        rewrite Hreg; [tauto|]. eapply Hinto; [done|done|congruence].
Qed.

End along_path.


(** * Minimisation keeps the language *)

Section minimize_language.

Lemma prefix_snoc_inv (u p : word) c :
  u `prefix_of` (p ++ [c]) → u `prefix_of` p ∨ u = p ++ [c].
Proof.
  intros [k Hk]. destruct k as [|x k] using rev_ind.
  - right. by rewrite app_nil_r in Hk.
  - left. rewrite app_assoc in Hk. apply app_inj_tail in Hk as [-> _].
    by apply prefix_app_r.
Qed.

(** A registry vertex accepts some word. *)
Lemma registry_inhabited ws s e :
  lang_inv ws s → e ∈ minimized_vertices_ s → ∃ v, walk (heap s) e v = true.
Proof.
  intros Hli He. destruct (li_registry ws s Hli e He) as (u & _ & _ & [v Hv] & Hl).
  exists v. by apply Hl.
Qed.

(** A vertex whose targets are all in the registry and which accepts the
    same words as an element of the registry has the value of that
    element. *)
Lemma same_language_same_vertex ws s a e :
  wf s → lang_inv ws s →
  is_Some (heap s !! a) →
  edges_into (heap s) (minimized_vertices_ s) a None →
  e ∈ minimized_vertices_ s →
  (∀ v, walk (heap s) a v = walk (heap s) e v) →
  heap s !! e = heap s !! a.
Proof.
  intros Hwf Hli [va Hva] Hinto He Heq.
  destruct (wf_live s Hwf e) as [ve Hve].
  { eauto with owned. }
  rewrite Hva, Hve. f_equal.
  assert (is_word_end ve = is_word_end va) as Hflag.
  { specialize (Heq []). rewrite !walk_nil, Hva, Hve in Heq. done. }
  assert (edges ve = edges va) as Hedges.
  { apply map_eq. intros c.
    destruct (edges va !! c) as [t|] eqn:Ht, (edges ve !! c) as [t'|] eqn:Ht'.
    - f_equal.
      assert (t ∈ minimized_vertices_ s) as Hin by by eapply Hinto.
      assert (t' ∈ minimized_vertices_ s) as Hin'
        by by eapply (wf_closed s Hwf e He).
      apply (li_distinct ws s Hli); [done|done|].
      intros v. specialize (Heq (c :: v)).
      by rewrite !walk_cons, Hva, Hve, Ht, Ht' in Heq.
    - exfalso.
      assert (t ∈ minimized_vertices_ s) as Hin by by eapply Hinto.
      destruct (registry_inhabited ws s t Hli Hin) as [v Hv].
      specialize (Heq (c :: v)).
      rewrite !walk_cons, Hva, Hve, Ht, Ht' in Heq. congruence.
    - exfalso.
      assert (t' ∈ minimized_vertices_ s) as Hin'
        by by eapply (wf_closed s Hwf e He).
      destruct (registry_inhabited ws s t' Hli Hin') as [v Hv].
      specialize (Heq (c :: v)).
      rewrite !walk_cons, Hva, Hve, Ht, Ht' in Heq. congruence.
    - done. }
  destruct va, ve; simpl in *; by subst.
Qed.

Lemma lang_of_agree h h' a u ws :
  (∀ v, walk h' a v = walk h a v) → lang_of h a u ws → lang_of h' a u ws.
Proof. intros Heq Hl v. rewrite Heq. apply Hl. Qed.

Lemma lang_inv_minimize_body ws s :
  wf s → lang_inv ws s → unminimized_path_ s ≠ [] →
  lang_inv ws (minimize_body s).
Proof.
  intros Hwf Hli Hne.
  destruct (unminimized_path_ s) as [|top rest] eqn:Hp; [done|]. clear Hne.
  destruct (wf_top_fresh s top rest Hwf Hp) as (Htr & Htp & Hrp).
  pose proof (wf_linked s Hwf) as Hlk. rewrite Hp in Hlk. simpl in Hlk.
  destruct Hlk as ((vp & Hvp & Hcp) & Hinto & Hlk).
  pose proof (wf_top s Hwf) as Htop. rewrite Hp in Htop. simpl in Htop.
  pose proof (li_path ws s Hli) as Hpath. rewrite Hp in Hpath.
  destruct Hpath as [Hltop Hpath]. simpl in Hltop.
  pose proof (li_extends ws s Hli) as Hext. rewrite Hp in Hext.
  destruct Hext as [vext Hvext]; [done|].
  pose proof (li_registry ws s Hli) as Hregs. rewrite Hp in Hregs.
  pose proof (li_complete ws s Hli) as Hcompl. rewrite Hp in Hcompl.
  rewrite path_word_cons in *.
  set (c := edge_from_parent_ top) in *.
  set (parent := parent_of (root_vertex_ s) rest) in *.
  pose proof (registry_kept_minimize_body s Hwf) as Hkept.
  assert (∀ e v, e ∈ minimized_vertices_ s →
    walk (heap (minimize_body s)) e v = walk (heap s) e v) as Hwalk.
  { intros e v He. apply walk_registry; [done| |done].
    intros e' He'. by apply Hkept. }
  assert (rest ≠ [] → ∃ v, path_word rest ++ v ∈ ws) as Hext'.
  { intros _. exists (c :: vext). by rewrite <- app_assoc in Hvext. }
  assert (∀ e, e ∈ minimized_vertices_ s →
    ∃ u, u ≠ [] ∧ ¬ u `prefix_of` path_word rest ∧ (∃ v, u ++ v ∈ ws)
         ∧ lang_of (heap (minimize_body s)) e u ws) as Hregs'.
  { intros e He. destruct (Hregs e He) as (u & Hu & Hnp & Hex & Hl).
    exists u. split_and!; [done| |done|].
    - intros H. apply Hnp. by apply prefix_app_r.
    - eapply lang_of_agree; [|done]. intros v. by apply Hwalk. }
  destruct (registry_find (heap s) (minimized_vertices_ s) (vertex_ top))
    as [it|] eqn:Hf.
  - destruct (wf_find_Some s top rest it Hwf Hp Hf) as [Hit Hval].
    pose proof (minimize_body_found s top rest it Hp Hf) as Hbody.
    rewrite Hbody in Hwalk, Hregs'. simpl in Hwalk, Hregs'.
    rewrite Hbody. fold c parent in Hwalk, Hregs' |- *.
    set (h' := delete (vertex_ top) (alter (assign_edge c it) parent (heap s)))
      in *.
    assert (parent ≠ vertex_ top) as Hpt.
    { intros E. apply Htp. rewrite <- E. apply parent_of_in. }
    assert (h' !! parent = Some (assign_edge c it vp)) as Hparent.
    { unfold h'. rewrite lookup_delete_ne by done.
      by rewrite lookup_alter_eq, Hvp. }
    assert (∀ v, walk h' it v = walk (heap s) (vertex_ top) v) as Hitw.
    { intros v. rewrite Hwalk by done. by apply walk_same_vertex. }
    split; simpl.
    + eapply path_forall_impl;
        [|apply path_forall_and; [exact Hpath|
          apply (path_transfer (heap s) h' (minimized_vertices_ s)
                   (root_vertex_ s) rest (λ _, False))]].
      * intros a u [Hl Hw] v. specialize (Hl v). specialize (Hw v).
        simpl in Hw. tauto.
      * pose proof (wf_nodup_spine s Hwf) as Hnd. rewrite Hp in Hnd.
        simpl in Hnd. apply NoDup_cons in Hnd as [Hroot Hnd].
        apply NoDup_cons in Hnd as [_ Hnd]. apply NoDup_cons. split; [|done].
        intros Hin. apply Hroot. by right.
      * intros a Ha Hap. unfold h'.
        rewrite lookup_delete_ne by (intros <-; done).
        by apply lookup_alter_ne, not_eq_sym.
      * done.
      * done.
      * done.
      * fold parent. intros [|x v].
        -- rewrite !walk_nil, Hparent, Hvp. simpl. tauto.
        -- rewrite !walk_cons, Hparent, Hvp. simpl.
           destruct (decide (x = c)) as [->|Hxc].
           ++ rewrite lookup_insert_eq, Hcp, Hitw. tauto.
           ++ rewrite lookup_insert_ne by done.
              destruct (edges vp !! x) as [t|] eqn:Ht; [|tauto].
              rewrite Hwalk; [tauto|]. eapply Hinto; [done|done|congruence].
    + done.
    + done.
    + intros u v Hu Huv Hnp.
      destruct (decide (u `prefix_of` path_word rest ++ [c])) as [Hpre|Hnpre].
      * apply prefix_snoc_inv in Hpre as [Hpre| ->]; [done|].
        exists it. split; [done|]. intros v'. rewrite Hitw. apply Hltop.
      * destruct (Hcompl u v Hu Huv Hnpre) as (e & He & Hl).
        exists e. split; [done|]. eapply lang_of_agree; [|done].
        intros v'. by apply Hwalk.
    + intros e1 e2 H1 H2 Heq. apply (li_distinct ws s Hli); [done|done|].
      intros v. rewrite <- !Hwalk by done. apply Heq.
  - pose proof (wf_find_None s top rest Hwf Hp Hf) as Hnone.
    pose proof (minimize_body_not_found s top rest Hp Hf) as Hbody.
    rewrite Hbody in Hwalk, Hregs'. simpl in Hwalk, Hregs'.
    rewrite Hbody.
    assert (is_Some (heap s !! vertex_ top)) as Hlive.
    { apply (wf_live s Hwf). eauto with owned. }
    split; simpl.
    + done.
    + done.
    + intros e [->|He]%elem_of_cons; [|by apply Hregs'].
      exists (path_word rest ++ [c]). split_and!.
      * by destruct (path_word rest).
      * apply app_not_prefix_self.
      * by exists vext.
      * done.
    + intros u v Hu Huv Hnp.
      destruct (decide (u `prefix_of` path_word rest ++ [c])) as [Hpre|Hnpre].
      * apply prefix_snoc_inv in Hpre as [Hpre| ->]; [done|].
        exists (vertex_ top). split; [by left|done].
      * destruct (Hcompl u v Hu Huv Hnpre) as (e & He & Hl).
        exists e. split; [by right|done].
    + intros e1 e2 [->|H1]%elem_of_cons [->|H2]%elem_of_cons Heq.
      * done.
      * exfalso. apply (Hnone e2 H2).
        by apply (same_language_same_vertex ws s).
      * exfalso. apply (Hnone e1 H1).
        by apply (same_language_same_vertex ws s).
      * by apply (li_distinct ws s Hli).
Qed.

Lemma lang_inv_minimize_until ws until s :
  wf s → lang_inv ws s → lang_inv ws (minimize_until until s).
Proof.
  intros Hwf Hli.
  enough (wf (minimize_until until s) ∧ lang_inv ws (minimize_until until s))
    by tauto.
  apply (minimize_until_ind (λ s', wf s' ∧ lang_inv ws s')); [|done].
  intros s' [Hwf' Hli'] Hne. split; [by apply wf_minimize_body|].
  by apply lang_inv_minimize_body.
Qed.

End minimize_language.


(** * Suffix extension adds one word *)

Section add_suffix_language.

Lemma add_suffix_heap suffix s :
  heap (add_suffix suffix s)
  = alter mark_word_end
      (add_suffix_loop suffix
         (parent_of (root_vertex_ s) (unminimized_path_ s)) s).1
      (heap (add_suffix_loop suffix
         (parent_of (root_vertex_ s) (unminimized_path_ s)) s).2).
Proof. unfold add_suffix. by destruct (add_suffix_loop _ _ _). Qed.

(** The heap after [add_suffix]: untouched below the allocator mark except
    at the parent, which gets the first edge of the chain or, with an empty
    suffix, the flag. *)
Lemma add_suffix_loop_heap suffix s parent vp :
  heap s !! parent = Some vp →
  (∀ a, is_Some (heap s !! a) → a < next_addr s) →
  let r := add_suffix_loop suffix parent s in
  let h' := alter mark_word_end r.1 (heap r.2) in
  (∀ a, a ≠ parent → a < next_addr s → h' !! a = heap s !! a)
  ∧ h' !! parent
    = Some (match suffix with
            | [] => mark_word_end vp
            | c :: _ => assign_edge c (next_addr s) vp
            end)
  ∧ chain_lang h' (next_addr s) suffix.
Proof.
  revert s parent vp.
  induction suffix as [|c suffix IH]; intros s parent vp Hvp Hnext; simpl.
  - split_and!; [|by rewrite lookup_alter_eq, Hvp|done].
    intros a Ha _. by apply lookup_alter_ne, not_eq_sym.
  - set (a := next_addr s).
    assert (parent < a) as Hpa by (apply Hnext; by eexists).
    set (s1 := add_suffix_body c parent s).
    assert (heap s1 !! a = Some new_vertex) as Ha1.
    { unfold s1, add_suffix_body. simpl. fold a.
      rewrite lookup_alter_ne by lia. by rewrite lookup_insert_eq. }
    assert (∀ x, is_Some (heap s1 !! x) → x < next_addr s1) as Hnext1.
    { intros x [vx Hx]. unfold s1, add_suffix_body in *. simpl in *. fold a in Hx |- *.
      destruct (decide (x = a)) as [->|Hxa]; [lia|].
      enough (x < a) by lia. apply Hnext.
      destruct (decide (parent = x)) as [<-|Hpx]; [by eexists|].
      rewrite lookup_alter_ne, lookup_insert_ne in Hx by lia. by eexists. }
    destruct (IH s1 a new_vertex Ha1 Hnext1) as (I1 & I2 & I3).
    simpl in I1, I2, I3. fold a in I1, I2, I3.
    set (h' := alter mark_word_end (add_suffix_loop suffix a s1).1
                 (heap (add_suffix_loop suffix a s1).2)) in *.
    split_and!.
    + intros x Hx Hlt. rewrite I1 by lia.
      unfold s1, add_suffix_body. simpl. fold a.
      rewrite lookup_alter_ne by done. by rewrite lookup_insert_ne by lia.
    + rewrite I1 by lia. unfold s1, add_suffix_body. simpl. fold a.
      rewrite lookup_alter_eq, lookup_insert_ne by lia. by rewrite Hvp.
    + intros [|x v].
      * rewrite walk_nil, I2. destruct suffix; simpl; split; done.
      * rewrite walk_cons, I2. destruct suffix as [|c' suffix']; simpl.
        { rewrite lookup_empty. split; done. }
        destruct I3 as [I3 _].
        destruct (decide (x = c')) as [->|Hne].
        -- rewrite lookup_insert_eq, I3. split; [by intros ->|by intros [= ->]].
        -- rewrite lookup_insert_ne, lookup_empty by done.
           split; [done|]. intros [= ? ?]. done.
    + done.
Qed.

Lemma fresh_entries_snoc_path a c suffix (base : list unminimized_vertex) :
  reverse (fresh_entries a (c :: suffix)) ++ base
  = reverse (fresh_entries (S a) suffix) ++ UnminimizedVertex a c :: base.
Proof. simpl. by rewrite reverse_cons, <- app_assoc. Qed.

(** The new part of the path. *)
Lemma chain_path_forall h' root ws' a suffix base :
  chain_lang h' a suffix →
  (∀ j v, 0 < j ≤ length suffix →
     (path_word base ++ take j suffix) ++ v ∈ ws' ↔ v = drop j suffix) →
  path_forall (λ a u, lang_of h' a u ws') root base →
  path_forall (λ a u, lang_of h' a u ws') root
    (reverse (fresh_entries a suffix) ++ base).
Proof.
  revert a base.
  induction suffix as [|c suffix IH]; intros a base Hchain Hws Hbase.
  { done. }
  rewrite fresh_entries_snoc_path. destruct Hchain as [Hhead Hchain].
  apply IH; [done| |].
  - intros j v Hj. rewrite path_word_cons. simpl.
    rewrite <- (app_assoc (path_word base) [c]). simpl.
    apply (Hws (S j) v). simpl. lia.
  - simpl. split; [|done]. rewrite path_word_cons. simpl.
    intros v. rewrite Hhead. symmetry. apply (Hws 1 v). simpl. lia.
Qed.

Lemma lang_inv_add_suffix ws w suffix s :
  wf s → lang_inv ws s →
  w = path_word (unminimized_path_ s) ++ suffix →
  (∀ x u, x ∈ ws → u `prefix_of` x → u `prefix_of` w →
          u `prefix_of` path_word (unminimized_path_ s)) →
  lang_inv (ws ++ [w]) (add_suffix suffix s).
Proof.
  intros Hwf Hli Hw HK.
  set (p := path_word (unminimized_path_ s)) in *.
  set (parent := parent_of (root_vertex_ s) (unminimized_path_ s)) in *.
  destruct (wf_parent_live s Hwf) as [vp Hvp]. fold parent in Hvp.
  destruct (add_suffix_loop_heap suffix s parent vp Hvp (wf_next s Hwf))
    as (H1 & H2 & H3).
  pose proof (add_suffix_heap suffix s) as Hheap. fold parent in Hheap.
  simpl in H1, H2, H3. rewrite <- Hheap in H1, H2, H3. clear Hheap.
  set (h' := heap (add_suffix suffix s)) in *.
  assert (∀ a, a ∈ owned s → a < next_addr s) as Hlt.
  { intros a Ha. by apply (wf_next s Hwf), (wf_live s Hwf). }
  assert (∀ e v, e ∈ minimized_vertices_ s → walk h' e v = walk (heap s) e v)
    as Hwalk.
  { intros e v He. apply walk_registry; [done| |done].
    intros e' He'. apply H1; [by apply wf_registry_not_parent|].
    apply Hlt. eauto with owned. }
  pose proof (path_forall_top _ _ _ (li_path ws s Hli)) as Hltop.
  fold parent p in Hltop. simpl in Hltop.
  pose proof (wf_top s Hwf) as Htop. fold parent in Htop.
  assert (∀ u v, u ++ v ∈ ws → ¬ u `prefix_of` p → ¬ u `prefix_of` w) as Hfrozen.
  { intros u v Huv Hnp Hpw. apply Hnp. eapply HK; [exact Huv| |done].
    by apply prefix_app_r. }
  assert (∀ e u, e ∈ minimized_vertices_ s → ¬ u `prefix_of` w →
    lang_of (heap s) e u ws → lang_of h' e u (ws ++ [w])) as Hlreg.
  { intros e u He Hnp Hl v. rewrite Hwalk by done. rewrite (Hl v).
    rewrite elem_of_app, list_elem_of_singleton. split; [by left|].
    intros [H|H]; [done|]. exfalso. apply Hnp. rewrite <- H.
    by apply prefix_app_r. }
  (* the vertex that was on top of the path *)
  assert (∀ v, walk h' parent v = true
               ↔ walk (heap s) parent v = true ∨ p ++ v = w) as Hparent.
  { destruct suffix as [|c suffix'].
    - rewrite app_nil_r in Hw. intros [|x v].
      + rewrite !walk_nil, H2, Hvp, app_nil_r. simpl. split; [by right|done].
      + rewrite !walk_cons, H2, Hvp. simpl.
        assert (p ++ x :: v ≠ w) as Hne.
        { rewrite Hw. intros E. apply (f_equal length) in E.
          rewrite length_app in E. simpl in E. lia. }
        destruct (edges vp !! x) as [t|] eqn:Ht; [|tauto].
        rewrite Hwalk; [tauto|]. by eapply Htop.
    - assert (edges vp !! c = None) as Hfresh.
      { destruct (edges vp !! c) as [t|] eqn:Ht; [|done]. exfalso.
        assert (t ∈ minimized_vertices_ s) as Hin by by eapply Htop.
        destruct (registry_inhabited ws s t Hli Hin) as [v0 Hv0].
        assert (p ++ c :: v0 ∈ ws) as Hin0.
        { apply Hltop. by rewrite walk_cons, Hvp, Ht. }
        apply (app_not_prefix_self p c).
        eapply (HK _ _ Hin0).
        - exists v0. by rewrite <- app_assoc.
        - exists suffix'. by rewrite Hw, <- app_assoc. }
      intros [|x v].
      + rewrite !walk_nil, H2, Hvp, app_nil_r. simpl. split; [by left|].
        intros [H|H]; [done|]. exfalso. rewrite Hw in H.
        apply (f_equal length) in H. rewrite length_app in H. simpl in H. lia.
      + rewrite !walk_cons, H2, Hvp. simpl.
        destruct (decide (x = c)) as [->|Hxc].
        * rewrite lookup_insert_eq, Hfresh. destruct H3 as [H3 _].
          rewrite H3, Hw. split.
          -- intros ->. by right.
          -- intros [H|H]; [done|]. apply app_inv_head in H. congruence.
        * rewrite lookup_insert_ne by done.
          assert (p ++ x :: v ≠ w) as Hne.
          { rewrite Hw. intros E. apply app_inv_head in E. congruence. }
          destruct (edges vp !! x) as [t|] eqn:Ht; [|tauto].
          rewrite Hwalk; [tauto|]. by eapply Htop. }
  (* the vertices of the old path *)
  assert (path_forall (λ a u, lang_of h' a u (ws ++ [w]))
            (root_vertex_ s) (unminimized_path_ s)) as Hold.
  { eapply path_forall_impl;
      [|apply path_forall_and; [exact (li_path ws s Hli)|
        apply (path_transfer (heap s) h' (minimized_vertices_ s)
                 (root_vertex_ s) (unminimized_path_ s) (λ y, y = w))]].
    - intros a u [Hl Ht] v. specialize (Hl v). specialize (Ht v).
      simpl in Ht. rewrite elem_of_app, list_elem_of_singleton. tauto.
    - by apply wf_nodup_spine.
    - intros a Ha Hne. apply H1; [done|]. apply Hlt. unfold owned.
      apply elem_of_cons in Ha as [->|Ha]; [by left|]. right.
      apply elem_of_app. by left.
    - done.
    - apply (wf_linked s Hwf).
    - intros y ->. rewrite Hw. by apply prefix_app_r.
    - done. }
  split.
  - rewrite add_suffix_path, add_suffix_root. fold h'.
    apply chain_path_forall; [done| |done].
    intros j v Hj. fold p. rewrite elem_of_app, list_elem_of_singleton. split.
    + intros [Hin|Heq].
      * exfalso.
        assert ((p ++ take j suffix) `prefix_of` p) as Hpre.
        { eapply (HK _ _ Hin); [by apply prefix_app_r|].
          rewrite Hw. apply prefix_app, prefix_take. }
        destruct Hpre as [k Hk]. apply (f_equal length) in Hk.
        rewrite !length_app, length_take in Hk. lia.
      * rewrite Hw, <- app_assoc in Heq. apply app_inv_head in Heq.
        rewrite <- (take_drop j suffix) in Heq at 2.
        by apply app_inv_head in Heq.
    + intros ->. right. by rewrite <- app_assoc, take_drop.
  - intros _. exists []. rewrite add_suffix_path, path_word_app, path_word_fresh.
    fold p. rewrite <- Hw, app_nil_r. apply elem_of_app. right. by left.
  - rewrite add_suffix_registry, add_suffix_path, path_word_app, path_word_fresh.
    fold p h'. rewrite <- Hw.
    intros e He. destruct (li_registry ws s Hli e He) as (u & Hu & Hnp & [v Hv] & Hl).
    fold p in Hnp.
    exists u. split_and!; [done|by eapply Hfrozen| |].
    + exists v. apply elem_of_app. by left.
    + apply Hlreg; [done| |done]. by eapply Hfrozen.
  - rewrite add_suffix_registry, add_suffix_path, path_word_app, path_word_fresh.
    fold p h'. rewrite <- Hw.
    intros u v Hu Huv Hnp. apply elem_of_app in Huv as [Huv|Huv].
    + assert (¬ u `prefix_of` p) as Hnp'.
      { intros H. apply Hnp. etrans; [exact H|]. rewrite Hw.
        by apply prefix_app_r. }
      destruct (li_complete ws s Hli u v Hu Huv Hnp') as (e & He & Hl).
      exists e. split; [done|]. by apply Hlreg.
    + apply list_elem_of_singleton in Huv. exfalso. apply Hnp.
      rewrite <- Huv. by apply prefix_app_r.
  - rewrite add_suffix_registry. fold h'.
    intros e1 e2 He1 He2 Heq. apply (li_distinct ws s Hli); [done|done|].
    intros v. rewrite <- !Hwalk by done. apply Heq.
Qed.

End add_suffix_language.


(** * The automaton accepts the words inserted *)

Section construction_language.

Lemma walk_empty_dagger v : walk (heap empty_dagger) 0 v = false.
Proof.
  destruct v; [done|]. rewrite walk_cons. simpl.
  by rewrite lookup_singleton_eq.
Qed.

Lemma lang_inv_empty_dagger : lang_inv [] empty_dagger.
Proof.
  split; simpl.
  - split; [|done]. intros v. rewrite walk_empty_dagger.
    split; [done|]. by intros ?%elem_of_nil.
  - done.
  - by intros e ?%elem_of_nil.
  - by intros u v _ ?%elem_of_nil.
  - by intros e1 e2 ?%elem_of_nil.
Qed.

Lemma lang_inv_set_prev ws w s :
  lang_inv ws s →
  lang_inv ws (Dagger w (root_vertex_ s) (unminimized_path_ s)
                 (minimized_vertices_ s) (heap s) (next_addr s)).
Proof. intros [? ? ? ? ?]. by split. Qed.

Lemma lang_inv_insert_word ws w s :
  wf s → lang_inv ws s →
  path_word (unminimized_path_ s) = prev_word_ s →
  prev_word_ s = List.last ws [] →
  strictly_ascending (ws ++ [w]) = true →
  lang_inv (ws ++ [w]) (insert_word w s).
Proof.
  intros Hwf Hli Hpath Hprev Hasc. unfold insert_word.
  apply lang_inv_set_prev.
  set (n := mismatch (prev_word_ s) w).
  assert (path_word (unminimized_path_ (minimize_until n s)) = take n w) as Hp1.
  { rewrite minimize_until_path, path_word_drop, Hpath.
    assert (length (unminimized_path_ s) = length (prev_word_ s)) as ->
      by by rewrite <- Hpath, path_word_length.
    pose proof (mismatch_le_l (prev_word_ s) w). fold n in H.
    replace (length (prev_word_ s) - (length (prev_word_ s) - n)) with n by lia.
    apply mismatch_take. }
  apply lang_inv_add_suffix.
  - by apply wf_minimize_until.
  - by apply lang_inv_minimize_until.
  - by rewrite Hp1, take_drop.
  - intros x u Hx Hux Huw. rewrite Hp1. unfold n. rewrite Hprev.
    by eapply shared_prefix_bound.
Qed.

Lemma lang_inv_insert_all ws :
  strictly_ascending ws = true → lang_inv ws (insert_all ws empty_dagger).
Proof.
  induction ws as [|w ws IH] using rev_ind; intros Hasc.
  { apply lang_inv_empty_dagger. }
  rewrite insert_all_snoc. apply lang_inv_insert_word.
  - apply wf_insert_all, wf_empty_dagger.
  - apply IH. by eapply strictly_ascending_app_l.
  - apply insert_all_path_word.
  - apply insert_all_prev.
  - done.
Qed.

Lemma from_dictionary_path ws : unminimized_path_ (from_dictionary ws) = [].
Proof.
  unfold from_dictionary, finish_minimization.
  rewrite minimize_until_path. apply drop_ge. lia.
Qed.

Lemma lang_inv_from_dictionary ws :
  strictly_ascending ws = true → lang_inv ws (from_dictionary ws).
Proof.
  intros Hasc. unfold from_dictionary, finish_minimization.
  apply lang_inv_minimize_until.
  - apply wf_insert_all, wf_empty_dagger.
  - by apply lang_inv_insert_all.
Qed.

(** The language of the built automaton is the input. *)
Lemma from_dictionary_language ws w :
  strictly_ascending ws = true →
  (contains w (from_dictionary ws)).1 = true ↔ w ∈ ws.
Proof.
  intros Hasc. rewrite contains_answer.
  pose proof (li_path ws _ (lang_inv_from_dictionary ws Hasc)) as H.
  apply path_forall_root in H. apply (H w).
Qed.

End construction_language.


(** * Residuals of a finite language *)

Section residuals.

Lemma drop_prefix_Some u w v : drop_prefix u w = Some v ↔ w = u ++ v.
Proof.
  revert w. induction u as [|a u IH]; intros w; simpl.
  - split; [by intros [= ->]|by intros ->].
  - destruct w as [|b w]; [done|].
    destruct (decide (a = b)) as [->|Hne].
    + rewrite IH. split; [by intros ->|by intros [= ->]].
    + split; [done|]. by intros [= ? ?].
Qed.

Lemma elem_of_residual u ws v : v ∈ residual u ws ↔ u ++ v ∈ ws.
Proof.
  unfold residual. rewrite list_elem_of_omap. split.
  - intros (w & Hw & Hs). apply drop_prefix_Some in Hs. by subst.
  - intros H. exists (u ++ v). split; [done|]. by apply drop_prefix_Some.
Qed.

Lemma word_ltb_app u x y : word_ltb (u ++ x) (u ++ y) = word_ltb x y.
Proof.
  induction u as [|a u IH]; [done|]. simpl.
  rewrite decide_False by apply char_lt_irrefl.
  by rewrite decide_True.
Qed.

Lemma strictly_ascending_StronglySorted ws :
  strictly_ascending ws = true → StronglySorted word_lt ws.
Proof.
  induction ws as [|w ws IH]; intros Hasc; [constructor|].
  constructor.
  - apply IH. by apply strictly_ascending_cons in Hasc as [? _].
  - apply Forall_forall. intros x Hx. by eapply strictly_ascending_all.
Qed.

Lemma residual_StronglySorted u ws :
  StronglySorted word_lt ws → StronglySorted word_lt (residual u ws).
Proof.
  induction 1 as [|w ws Hs IH Hall]; [constructor|].
  unfold residual. simpl. fold (residual u ws).
  destruct (drop_prefix u w) as [v|] eqn:Hv; [|done].
  apply drop_prefix_Some in Hv as ->. constructor; [done|].
  apply Forall_forall. intros v' Hv'. apply elem_of_residual in Hv'.
  rewrite Forall_forall in Hall. specialize (Hall _ Hv').
  unfold word_lt in *. by rewrite word_ltb_app in Hall.
Qed.

Lemma StronglySorted_word_lt_NoDup (l : list word) :
  StronglySorted word_lt l → NoDup l.
Proof.
  induction 1 as [|w l Hs IH Hall]; [constructor|].
  apply NoDup_cons. split; [|done]. intros Hin.
  rewrite Forall_forall in Hall. specialize (Hall _ Hin).
  unfold word_lt in Hall. by rewrite word_ltb_irrefl in Hall.
Qed.

(** Sorted lists of words with the same elements are the same list. *)
Lemma StronglySorted_word_lt_ext (l1 l2 : list word) :
  StronglySorted word_lt l1 → StronglySorted word_lt l2 →
  (∀ v, v ∈ l1 ↔ v ∈ l2) → l1 = l2.
Proof.
  intros H1 H2 Heq. apply (StronglySorted_unique_strong word_lt); [|done|done|].
  - intros x y _ _ Hxy Hyx. unfold word_lt in *.
    pose proof (word_ltb_trans _ _ _ Hxy Hyx) as H.
    by rewrite word_ltb_irrefl in H.
  - apply NoDup_Permutation; [|
      |done]; by apply StronglySorted_word_lt_NoDup.
Qed.

Lemma elem_of_prefixes u w : u ∈ prefixes w ↔ u `prefix_of` w.
Proof.
  unfold prefixes. rewrite list_elem_of_fmap. split.
  - intros (n & -> & _). apply prefix_take.
  - intros Hp. exists (length u). split.
    + destruct Hp as [k ->]. by rewrite take_app_length.
    + apply elem_of_seq. apply prefix_length in Hp. lia.
Qed.

Lemma elem_of_all_prefixes u ws :
  u ∈ all_prefixes ws ↔ u = [] ∨ ∃ w, w ∈ ws ∧ u `prefix_of` w.
Proof.
  unfold all_prefixes. rewrite elem_of_cons, list_elem_of_bind.
  split; intros [->|(w & H1 & H2)]; try by left.
  - right. exists w. by rewrite <- elem_of_prefixes.
  - right. exists w. by rewrite elem_of_prefixes.
Qed.

Lemma elem_of_minimal_dfa_states ws r :
  r ∈ minimal_dfa_states ws ↔ ∃ u, u ∈ all_prefixes ws ∧ r = residual u ws.
Proof.
  unfold minimal_dfa_states. rewrite elem_of_remove_dups, list_elem_of_fmap.
  split; intros (u & H1 & H2); by exists u.
Qed.

Lemma longest_attained (ws : list word) : ws ≠ [] → ∃ x, x ∈ ws ∧ length x = longest ws.
Proof.
  induction ws as [|w ws IH]; [done|]. intros _. simpl.
  destruct ws as [|w' ws].
  - exists w. split; [by left|]. simpl. lia.
  - destruct IH as (x & Hx & Hlen); [done|].
    destruct (decide (longest (w' :: ws) ≤ length w)).
    + exists w. split; [by left|]. lia.
    + exists x. split; [by right|]. lia.
Qed.

(** A non-empty finite language is not its own residual by a non-empty
    word. *)
Lemma residual_proper (ws : list word) (u : word) :
  ws ≠ [] → u ≠ [] → ¬ (∀ v, v ∈ ws ↔ u ++ v ∈ ws).
Proof.
  intros Hws Hu Heq. destruct (longest_attained ws Hws) as (x & Hx & Hlen).
  apply Heq in Hx. apply longest_ge in Hx. rewrite length_app in Hx.
  destruct u; [done|]. simpl in Hx. lia.
Qed.

(** Two duplicate-free lists related one to one have the same length. *)
Lemma length_one_to_one {A B} (Rel : A → B → Prop) (l1 : list A) (l2 : list B) :
  NoDup l1 → NoDup l2 →
  (∀ a, a ∈ l1 → ∃ b, b ∈ l2 ∧ Rel a b) →
  (∀ b, b ∈ l2 → ∃ a, a ∈ l1 ∧ Rel a b) →
  (∀ a a' b, a ∈ l1 → a' ∈ l1 → b ∈ l2 → Rel a b → Rel a' b → a = a') →
  (∀ a b b', a ∈ l1 → b ∈ l2 → b' ∈ l2 → Rel a b → Rel a b' → b = b') →
  length l1 = length l2.
Proof.
  revert l2. induction l1 as [|a l1 IH]; intros l2 Hnd1 Hnd2 Ht1 Ht2 Hinj Hfun.
  - destruct l2 as [|b l2]; [done|].
    destruct (Ht2 b) as (a & Ha & _); [by left|]. by apply elem_of_nil in Ha.
  - destruct (Ht1 a) as (b & Hb & Hab); [by left|].
    destruct (list_elem_of_split _ _ Hb) as (l2a & l2b & ->).
    apply NoDup_cons in Hnd1 as [Ha Hnd1].
    assert ((b ∉ l2a ++ l2b) ∧ NoDup (l2a ++ l2b)) as [Hb' Hnd2'].
    { apply NoDup_app in Hnd2 as (N1 & N2 & N3).
      apply NoDup_cons in N3 as [N3 N4]. split.
      - rewrite not_elem_of_app. split; [|done].
        intros Hin. apply (N2 b Hin). by left.
      - apply NoDup_app. split_and!; [done| |done].
        intros x Hx Hx'. apply (N2 x Hx). by right. }
    assert (∀ x, x ∈ l2a ++ b :: l2b ↔ x = b ∨ x ∈ l2a ++ l2b) as Hmem.
    { intros x. rewrite !elem_of_app, elem_of_cons. tauto. }
    rewrite length_app. simpl. rewrite Nat.add_succ_r, <- length_app.
    f_equal. apply IH; [done|done| | | |].
    + intros a' Ha'. destruct (Ht1 a') as (b' & Hb'' & Hab'); [by right|].
      exists b'. split; [|done]. apply Hmem in Hb'' as [->|?]; [|done].
      exfalso. apply Ha. replace a with a'; [done|].
      eapply (Hinj a' a b); [by right|by left|done|done|done].
    + intros b' Hb''. destruct (Ht2 b') as (a' & Ha' & Hab').
      { apply Hmem. by right. }
      exists a'. split; [|done]. apply elem_of_cons in Ha' as [->|?]; [|done].
      exfalso. apply Hb'. replace b with b'; [done|].
      eapply (Hfun a b' b); [by left|apply Hmem; by right|done|done|done].
    + intros x x' y Hx Hx' Hy. apply Hinj; [by right|by right|].
      apply Hmem. by right.
    + intros x y y' Hx Hy Hy'. apply Hfun; [by right| |];
        apply Hmem; by right.
Qed.

End residuals.


(** * Minimality *)

Section minimality.

Lemma bool_eq_of_iff (b1 b2 : bool) : (b1 = true ↔ b2 = true) → b1 = b2.
Proof. destruct b1, b2; intuition congruence. Qed.

(** The vertices of the built automaton are in one-to-one correspondence
    with the residuals of the input language. *)
Lemma from_dictionary_vertex_count ws :
  strictly_ascending ws = true →
  vertex_count (from_dictionary ws) = length (minimal_dfa_states ws).
Proof.
  intros Hasc.
  pose proof (wf_from_dictionary ws) as Hwf.
  pose proof (lang_inv_from_dictionary ws Hasc) as Hli.
  pose proof (from_dictionary_path ws) as Hpath.
  set (s := from_dictionary ws) in *.
  pose proof (strictly_ascending_StronglySorted ws Hasc) as Hsorted.
  assert (lang_of (heap s) (root_vertex_ s) [] ws) as Hroot.
  { pose proof (li_path ws s Hli) as H. by apply path_forall_root in H. }
  unfold vertex_count.
  change (S (length (minimized_vertices_ s)))
    with (length (root_vertex_ s :: minimized_vertices_ s)).
  apply (length_one_to_one
           (λ a r, ∀ v, walk (heap s) a v = true ↔ v ∈ r)).
  - pose proof (wf_nodup s Hwf) as Hnd. unfold owned in Hnd.
    by rewrite Hpath in Hnd.
  - apply NoDup_remove_dups.
  - intros a [->|Ha]%elem_of_cons.
    + exists (residual [] ws). split.
      * apply elem_of_minimal_dfa_states. exists []. split; [|done].
        apply elem_of_all_prefixes. by left.
      * intros v. rewrite elem_of_residual. apply Hroot.
    + destruct (li_registry ws s Hli a Ha) as (u & Hu & _ & [v0 Hv0] & Hl).
      exists (residual u ws). split.
      * apply elem_of_minimal_dfa_states. exists u. split; [|done].
        apply elem_of_all_prefixes. right. exists (u ++ v0).
        split; [done|]. by apply prefix_app_r.
      * intros v. rewrite elem_of_residual. apply Hl.
  - intros r (u & Hu & ->)%elem_of_minimal_dfa_states.
    destruct (decide (u = [])) as [->|Hne].
    + exists (root_vertex_ s). split; [by left|].
      intros v. rewrite elem_of_residual. apply Hroot.
    + apply elem_of_all_prefixes in Hu as [->|(w & Hw & [k ->])]; [done|].
      destruct (li_complete ws s Hli u k Hne Hw) as (e & He & Hl).
      { rewrite Hpath. intros Hp. apply Hne. by apply prefix_nil_inv. }
      exists e. split; [by right|].
      intros v. rewrite elem_of_residual. apply Hl.
  - assert (∀ e (r : list word), e ∈ minimized_vertices_ s →
      (∀ v, walk (heap s) (root_vertex_ s) v = true ↔ v ∈ r) →
      (∀ v, walk (heap s) e v = true ↔ v ∈ r) → False) as Hproper.
    { intros e r He Hr1 Hr2.
      destruct (li_registry ws s Hli e He) as (u & Hu & _ & [v0 Hv0] & Hl).
      apply (residual_proper ws u); [|done|].
      - intros ->. by apply elem_of_nil in Hv0.
      - intros v. rewrite <- (Hroot v). simpl. rewrite <- (Hl v).
        rewrite Hr1, Hr2. done. }
    intros a a' r [->|Ha]%elem_of_cons [->|Ha']%elem_of_cons _ H1 H2.
    + done.
    + exfalso. by eapply Hproper.
    + exfalso. by eapply Hproper.
    + apply (li_distinct ws s Hli); [done|done|].
      intros v. apply bool_eq_of_iff. by rewrite H1, H2.
  - intros a r r' _ (u & _ & ->)%elem_of_minimal_dfa_states
      (u' & _ & ->)%elem_of_minimal_dfa_states H1 H2.
    apply StronglySorted_word_lt_ext.
    + by apply residual_StronglySorted.
    + by apply residual_StronglySorted.
    + intros v. by rewrite <- H1, <- H2.
Qed.

Lemma walk_app h a u v :
  walk h a (u ++ v)
  = match reach h a u with Some t => walk h t v | None => false end.
Proof.
  revert a. induction u as [|c u IH]; intros a; simpl; [by destruct v|].
  destruct (h !! a) as [va|]; [|done].
  destruct (edges va !! c) as [t|]; [|done]. apply IH.
Qed.

Lemma walk_true_live h a v : walk h a v = true → is_Some (h !! a).
Proof.
  destruct v; [rewrite walk_nil|rewrite walk_cons];
    destruct (h !! a); by eauto.
Qed.

(** As many targets as sources when every source has a target of its own. *)
Lemma length_le_of_injection {A B} (Rel : A → B → Prop)
    (l1 : list A) (l2 : list B) :
  NoDup l2 →
  (∀ b, b ∈ l2 → ∃ a, a ∈ l1 ∧ Rel a b) →
  (∀ a b b', b ∈ l2 → b' ∈ l2 → Rel a b → Rel a b' → b = b') →
  length l2 ≤ length l1.
Proof.
  revert l1. induction l2 as [|b l2 IH]; intros l1 Hnd Htot Hfun; simpl; [lia|].
  destruct (Htot b) as (a & Ha & Hab); [by left|].
  destruct (list_elem_of_split _ _ Ha) as (l1a & l1b & ->).
  apply NoDup_cons in Hnd as [Hb Hnd].
  rewrite length_app. simpl. rewrite Nat.add_succ_r, <- length_app.
  apply le_n_S, IH; [done| |].
  - intros b' Hb'. destruct (Htot b') as (a' & Ha' & Hab'); [by right|].
    exists a'. split; [|done].
    rewrite elem_of_app, elem_of_cons in Ha'. rewrite elem_of_app.
    destruct Ha' as [?|[->|?]]; [by left| |by right].
    exfalso. apply Hb. replace b with b'; [done|].
    eapply (Hfun a b' b); [by right|by left|done|done].
  - intros a' x x' Hx Hx'. apply Hfun; by right.
Qed.

(** No graph of vertices that accepts the language has fewer vertices than
    the language has residuals: this is what makes the count of
    [minimal_dfa_states] the size of the minimal automaton. *)
Lemma minimal_dfa_states_least ws (h : gmap nat vertex) root :
  strictly_ascending ws = true →
  is_Some (h !! root) →
  (∀ v, walk h root v = true ↔ v ∈ ws) →
  length (minimal_dfa_states ws) ≤ size h.
Proof.
  intros Hasc Hroot Hlang.
  pose proof (strictly_ascending_StronglySorted ws Hasc) as Hsorted.
  rewrite <- length_map_to_list, <- (length_fmap fst).
  apply (length_le_of_injection (λ a r, ∀ v, walk h a v = true ↔ v ∈ r)).
  - apply NoDup_remove_dups.
  - intros r (u & Hu & ->)%elem_of_minimal_dfa_states.
    assert (∀ a, is_Some (h !! a) → a ∈ (map_to_list h).*1) as Hdom.
    { intros a [va Hva]. apply list_elem_of_fmap. exists (a, va).
      split; [done|]. by apply elem_of_map_to_list. }
    destruct (decide (u = [])) as [->|Hne].
    { exists root. split; [by apply Hdom|].
      intros v. rewrite elem_of_residual. apply Hlang. }
    apply elem_of_all_prefixes in Hu as [->|(w & Hw & [k ->])]; [done|].
    apply Hlang in Hw. rewrite walk_app in Hw.
    destruct (reach h root u) as [t|] eqn:Ht; [|done].
    exists t. split; [apply Hdom; by eapply walk_true_live|].
    intros v. rewrite elem_of_residual, <- Hlang, walk_app, Ht. done.
  - intros a r r' (u & _ & ->)%elem_of_minimal_dfa_states
      (u' & _ & ->)%elem_of_minimal_dfa_states H1 H2.
    apply StronglySorted_word_lt_ext.
    + by apply residual_StronglySorted.
    + by apply residual_StronglySorted.
    + intros v. by rewrite <- H1, <- H2.
Qed.

(** The lists [minimal_dfa_states] counts are distinct exactly when the
    residual languages are. *)
Lemma residual_eq_iff ws u u' :
  strictly_ascending ws = true →
  residual u ws = residual u' ws ↔ ∀ v, u ++ v ∈ ws ↔ u' ++ v ∈ ws.
Proof.
  intros Hasc. pose proof (strictly_ascending_StronglySorted ws Hasc) as Hs.
  split.
  - intros E v. by rewrite <- !elem_of_residual, E.
  - intros H. apply StronglySorted_word_lt_ext.
    + by apply residual_StronglySorted.
    + by apply residual_StronglySorted.
    + intros v. by rewrite !elem_of_residual.
Qed.

(** The vertices counted are the vertices there are: after the final flush
    the heap holds the root and the registry, nothing else. *)
Lemma from_dictionary_heap_size ws :
  size (heap (from_dictionary ws)) = vertex_count (from_dictionary ws).
Proof.
  rewrite (wf_heap_size _ (wf_from_dictionary ws)).
  unfold owned, vertex_count. by rewrite from_dictionary_path.
Qed.

(** No graph of vertices that accepts the input has fewer vertices than the
    automaton built. *)
Lemma from_dictionary_least ws (h : gmap nat vertex) root :
  strictly_ascending ws = true →
  is_Some (h !! root) →
  (∀ v, walk h root v = true ↔ v ∈ ws) →
  size (heap (from_dictionary ws)) ≤ size h.
Proof.
  intros Hasc Hroot Hlang.
  rewrite from_dictionary_heap_size, from_dictionary_vertex_count by done.
  by eapply minimal_dfa_states_least.
Qed.

End minimality.


(** * The loop against the specification of the minimisation engine *)

Section engine.

Lemma spec_found_value h registry v canonical :
  spec_found h registry v canonical
  ↔ canonical ∈ registry ∧ is_Some (h !! v) ∧ h !! canonical = h !! v.
Proof.
  unfold spec_found. split.
  - intros (Hin & vc & vv & Hc & Hv & Hflag & Hedges).
    split_and!; [done|by eexists|]. rewrite Hc, Hv. f_equal.
    destruct vc, vv. simpl in *. f_equal; [by apply map_eq|done].
  - intros (Hin & [vv Hv] & Heq). split; [done|].
    exists vv, vv. by rewrite Heq, Hv.
Qed.

(** On a well-formed automaton the lookup through [operator<] finds the
    equivalent vertex of the registry, if there is one. *)
Lemma wf_spec_found s top rest it :
  wf s → unminimized_path_ s = top :: rest →
  spec_found (heap s) (minimized_vertices_ s) (vertex_ top) it
  ↔ registry_find (heap s) (minimized_vertices_ s) (vertex_ top) = Some it.
Proof.
  intros Hwf Hp. rewrite spec_found_value. split.
  - intros (Hin & _ & Heq). by apply (wf_find_unique s top rest).
  - intros Hf. destruct (wf_find_Some s top rest it Hwf Hp Hf) as [Hin Heq].
    split_and!; [done| |done]. apply (wf_live s Hwf). eauto with owned.
Qed.

Lemma new_parent_eq root rest :
  from_option vertex_ root (head rest) = parent_of root rest.
Proof. by destruct rest. Qed.

(** An iteration of the loop resolves the popped entry as the specification
    says. *)
Lemma minimize_body_resolved s top rest :
  wf s → unminimized_path_ s = top :: rest →
  spec_resolved (vertex_ top) (edge_from_parent_ top)
    (from_option vertex_ (root_vertex_ s) (head rest))
    (minimized_vertices_ s) (heap s)
    (minimized_vertices_ (minimize_body s)) (heap (minimize_body s)).
Proof.
  intros Hwf Hp. rewrite new_parent_eq.
  destruct (registry_find (heap s) (minimized_vertices_ s) (vertex_ top))
    as [it|] eqn:Hf.
  - rewrite (minimize_body_found s top rest it Hp Hf). simpl.
    apply (resolved_found _ _ _ _ _ it); [by apply (wf_spec_found s top rest)|].
    destruct (wf_top_fresh s top rest Hwf Hp) as (_ & Htp & _).
    assert (parent_of (root_vertex_ s) rest ≠ vertex_ top) as Hne.
    { intros E. apply Htp. rewrite <- E. apply parent_of_in. }
    pose proof (wf_linked s Hwf) as Hlk. rewrite Hp in Hlk.
    destruct Hlk as ((vp & Hvp & _) & _ & _).
    split.
    + exists vp, (assign_edge (edge_from_parent_ top) it vp).
      split_and!; [done| | | |done].
      * by rewrite lookup_delete_ne, lookup_alter_eq, Hvp.
      * simpl. apply lookup_insert_eq.
      * intros c Hc. simpl. by rewrite lookup_insert_ne.
    + apply lookup_delete_eq.
    + intros a Ha1 Ha2. by rewrite lookup_delete_ne, lookup_alter_ne.
  - rewrite (minimize_body_not_found s top rest Hp Hf). simpl.
    apply resolved_new. intros e He.
    apply (wf_spec_found s top rest e Hwf Hp) in He. congruence.
Qed.

(** What the specification says of an iteration leaves no choice: it
    determines the registry and every vertex after it. *)
Lemma resolved_unique s top rest registry1 h1 :
  wf s → unminimized_path_ s = top :: rest →
  spec_resolved (vertex_ top) (edge_from_parent_ top)
    (from_option vertex_ (root_vertex_ s) (head rest))
    (minimized_vertices_ s) (heap s) registry1 h1 →
  registry1 = minimized_vertices_ (minimize_body s)
  ∧ h1 = heap (minimize_body s).
Proof.
  intros Hwf Hp. rewrite new_parent_eq.
  intros [canonical h' Hfound [Hparent Hgone Hframe]|Hnone].
  - apply (wf_spec_found s top rest canonical Hwf Hp) in Hfound.
    rewrite (minimize_body_found s top rest canonical Hp Hfound). simpl.
    split; [done|]. apply map_eq. intros a.
    destruct (decide (a = vertex_ top)) as [->|Hat].
    { by rewrite Hgone, lookup_delete_eq. }
    rewrite lookup_delete_ne by done.
    destruct (decide (a = parent_of (root_vertex_ s) rest)) as [->|Hap].
    + destruct Hparent as (vp & vp' & Hvp & Hvp' & Hc & Hother & Hflag).
      rewrite Hvp', lookup_alter_eq, Hvp. simpl. f_equal.
      destruct vp' as [e' f']. unfold assign_edge. simpl in *.
      f_equal; [|done]. apply map_eq. intros c.
      destruct (decide (c = edge_from_parent_ top)) as [->|Hne].
      * by rewrite lookup_insert_eq.
      * rewrite lookup_insert_ne by done. by apply Hother.
    + rewrite lookup_alter_ne by done. by apply Hframe.
  - destruct (registry_find (heap s) (minimized_vertices_ s) (vertex_ top))
      as [it|] eqn:Hf.
    { destruct (Hnone it). by apply (wf_spec_found s top rest). }
    by rewrite (minimize_body_not_found s top rest Hp Hf).
Qed.

Lemma minimize_until_minimized s d :
  wf s →
  spec_minimized d (root_vertex_ s) (unminimized_path_ s)
    (minimized_vertices_ s) (heap s)
    (unminimized_path_ (minimize_until d s))
    (minimized_vertices_ (minimize_until d s)) (heap (minimize_until d s)).
Proof.
  remember (unminimized_path_ s) as path eqn:Hp.
  revert s Hp. induction path as [|top rest IH]; intros s Hp Hwf.
  - rewrite minimize_until_done by (rewrite <- Hp; simpl; lia).
    rewrite <- Hp. apply minimized_done. simpl. lia.
  - destruct (decide (d < S (length rest))) as [Hlt|Hge].
    + rewrite minimize_until_step by (rewrite <- Hp; simpl; lia).
      eapply minimized_pop; [done|by apply minimize_body_resolved|].
      rewrite <- (minimize_body_root s). apply IH.
      * by rewrite minimize_body_path, <- Hp.
      * by apply wf_minimize_body.
    + rewrite minimize_until_done by (rewrite <- Hp; simpl; lia).
      rewrite <- Hp. apply minimized_done. simpl. lia.
Qed.

Lemma minimized_unique s d path' registry' h' :
  wf s →
  spec_minimized d (root_vertex_ s) (unminimized_path_ s)
    (minimized_vertices_ s) (heap s) path' registry' h' →
  path' = unminimized_path_ (minimize_until d s)
  ∧ registry' = minimized_vertices_ (minimize_until d s)
  ∧ h' = heap (minimize_until d s).
Proof.
  intros Hwf H.
  remember (root_vertex_ s) as root eqn:Hr.
  remember (unminimized_path_ s) as path eqn:Hp.
  remember (minimized_vertices_ s) as reg eqn:Hreg.
  remember (heap s) as h eqn:Hh.
  revert s Hwf Hr Hp Hreg Hh.
  induction H as [path reg h Hlen
                 |top rest reg h reg1 h1 path' reg' h' Hlt Hres Hmin IH];
    intros s Hwf Hr Hp Hreg Hh; subst.
  - rewrite minimize_until_done by done. done.
  - rewrite minimize_until_step by by rewrite <- Hp.
    destruct (resolved_unique s top rest reg1 h1 Hwf (eq_sym Hp) Hres)
      as [-> ->].
    apply IH.
    + by apply wf_minimize_body.
    + by rewrite minimize_body_root.
    + by rewrite minimize_body_path, <- Hp.
    + done.
    + done.
Qed.

Lemma minimize_until_length d s :
  length (unminimized_path_ (minimize_until d s))
  = length (unminimized_path_ s) `min` d.
Proof. rewrite minimize_until_path, length_drop. lia. Qed.

End engine.

(** * Inserting a word twice *)

Section duplicates.

Lemma insert_word_top_accepting w s :
  wf s →
  ∃ v, heap (insert_word w s)
         !! parent_of (root_vertex_ (insert_word w s))
              (unminimized_path_ (insert_word w s)) = Some v
       ∧ is_word_end v = true.
Proof.
  intros Hwf. unfold insert_word. simpl.
  set (s1 := minimize_until (mismatch (prev_word_ s) w) s).
  assert (wf s1) as Hwf1 by by apply wf_minimize_until.
  rewrite add_suffix_eq. simpl.
  set (s' := (add_suffix_loop (drop (mismatch (prev_word_ s) w) w)
                (parent_of (root_vertex_ s1) (unminimized_path_ s1)) s1).2).
  assert (wf s') as Hwf' by by apply wf_add_suffix_loop.
  destruct (wf_parent_live s' Hwf') as [v Hv].
  exists (mark_word_end v). by rewrite lookup_alter_eq, Hv.
Qed.

Lemma add_suffix_nil s :
  add_suffix [] s
  = Dagger (prev_word_ s) (root_vertex_ s) (unminimized_path_ s)
      (minimized_vertices_ s)
      (alter mark_word_end
         (parent_of (root_vertex_ s) (unminimized_path_ s)) (heap s))
      (next_addr s).
Proof. done. Qed.

Lemma insert_word_twice w s :
  wf s → path_word (unminimized_path_ s) = prev_word_ s →
  insert_word w (insert_word w s) = insert_word w s.
Proof.
  intros Hwf Hpath.
  assert (path_word (unminimized_path_ (insert_word w s)) = w) as Hw
    by by apply insert_word_path_word.
  destruct (insert_word_top_accepting w s Hwf) as (v & Hv & Hacc).
  pose proof (insert_word_prev w s) as Hprev.
  remember (insert_word w s) as s1 eqn:Hs1. clear Hs1.
  unfold insert_word.
  rewrite Hprev, mismatch_refl.
  rewrite minimize_until_done by by rewrite <- path_word_length, Hw.
  rewrite drop_all, add_suffix_nil. simpl.
  rewrite alter_id.
  - destruct s1; simpl in *. by subst.
  - intros x Hx. rewrite Hv in Hx. injection Hx as <-.
    destruct v; simpl in *; by subst.
Qed.

Lemma path_word_nil path : path_word path = [] ↔ path = [].
Proof.
  split; [|by intros ->]. intros H. apply (f_equal length) in H.
  rewrite path_word_length in H. by destruct path.
Qed.

End duplicates.


(** * The flag of the root *)

(** For any input, in order or not, the root is accepting only if the empty
    word was inserted: [mark_word_end] reaches the root only from an
    [add_suffix] that leaves the path empty. *)
Section root_flag.

Lemma root_flag_minimize_body s :
  wf s → root_flag (minimize_body s) = root_flag s.
Proof.
  intros Hwf. unfold root_flag. rewrite minimize_body_root.
  destruct (unminimized_path_ s) as [|top rest] eqn:Hp.
  { unfold minimize_body. by rewrite Hp. }
  destruct (wf_top_fresh s top rest Hwf Hp) as (_ & Htp & _).
  destruct (registry_find (heap s) (minimized_vertices_ s) (vertex_ top))
    as [it|] eqn:Hf.
  - rewrite (minimize_body_found s top rest it Hp Hf). simpl.
    rewrite lookup_delete_ne.
    + destruct (decide (parent_of (root_vertex_ s) rest = root_vertex_ s))
        as [E|E].
      * rewrite E, lookup_alter_eq. by destruct (heap s !! root_vertex_ s).
      * by rewrite lookup_alter_ne.
    + intros E. apply Htp. rewrite E. by left.
  - by rewrite (minimize_body_not_found s top rest Hp Hf).
Qed.

Lemma root_flag_minimize_until d s :
  wf s → root_flag (minimize_until d s) = root_flag s.
Proof.
  intros Hwf. unfold root_flag.
  rewrite minimize_until_root.
  enough (wf (minimize_until d s)
          ∧ is_word_end <$> heap (minimize_until d s) !! root_vertex_ s
            = is_word_end <$> heap s !! root_vertex_ s
          ∧ root_vertex_ (minimize_until d s) = root_vertex_ s) by tauto.
  apply (minimize_until_ind
           (λ s', wf s'
                  ∧ is_word_end <$> heap s' !! root_vertex_ s
                    = is_word_end <$> heap s !! root_vertex_ s
                  ∧ root_vertex_ s' = root_vertex_ s)); [|done].
  intros s' (Hwf' & Hflag & Hroot) _. split_and!.
  - by apply wf_minimize_body.
  - pose proof (root_flag_minimize_body s' Hwf') as H. unfold root_flag in H.
    rewrite minimize_body_root in H. by rewrite <- Hflag, <- Hroot.
  - by rewrite minimize_body_root.
Qed.

Lemma root_flag_add_suffix_body c s :
  wf s →
  root_flag (add_suffix_body c
               (parent_of (root_vertex_ s) (unminimized_path_ s)) s)
  = root_flag s.
Proof.
  intros Hwf. unfold root_flag. simpl.
  destruct (wf_live s Hwf (root_vertex_ s)) as [vr Hvr]; [by left|].
  pose proof (wf_fresh s Hwf) as Hfresh.
  assert (next_addr s ≠ root_vertex_ s) as Hne by (intros E; congruence).
  destruct (decide (parent_of (root_vertex_ s) (unminimized_path_ s)
                    = root_vertex_ s)) as [E|E].
  - rewrite E, lookup_alter_eq, lookup_insert_ne by done.
    by destruct (heap s !! root_vertex_ s).
  - rewrite lookup_alter_ne by done. by rewrite lookup_insert_ne.
Qed.

Lemma root_flag_add_suffix_loop suffix s :
  wf s →
  root_flag (add_suffix_loop suffix
               (parent_of (root_vertex_ s) (unminimized_path_ s)) s).2
  = root_flag s.
Proof.
  revert s. induction suffix as [|c suffix IH]; intros s Hwf; simpl; [done|].
  pose proof (wf_add_suffix_body c s Hwf) as Hwf'.
  pose proof (IH _ Hwf') as H. simpl in H. rewrite H.
  by apply root_flag_add_suffix_body.
Qed.

(** An accepting root after [add_suffix] was accepting before, unless the
    path is empty afterwards. *)
Lemma root_flag_add_suffix suffix s :
  wf s →
  root_flag (add_suffix suffix s) = Some true →
  root_flag s = Some true ∨ unminimized_path_ (add_suffix suffix s) = [].
Proof.
  intros Hwf. unfold root_flag at 1. rewrite add_suffix_eq. simpl.
  set (s' := (add_suffix_loop suffix
                (parent_of (root_vertex_ s) (unminimized_path_ s)) s).2).
  pose proof (root_flag_add_suffix_loop suffix s Hwf) as Hloop. fold s' in Hloop.
  unfold root_flag at 1 in Hloop.
  assert (wf s') as Hwf' by by apply wf_add_suffix_loop.
  destruct (unminimized_path_ s') as [|top rest] eqn:Hp; [by right|].
  intros H. left. rewrite <- Hloop. rewrite <- H.
  rewrite lookup_alter_ne; [done|]. simpl.
  destruct (wf_top_fresh s' top rest Hwf' Hp) as (_ & Htp & _).
  intros E. apply Htp. rewrite E. by left.
Qed.

Lemma root_flag_insert_word w s :
  wf s → path_word (unminimized_path_ s) = prev_word_ s →
  root_flag (insert_word w s) = Some true →
  root_flag s = Some true ∨ w = [].
Proof.
  intros Hwf Hpath H.
  pose proof (insert_word_path_word w s Hpath) as Hw.
  unfold insert_word in H, Hw. simpl in H, Hw.
  apply root_flag_add_suffix in H; [|by apply wf_minimize_until].
  destruct H as [H|H].
  - left. rewrite <- (root_flag_minimize_until (mismatch (prev_word_ s) w) s Hwf).
    done.
  - right. rewrite H in Hw. by rewrite <- Hw.
Qed.

Lemma root_flag_insert_all ws :
  root_flag (insert_all ws empty_dagger) = Some true → [] ∈ ws.
Proof.
  induction ws as [|w ws IH] using rev_ind; [done|].
  rewrite insert_all_snoc. intros H.
  apply root_flag_insert_word in H as [H| ->].
  - apply elem_of_app. left. by apply IH.
  - apply elem_of_app. right. by left.
  - apply wf_insert_all, wf_empty_dagger.
  - apply insert_all_path_word.
Qed.

(** Whatever the input, [contains] accepts the empty string only if it was
    one of the words. *)
Lemma contains_empty_word ws :
  (contains [] (from_dictionary ws)).1 = true → [] ∈ ws.
Proof.
  rewrite contains_answer.
  rewrite walk_nil. intros H. apply root_flag_insert_all.
  rewrite <- (root_flag_minimize_until 0)
    by apply wf_insert_all, wf_empty_dagger.
  fold (finish_minimization (insert_all ws empty_dagger)).
  fold (from_dictionary ws). unfold root_flag.
  destruct (heap (from_dictionary ws) !! root_vertex_ (from_dictionary ws))
    as [v|]; [|done].
  simpl. by rewrite H.
Qed.

End root_flag.


(** * The order of vertices is a strict order *)

Section strict_order.
Context (code : ascii → Z) (code_inj : ∀ a b, code a = code b → a = b).

Lemma pair_ltb_spec x y :
  pair_ltb code x y = true
  ↔ (code x.1 < code y.1)%Z ∨ (code x.1 = code y.1 ∧ x.2 < y.2).
Proof.
  unfold pair_ltb.
  rewrite orb_true_iff, andb_true_iff, negb_true_iff, !bool_decide_eq_true,
    bool_decide_eq_false.
  lia.
Qed.

Lemma pair_ltb_trans x y z :
  pair_ltb code x y = true → pair_ltb code y z = true →
  pair_ltb code x z = true.
Proof. rewrite !pair_ltb_spec. lia. Qed.

Lemma lexicographical_compare_cons x l1 y l2 :
  lexicographical_compare code (x :: l1) (y :: l2) = true
  ↔ pair_ltb code x y = true
    ∨ (x = y ∧ lexicographical_compare code l1 l2 = true).
Proof.
  simpl. destruct (pair_ltb code x y) eqn:Hxy; [by split; [left|]|].
  destruct (pair_ltb code y x) eqn:Hyx.
  - split; [done|]. intros [?|[-> _]]; [done|].
    by rewrite pair_ltb_irrefl in Hyx.
  - assert (x = y) as -> by by apply (pair_ltb_total code code_inj).
    split; [by right|]. by intros [?|[_ ?]].
Qed.

Lemma lexicographical_compare_trans l1 l2 l3 :
  lexicographical_compare code l1 l2 = true →
  lexicographical_compare code l2 l3 = true →
  lexicographical_compare code l1 l3 = true.
Proof.
  revert l2 l3. induction l1 as [|x l1 IH]; intros [|y l2] [|z l3]; try done.
  rewrite !lexicographical_compare_cons.
  intros [H1|[-> H1]] [H2|[-> H2]].
  - left. by eapply pair_ltb_trans.
  - by left.
  - by left.
  - right. split; [done|]. by eapply IH.
Qed.

Lemma vertex_lt_irrefl a va : vertex_lt code a va a va = false.
Proof. unfold vertex_lt. by rewrite decide_True. Qed.

Lemma vertex_lt_trans a va b vb c vc :
  a ≠ c →
  vertex_lt code a va b vb = true → vertex_lt code b vb c vc = true →
  vertex_lt code a va c vc = true.
Proof.
  intros Hac. unfold vertex_lt. rewrite (decide_False (P := a = c)) by done.
  destruct (decide (a = b)); [done|]. destruct (decide (b = c)); [done|].
  destruct va as [ea fa], vb as [eb fb], vc as [ec fc]. simpl.
  destruct fa, fb, fc; simpl; try done.
  - apply lexicographical_compare_trans.
  - apply lexicographical_compare_trans.
Qed.

Lemma vertex_lt_asym a va b vb :
  vertex_lt code a va b vb = true → vertex_lt code b vb a va = false.
Proof.
  intros H. apply not_true_is_false. intros H'. revert H H'.
  unfold vertex_lt.
  destruct (decide (a = b)) as [->|Hab]; [done|].
  rewrite (decide_False (P := b = a)) by congruence.
  destruct va as [ea fa], vb as [eb fb]. simpl.
  destruct fa, fb; simpl; try done.
  - intros H1 H2.
    pose proof (lexicographical_compare_trans _ _ _ H1 H2) as H.
    by rewrite lexicographical_compare_irrefl in H.
  - intros H1 H2.
    pose proof (lexicographical_compare_trans _ _ _ H1 H2) as H.
    by rewrite lexicographical_compare_irrefl in H.
Qed.

End strict_order.

Section deref_order.

Lemma dereferencing_less_irrefl h a : dereferencing_less h a a = false.
Proof.
  unfold dereferencing_less. destruct (h !! a); [|done].
  apply vertex_lt_irrefl.
Qed.

Lemma dereferencing_less_asym h a b :
  dereferencing_less h a b = true → dereferencing_less h b a = false.
Proof.
  unfold dereferencing_less.
  destruct (h !! a) as [va|], (h !! b) as [vb|]; try done.
  apply vertex_lt_asym, char_code_inj.
Qed.

Lemma dereferencing_less_trans h a b c :
  dereferencing_less h a b = true → dereferencing_less h b c = true →
  dereferencing_less h a c = true.
Proof.
  intros H1 H2. destruct (decide (a = c)) as [->|Hac].
  { apply dereferencing_less_asym in H1. congruence. }
  revert H1 H2. unfold dereferencing_less.
  destruct (h !! a) as [va|], (h !! b) as [vb|], (h !! c) as [vc|]; try done.
  by apply vertex_lt_trans; [apply char_code_inj|].
Qed.

Lemma dereferencing_less_equiv h a b va vb :
  h !! a = Some va → h !! b = Some vb →
  negb (dereferencing_less h a b) && negb (dereferencing_less h b a) = true
  ↔ va = vb.
Proof.
  intros Ha Hb. destruct (decide (a = b)) as [->|Hab].
  - rewrite dereferencing_less_irrefl. simpl. split; [|done].
    intros _. congruence.
  - unfold dereferencing_less. rewrite Ha, Hb.
    by apply vertex_lt_equiv; [apply char_code_inj|].
Qed.

(** The same under either reading of [char]. *)
Lemma char_as_inj signed a b : char_as signed a = char_as signed b → a = b.
Proof. destruct signed; [apply signed_char_code_inj|apply char_code_inj]. Qed.

Lemma dereferencing_less_as_unsigned h a b :
  dereferencing_less_as false h a b = dereferencing_less h a b.
Proof. done. Qed.

Lemma dereferencing_less_as_irrefl signed h a :
  dereferencing_less_as signed h a a = false.
Proof.
  unfold dereferencing_less_as. destruct (h !! a); [|done].
  apply vertex_lt_irrefl.
Qed.

Lemma dereferencing_less_as_asym signed h a b :
  dereferencing_less_as signed h a b = true →
  dereferencing_less_as signed h b a = false.
Proof.
  unfold dereferencing_less_as.
  destruct (h !! a) as [va|], (h !! b) as [vb|]; try done.
  apply vertex_lt_asym, char_as_inj.
Qed.

Lemma dereferencing_less_as_trans signed h a b c :
  dereferencing_less_as signed h a b = true →
  dereferencing_less_as signed h b c = true →
  dereferencing_less_as signed h a c = true.
Proof.
  intros H1 H2. destruct (decide (a = c)) as [->|Hac].
  { apply dereferencing_less_as_asym in H1. congruence. }
  revert H1 H2. unfold dereferencing_less_as.
  destruct (h !! a) as [va|], (h !! b) as [vb|], (h !! c) as [vc|]; try done.
  by apply vertex_lt_trans; [apply char_as_inj|].
Qed.

Lemma dereferencing_less_as_equiv signed h a b va vb :
  h !! a = Some va → h !! b = Some vb →
  negb (dereferencing_less_as signed h a b)
  && negb (dereferencing_less_as signed h b a) = true
  ↔ va = vb.
Proof.
  intros Ha Hb. destruct (decide (a = b)) as [->|Hab].
  - rewrite dereferencing_less_as_irrefl. simpl. split; [|done].
    intros _. congruence.
  - unfold dereferencing_less_as. rewrite Ha, Hb.
    by apply vertex_lt_equiv; [apply char_as_inj|].
Qed.

(** Vertices that are neither below nor above one live vertex are neither
    below nor above each other: with the three lemmas before, the order is a
    strict weak order, which is what [std::set] asks of its comparator. *)
Lemma dereferencing_less_as_equiv_trans signed h a b c :
  is_Some (h !! b) →
  negb (dereferencing_less_as signed h a b)
  && negb (dereferencing_less_as signed h b a) = true →
  negb (dereferencing_less_as signed h b c)
  && negb (dereferencing_less_as signed h c b) = true →
  negb (dereferencing_less_as signed h a c)
  && negb (dereferencing_less_as signed h c a) = true.
Proof.
  intros [vb Hb] Hab Hbc.
  destruct (h !! a) as [va|] eqn:Ha;
    [|by unfold dereferencing_less_as; rewrite Ha; destruct (h !! c)].
  destruct (h !! c) as [vc|] eqn:Hc;
    [|by unfold dereferencing_less_as; rewrite Ha, Hc].
  apply (dereferencing_less_as_equiv signed h a b va vb Ha Hb) in Hab.
  apply (dereferencing_less_as_equiv signed h b c vb vc Hb Hc) in Hbc.
  apply (dereferencing_less_as_equiv signed h a c va vc Ha Hc). congruence.
Qed.

(** The lookup in the registry is the same under either reading. *)
Lemma registry_find_signedness signed h registry key :
  List.find (λ elem, negb (dereferencing_less_as signed h elem key)
                     && negb (dereferencing_less_as signed h key elem))
    registry
  = registry_find h registry key.
Proof.
  unfold registry_find. induction registry as [|e registry IH]; [done|].
  simpl. rewrite IH.
  assert (negb (dereferencing_less_as signed h e key)
          && negb (dereferencing_less_as signed h key e)
          = negb (dereferencing_less h e key)
            && negb (dereferencing_less h key e)) as ->; [|done].
  destruct signed; [|done].
  unfold dereferencing_less_as, dereferencing_less.
  destruct (h !! e) as [ve|], (h !! key) as [vk|]; try done.
  change (char_as true) with signed_char_code.
  destruct (decide (e = key)) as [->|Hne].
  - unfold vertex_lt. by rewrite !decide_True.
  - by apply vertex_equivalence_signedness.
Qed.

End deref_order.

(** * What holds of the language for any input *)

Section any_input.

(** An iteration of the loop changes nothing to what the vertices left on
    the path accept. *)
Lemma minimize_body_walk s :
  wf s →
  path_forall
    (λ a _, ∀ v, walk (heap (minimize_body s)) a v = walk (heap s) a v)
    (root_vertex_ s) (drop 1 (unminimized_path_ s)).
Proof.
  intros Hwf. destruct (unminimized_path_ s) as [|top rest] eqn:Hp.
  { unfold minimize_body. rewrite Hp. simpl. done. }
  simpl. rewrite drop_0.
  destruct (wf_top_fresh s top rest Hwf Hp) as (Htr & Htp & Hrp).
  pose proof (wf_linked s Hwf) as Hlk. rewrite Hp in Hlk. simpl in Hlk.
  destruct Hlk as ((vp & Hvp & Hcp) & Hinto & Hlk).
  set (c := edge_from_parent_ top) in *.
  set (parent := parent_of (root_vertex_ s) rest) in *.
  pose proof (registry_kept_minimize_body s Hwf) as Hkept.
  assert (∀ e v, e ∈ minimized_vertices_ s →
    walk (heap (minimize_body s)) e v = walk (heap s) e v) as Hwalk.
  { intros e v He. apply walk_registry; [done| |done].
    intros e' He'. by apply Hkept. }
  destruct (registry_find (heap s) (minimized_vertices_ s) (vertex_ top))
    as [it|] eqn:Hf.
  - destruct (wf_find_Some s top rest it Hwf Hp Hf) as [Hit Hval].
    pose proof (minimize_body_found s top rest it Hp Hf) as Hbody.
    rewrite Hbody in Hwalk |- *. simpl in Hwalk |- *. fold c parent in Hwalk |- *.
    set (h' := delete (vertex_ top) (alter (assign_edge c it) parent (heap s)))
      in *.
    assert (parent ≠ vertex_ top) as Hpt.
    { intros E. apply Htp. rewrite <- E. apply parent_of_in. }
    assert (h' !! parent = Some (assign_edge c it vp)) as Hparent.
    { unfold h'. rewrite lookup_delete_ne by done.
      by rewrite lookup_alter_eq, Hvp. }
    assert (∀ v, walk h' it v = walk (heap s) (vertex_ top) v) as Hitw.
    { intros v. rewrite Hwalk by done. by apply walk_same_vertex. }
    eapply path_forall_impl;
      [|apply (path_transfer (heap s) h' (minimized_vertices_ s)
                 (root_vertex_ s) rest (λ _, False))].
    + intros a u Hw v. apply bool_eq_of_iff. rewrite (Hw v). tauto.
    + pose proof (wf_nodup_spine s Hwf) as Hnd. rewrite Hp in Hnd.
      simpl in Hnd. apply NoDup_cons in Hnd as [Hroot Hnd].
      apply NoDup_cons in Hnd as [_ Hnd]. apply NoDup_cons. split; [|done].
      intros Hin. apply Hroot. by right.
    + intros a Ha Hap. unfold h'.
      rewrite lookup_delete_ne by (intros <-; done).
      by apply lookup_alter_ne, not_eq_sym.
    + done.
    + done.
    + done.
    + fold parent. intros [|x v].
      * rewrite !walk_nil, Hparent, Hvp. simpl. tauto.
      * rewrite !walk_cons, Hparent, Hvp. simpl.
        destruct (decide (x = c)) as [->|Hxc].
        -- rewrite lookup_insert_eq, Hcp, Hitw. tauto.
        -- rewrite lookup_insert_ne by done.
           destruct (edges vp !! x) as [t|] eqn:Ht; [|tauto].
           rewrite Hwalk; [tauto|]. eapply Hinto; [done|done|congruence].
  - rewrite (minimize_body_not_found s top rest Hp Hf). simpl.
    clear. induction rest as [|e rest IH]; simpl; [done|]. split; [done|apply IH].
Qed.

Lemma minimize_body_walk_root s v :
  wf s →
  walk (heap (minimize_body s)) (root_vertex_ s) v
  = walk (heap s) (root_vertex_ s) v.
Proof.
  intros Hwf. pose proof (minimize_body_walk s Hwf) as H.
  apply path_forall_root in H. apply H.
Qed.

(** Minimisation does not change the language of the automaton. *)
Lemma minimize_until_walk_root d s v :
  wf s →
  walk (heap (minimize_until d s)) (root_vertex_ s) v
  = walk (heap s) (root_vertex_ s) v.
Proof.
  intros Hwf.
  enough (wf (minimize_until d s)
          ∧ root_vertex_ (minimize_until d s) = root_vertex_ s
          ∧ ∀ v, walk (heap (minimize_until d s)) (root_vertex_ s) v
                 = walk (heap s) (root_vertex_ s) v) as (_ & _ & H) by apply H.
  apply (minimize_until_ind
           (λ s', wf s' ∧ root_vertex_ s' = root_vertex_ s
                  ∧ ∀ v, walk (heap s') (root_vertex_ s) v
                         = walk (heap s) (root_vertex_ s) v)); [|done].
  intros s' (Hwf' & Hroot & Hw) _. split_and!.
  - by apply wf_minimize_body.
  - by rewrite minimize_body_root.
  - intros v'. rewrite <- Hw, <- Hroot. by apply minimize_body_walk_root.
Qed.

Lemma reach_app h a u v :
  reach h a (u ++ v) = reach h a u ≫= λ t, reach h t v.
Proof.
  revert a. induction u as [|c u IH]; intros a; simpl; [done|].
  destruct (h !! a) as [va|]; [|done].
  destruct (edges va !! c) as [t|]; [|done]. apply IH.
Qed.

(** The labels of the path lead from the root to the vertex on top. *)
Lemma path_reach h reg root path :
  path_linked h reg root path →
  reach h root (path_word path) = Some (parent_of root path).
Proof.
  induction path as [|top rest IH]; [done|].
  intros ((vp & Hvp & Hc) & _ & Hlk).
  rewrite path_word_cons, reach_app, (IH Hlk). simpl.
  by rewrite Hvp, Hc.
Qed.

(** Right after [insert] the word is accepted, whatever came before. *)
Lemma insert_word_accepts w s :
  wf s → path_word (unminimized_path_ s) = prev_word_ s →
  walk (heap (insert_word w s)) (root_vertex_ (insert_word w s)) w = true.
Proof.
  intros Hwf Hpath.
  pose proof (wf_insert_word w s Hwf) as Hwf'.
  pose proof (insert_word_path_word w s Hpath) as Hw.
  destruct (insert_word_top_accepting w s Hwf) as (v & Hv & Hacc).
  pose proof (path_reach _ _ _ _ (wf_linked _ Hwf')) as Hreach.
  rewrite Hw in Hreach.
  rewrite <- (app_nil_r w) at 3. rewrite walk_app, Hreach, walk_nil, Hv. done.
Qed.

End any_input.

(** * No word is accepted that was not inserted *)

Section soundness.

(** [path_transfer] in one direction: when the vertex on top of the path
    accepts at most what it accepted and the continuations into [D], so do
    the vertices below it, whether or not an edge was overwritten. *)
Lemma path_transfer_only h h' reg root path (D : word → Prop) :
  NoDup (root :: (vertex_ <$> path)) →
  (∀ a, a ∈ root :: (vertex_ <$> path) → a ≠ parent_of root path →
        h' !! a = h !! a) →
  (∀ e v, e ∈ reg → walk h' e v = walk h e v) →
  path_linked h reg root path →
  (∀ v, walk h' (parent_of root path) v = true →
        walk h (parent_of root path) v = true ∨ D (path_word path ++ v)) →
  path_forall (λ a u, ∀ v, walk h' a v = true → walk h a v = true ∨ D (u ++ v))
    root path.
Proof.
  intros Hnd Hag Hreg. induction path as [|e rest IH]; intros Hlk Htop.
  { simpl. done. }
  simpl. split; [done|].
  destruct Hlk as ((vp & Hvp & Hc) & Hinto & Hlk).
  simpl in Hag, Hnd.
  assert (∀ a, a ∈ root :: (vertex_ <$> rest) → a ≠ vertex_ e) as Hbelow.
  { intros a Ha ->. apply NoDup_cons in Hnd as [Hroot Hnd].
    apply NoDup_cons in Hnd as [He _].
    apply elem_of_cons in Ha as [E|Ha]; [|done].
    apply Hroot. rewrite <- E. by left. }
  assert (h' !! parent_of root rest = h !! parent_of root rest) as Hp.
  { pose proof (parent_of_in root rest) as Hin. apply Hag; [|by apply Hbelow].
    apply elem_of_cons in Hin as [->|Hin]; [by left|]. right. by right. }
  rewrite path_word_cons in Htop.
  apply IH; [| |done|].
  - apply NoDup_cons in Hnd as [Hroot Hnd].
    apply NoDup_cons in Hnd as [_ Hnd]. apply NoDup_cons. split; [|done].
    intros Hin. apply Hroot. by right.
  - intros a Ha _. apply Hag; [|by apply Hbelow].
    apply elem_of_cons in Ha as [->|Ha]; [by left|]. right. by right.
  - intros [|x v].
    + rewrite !walk_nil, Hp. by left.
    + rewrite !walk_cons, Hp, Hvp.
      destruct (decide (x = edge_from_parent_ e)) as [->|Hne].
      * rewrite Hc. simpl in Htop. intros H. apply Htop in H.
        by rewrite <- app_assoc in H.
      * destruct (edges vp !! x) as [t|] eqn:Ht; [|by left].
        rewrite Hreg; [by left|]. eapply Hinto; [done|done|congruence].
Qed.

Lemma chain_path_only h' root (ws' : list word) a suffix base :
  chain_lang h' a suffix →
  path_word base ++ suffix ∈ ws' →
  path_forall (λ a u, ∀ v, walk h' a v = true → u ++ v ∈ ws') root base →
  path_forall (λ a u, ∀ v, walk h' a v = true → u ++ v ∈ ws') root
    (reverse (fresh_entries a suffix) ++ base).
Proof.
  revert a base.
  induction suffix as [|c suffix IH]; intros a base Hchain Hw Hbase.
  { done. }
  rewrite fresh_entries_snoc_path. destruct Hchain as [Hhead Hchain].
  apply IH; [done| |].
  - rewrite path_word_cons. simpl. by rewrite <- app_assoc.
  - simpl. split; [|done]. rewrite path_word_cons. simpl.
    intros v Hv. apply Hhead in Hv as ->. by rewrite <- app_assoc.
Qed.

Lemma path_forall_tail (P : nat → word → Prop) root e rest :
  path_forall P root (e :: rest) → path_forall P root rest.
Proof. simpl. tauto. Qed.

Lemma accepts_only_minimize_body ws s :
  wf s → accepts_only ws s → accepts_only ws (minimize_body s).
Proof.
  intros Hwf Hs. unfold accepts_only in *.
  pose proof (minimize_body_walk s Hwf) as Hw.
  rewrite minimize_body_root, minimize_body_path.
  destruct (unminimized_path_ s) as [|top rest] eqn:Hp.
  { simpl in *. split; [|done]. intros v. rewrite (proj1 Hw v). apply Hs. }
  simpl in Hw |- *. rewrite drop_0 in Hw |- *. apply path_forall_tail in Hs.
  eapply path_forall_impl; [|apply path_forall_and; [exact Hs|exact Hw]].
  intros a u [H1 H2] v. rewrite H2. apply H1.
Qed.

Lemma accepts_only_minimize_until ws d s :
  wf s → accepts_only ws s → accepts_only ws (minimize_until d s).
Proof.
  intros Hwf Hs.
  enough (wf (minimize_until d s) ∧ accepts_only ws (minimize_until d s))
    by tauto.
  apply (minimize_until_ind (λ s', wf s' ∧ accepts_only ws s')); [|done].
  intros s' [Hwf' Hs'] _. split; [by apply wf_minimize_body|].
  by apply accepts_only_minimize_body.
Qed.

Lemma accepts_only_add_suffix ws w suffix s :
  wf s → accepts_only ws s →
  w = path_word (unminimized_path_ s) ++ suffix →
  accepts_only (ws ++ [w]) (add_suffix suffix s).
Proof.
  intros Hwf Hs Hw. unfold accepts_only in *.
  set (p := path_word (unminimized_path_ s)) in *.
  set (parent := parent_of (root_vertex_ s) (unminimized_path_ s)) in *.
  destruct (wf_parent_live s Hwf) as [vp Hvp]. fold parent in Hvp.
  destruct (add_suffix_loop_heap suffix s parent vp Hvp (wf_next s Hwf))
    as (H1 & H2 & H3).
  pose proof (add_suffix_heap suffix s) as Hheap. fold parent in Hheap.
  simpl in H1, H2, H3. rewrite <- Hheap in H1, H2, H3. clear Hheap.
  set (h' := heap (add_suffix suffix s)) in *.
  assert (∀ a, a ∈ owned s → a < next_addr s) as Hlt.
  { intros a Ha. by apply (wf_next s Hwf), (wf_live s Hwf). }
  assert (∀ e v, e ∈ minimized_vertices_ s → walk h' e v = walk (heap s) e v)
    as Hwalk.
  { intros e v He. apply walk_registry; [done| |done].
    intros e' He'. apply H1; [by apply wf_registry_not_parent|].
    apply Hlt. eauto with owned. }
  pose proof (wf_top s Hwf) as Htop. fold parent in Htop.
  assert (∀ v, walk h' parent v = true →
               walk (heap s) parent v = true ∨ p ++ v = w) as Hparent.
  { destruct suffix as [|c suffix'].
    - rewrite app_nil_r in Hw. intros [|x v].
      + intros _. right. by rewrite app_nil_r.
      + rewrite !walk_cons, H2, Hvp. simpl.
        destruct (edges vp !! x) as [t|] eqn:Ht; [|by left].
        rewrite Hwalk; [by left|]. by eapply Htop.
    - intros [|x v].
      + rewrite !walk_nil, H2, Hvp. simpl. by left.
      + rewrite !walk_cons, H2, Hvp. simpl.
        destruct (decide (x = c)) as [->|Hxc].
        * rewrite lookup_insert_eq. destruct H3 as [H3 _].
          rewrite H3. intros ->. by right.
        * rewrite lookup_insert_ne by done.
          destruct (edges vp !! x) as [t|] eqn:Ht; [|by left].
          rewrite Hwalk; [by left|]. by eapply Htop. }
  rewrite add_suffix_path, add_suffix_root. fold h'.
  apply chain_path_only; [done| |].
  - fold p. rewrite <- Hw. apply elem_of_app. right. by left.
  - eapply path_forall_impl;
      [|apply path_forall_and; [exact Hs|
        apply (path_transfer_only (heap s) h' (minimized_vertices_ s)
                 (root_vertex_ s) (unminimized_path_ s) (λ y, y = w))]].
    + intros a u [Hl Ht] v Hv. apply Ht in Hv as [Hv| ->].
      * apply elem_of_app. left. by apply Hl.
      * apply elem_of_app. right. by left.
    + by apply wf_nodup_spine.
    + intros a Ha Hne. apply H1; [done|]. apply Hlt. unfold owned.
      apply elem_of_cons in Ha as [->|Ha]; [by left|]. right.
      apply elem_of_app. by left.
    + done.
    + apply (wf_linked s Hwf).
    + done.
Qed.

Lemma accepts_only_insert_word ws w s :
  wf s → accepts_only ws s →
  path_word (unminimized_path_ s) = prev_word_ s →
  accepts_only (ws ++ [w]) (insert_word w s).
Proof.
  intros Hwf Hs Hpath. unfold insert_word.
  set (n := mismatch (prev_word_ s) w).
  assert (path_word (unminimized_path_ (minimize_until n s)) = take n w) as Hp1.
  { rewrite minimize_until_path, path_word_drop, Hpath.
    assert (length (unminimized_path_ s) = length (prev_word_ s)) as ->
      by by rewrite <- Hpath, path_word_length.
    pose proof (mismatch_le_l (prev_word_ s) w). fold n in H.
    replace (length (prev_word_ s) - (length (prev_word_ s) - n)) with n by lia.
    apply mismatch_take. }
  pose proof (accepts_only_add_suffix ws w (drop n w) (minimize_until n s)) as H.
  unfold accepts_only in *. simpl. apply H.
  - by apply wf_minimize_until.
  - by apply accepts_only_minimize_until.
  - by rewrite Hp1, take_drop.
Qed.

Lemma accepts_only_insert_all ws :
  accepts_only ws (insert_all ws empty_dagger).
Proof.
  induction ws as [|w ws IH] using rev_ind.
  - unfold accepts_only. simpl. split; [|done]. intros v.
    by rewrite walk_empty_dagger.
  - rewrite insert_all_snoc. apply accepts_only_insert_word; [|done|].
    + apply wf_insert_all, wf_empty_dagger.
    + apply insert_all_path_word.
Qed.

(** For any input, in order or not, what [contains] accepts is a word of
    the input. *)
Lemma from_dictionary_accepts_only ws w :
  (contains w (from_dictionary ws)).1 = true → w ∈ ws.
Proof.
  intros H. rewrite contains_answer in H.
  pose proof (accepts_only_minimize_until ws 0 (insert_all ws empty_dagger)
                (wf_insert_all ws _ wf_empty_dagger)
                (accepts_only_insert_all ws)) as Hs.
  apply path_forall_root in Hs. by apply (Hs w).
Qed.

End soundness.

(** * The graph has no cycle *)

Section acyclic.

Lemma edges_descend_agree h h' l :
  (∀ a, a ∈ l → h' !! a = h !! a) → edges_descend h l → edges_descend h' l.
Proof.
  induction l as [|a l IH]; intros Hag; [done|].
  intros [Ha Hl]. split.
  - intros v c t Hv. apply Ha. rewrite <- Hag; [done|by left].
  - apply IH; [|done]. intros b Hb. apply Hag. by right.
Qed.

(** The registry is kept in the order of registration, latest first: the
    edges of an element lead to elements registered before it. *)
Lemma registry_descend_minimize_body s :
  wf s → edges_descend (heap s) (minimized_vertices_ s) →
  edges_descend (heap (minimize_body s)) (minimized_vertices_ (minimize_body s)).
Proof.
  intros Hwf Hd. pose proof (registry_kept_minimize_body s Hwf) as Hk.
  destruct (unminimized_path_ s) as [|top rest] eqn:Hp.
  { unfold minimize_body. by rewrite Hp. }
  destruct (registry_find (heap s) (minimized_vertices_ s) (vertex_ top))
    as [it|] eqn:Hf.
  - rewrite (minimize_body_found s top rest it Hp Hf) in Hk |- *. simpl.
    eapply edges_descend_agree; [|exact Hd]. intros a Ha.
    by destruct (Hk a Ha) as [_ E].
  - rewrite (minimize_body_not_found s top rest Hp Hf). simpl. split; [|done].
    pose proof (wf_top s Hwf) as Ht. by rewrite Hp in Ht.
Qed.

Lemma registry_descend_add_suffix suffix s :
  wf s → edges_descend (heap s) (minimized_vertices_ s) →
  edges_descend (heap (add_suffix suffix s))
    (minimized_vertices_ (add_suffix suffix s)).
Proof.
  intros Hwf Hd. rewrite add_suffix_registry.
  eapply edges_descend_agree; [|exact Hd]. intros a Ha.
  by destruct (registry_kept_add_suffix suffix s Hwf a Ha) as [_ E].
Qed.

Lemma registry_descend_minimize_until d s :
  wf s → edges_descend (heap s) (minimized_vertices_ s) →
  wf (minimize_until d s)
  ∧ edges_descend (heap (minimize_until d s))
      (minimized_vertices_ (minimize_until d s)).
Proof.
  intros Hwf Hd.
  apply (minimize_until_ind
    (λ s', wf s' ∧ edges_descend (heap s') (minimized_vertices_ s'))); [|done].
  intros s' [Hwf' Hd'] _. split; [by apply wf_minimize_body|].
  by apply registry_descend_minimize_body.
Qed.

Lemma registry_descend_insert_word w s :
  wf s → edges_descend (heap s) (minimized_vertices_ s) →
  edges_descend (heap (insert_word w s)) (minimized_vertices_ (insert_word w s)).
Proof.
  intros Hwf Hd. unfold insert_word. simpl.
  destruct (registry_descend_minimize_until (mismatch (prev_word_ s) w) s Hwf Hd)
    as [Hwf' Hd'].
  by apply registry_descend_add_suffix.
Qed.

Lemma registry_descend_construction_state s :
  construction_state s → edges_descend (heap s) (minimized_vertices_ s).
Proof.
  unfold construction_state. induction 1 as [|s' Hs IH|s' suffix Hs IH|s' w Hs IH].
  - done.
  - apply registry_descend_minimize_body; [|done].
    by apply wf_construction_state.
  - apply registry_descend_add_suffix; [|done].
    by apply wf_construction_state.
  - apply registry_descend_insert_word; [|done].
    by apply wf_construction_state.
Qed.

Lemma spine_descend h reg root path tail :
  path_linked h reg root path →
  edges_into h tail (parent_of root path) None →
  (∀ e, e ∈ reg → e ∈ tail) →
  edges_descend h tail →
  edges_descend h ((root :: reverse (vertex_ <$> path)) ++ tail).
Proof.
  revert tail. induction path as [|top rest IH]; intros tail Hlk Htop Hsub Hd.
  { simpl. done. }
  destruct Hlk as ((vp & Hvp & Hc) & Hinto & Hlk).
  rewrite fmap_cons, reverse_cons, app_comm_cons, <- app_assoc. simpl.
  apply (IH (vertex_ top :: tail)); [done| | |].
  - intros v c t Hv Ht Hne. rewrite Hvp in Hv. injection Hv as <-.
    destruct (decide (c = edge_from_parent_ top)) as [->|Hc'].
    + rewrite Hc in Ht. injection Ht as <-. by left.
    + right. apply Hsub. eapply Hinto; [done|done|congruence].
  - intros e He. right. by apply Hsub.
  - done.
Qed.

Lemma graph_order_descend s :
  construction_state s → edges_descend (heap s) (graph_order s).
Proof.
  intros Hs. pose proof (wf_construction_state s Hs) as Hwf.
  apply (spine_descend (heap s) (minimized_vertices_ s)).
  - apply (wf_linked s Hwf).
  - apply (wf_top s Hwf).
  - done.
  - by apply registry_descend_construction_state.
Qed.

Lemma graph_order_owned s a : a ∈ graph_order s ↔ a ∈ owned s.
Proof.
  unfold graph_order, owned.
  rewrite !elem_of_app, !elem_of_cons, elem_of_app, elem_of_reverse. tauto.
Qed.

Lemma graph_order_NoDup s : wf s → NoDup (graph_order s).
Proof.
  intros Hwf. pose proof (wf_nodup s Hwf) as Hnd. unfold owned in Hnd.
  unfold graph_order.
  apply NoDup_cons in Hnd as [Hroot Hnd]. apply NoDup_app in Hnd as (H1 & H2 & H3).
  rewrite <- app_comm_cons. apply NoDup_cons. split.
  - intros H. apply Hroot. apply elem_of_app in H as [H|H].
    + apply elem_of_app. left. by apply elem_of_reverse.
    + apply elem_of_app. by right.
  - apply NoDup_app. split_and!; [by rewrite reverse_Permutation| |done].
    intros x Hx. apply H2. by apply elem_of_reverse.
Qed.

(** Along a list whose edges descend, a non-empty walk ends strictly after
    where it started. *)
Lemma descend_reach h l a c u b :
  edges_descend h l → a ∈ l → reach h a (c :: u) = Some b →
  ∃ l1 l2, l = l1 ++ a :: l2 ∧ b ∈ l2.
Proof.
  revert a c u b. induction l as [|x l IH]; intros a c u b Hd Ha Hr.
  { by apply elem_of_nil in Ha. }
  destruct Hd as [Hx Hd].
  destruct (decide (a = x)) as [->|Hne].
  - exists [], l. split; [done|]. simpl in Hr.
    destruct (h !! x) as [v|] eqn:Hv; [|done].
    destruct (edges v !! c) as [t|] eqn:Ht; [|done].
    assert (t ∈ l) as Hin by (by eapply Hx).
    destruct u as [|c' u'].
    + simpl in Hr. by injection Hr as <-.
    + destruct (IH t c' u' b Hd Hin Hr) as (l1 & l2 & -> & Hb).
      apply elem_of_app. right. by right.
  - apply elem_of_cons in Ha as [?|Ha]; [done|].
    destruct (IH a c u b Hd Ha Hr) as (l1 & l2 & -> & Hb).
    by exists (x :: l1), l2.
Qed.

Lemma reach_live h a c u b : reach h a (c :: u) = Some b → is_Some (h !! a).
Proof. simpl. destruct (h !! a); [by eexists|done]. Qed.

End acyclic.


(** * How many vertices are allocated *)

Section allocation.

Lemma add_suffix_next suffix s :
  next_addr (add_suffix suffix s) = next_addr s + length suffix.
Proof. rewrite add_suffix_eq. simpl. apply add_suffix_loop_next. Qed.

Lemma minimize_until_next d s : next_addr (minimize_until d s) = next_addr s.
Proof. by rewrite minimize_until_iter, iter_body_next. Qed.

Lemma insert_word_next w s :
  next_addr (insert_word w s)
  = next_addr s + (length w - mismatch (prev_word_ s) w).
Proof.
  unfold insert_word. simpl.
  by rewrite add_suffix_next, minimize_until_next, length_drop.
Qed.

Lemma total_length_snoc ws w :
  total_length (ws ++ [w]) = total_length ws + length w.
Proof.
  unfold total_length. induction ws as [|x ws IH]; simpl; [lia|].
  rewrite IH. lia.
Qed.

Lemma insert_all_next ws :
  next_addr (insert_all ws empty_dagger) ≤ 1 + total_length ws.
Proof.
  induction ws as [|w ws IH] using rev_ind; [done|].
  rewrite insert_all_snoc, insert_word_next, total_length_snoc. lia.
Qed.

Lemma length_below (l : list nat) n :
  NoDup l → (∀ a, a ∈ l → a < n) → length l ≤ n.
Proof.
  intros Hnd Hlt. rewrite <- (length_seq n 0).
  apply submseteq_length, NoDup_submseteq; [done|].
  intros a Ha. apply elem_of_seq. specialize (Hlt a Ha). lia.
Qed.

Lemma wf_owned_next s : wf s → length (owned s) ≤ next_addr s.
Proof.
  intros Hwf. apply length_below; [apply (wf_nodup s Hwf)|].
  intros a Ha. by apply (wf_next s Hwf), (wf_live s Hwf).
Qed.

Lemma from_dictionary_next ws :
  next_addr (from_dictionary ws) ≤ 1 + total_length ws.
Proof.
  unfold from_dictionary, finish_minimization.
  rewrite minimize_until_next. apply insert_all_next.
Qed.

End allocation.

(** * The automaton of an ascending input has no vertex to spare *)

Section trim.

Lemma from_dictionary_owned ws a :
  is_Some (heap (from_dictionary ws) !! a) →
  a = root_vertex_ (from_dictionary ws)
  ∨ a ∈ minimized_vertices_ (from_dictionary ws).
Proof.
  intros Ha. apply (wf_owned _ (wf_from_dictionary ws)) in Ha.
  unfold owned in Ha. rewrite from_dictionary_path in Ha. simpl in Ha.
  by apply elem_of_cons in Ha.
Qed.

Lemma from_dictionary_root_lang ws :
  strictly_ascending ws = true →
  ∀ v, walk (heap (from_dictionary ws)) (root_vertex_ (from_dictionary ws)) v
       = true ↔ v ∈ ws.
Proof.
  intros Hasc v. rewrite <- contains_answer.
  apply (from_dictionary_language ws v Hasc).
Qed.

Lemma root_not_registry ws e :
  strictly_ascending ws = true →
  e ∈ minimized_vertices_ (from_dictionary ws) →
  ¬ (∀ v, walk (heap (from_dictionary ws)) (root_vertex_ (from_dictionary ws)) v
          = walk (heap (from_dictionary ws)) e v).
Proof.
  intros Hasc He Heq.
  pose proof (lang_inv_from_dictionary ws Hasc) as Hli.
  destruct (li_registry ws _ Hli e He) as (u & Hu & _ & [v0 Hv0] & Hl).
  apply (residual_proper ws u); [|done|].
  - intros ->. by apply elem_of_nil in Hv0.
  - intros v. rewrite <- (from_dictionary_root_lang ws Hasc v), Heq. apply Hl.
Qed.

Lemma from_dictionary_distinct ws a b :
  strictly_ascending ws = true →
  is_Some (heap (from_dictionary ws) !! a) →
  is_Some (heap (from_dictionary ws) !! b) →
  (∀ v, walk (heap (from_dictionary ws)) a v
        = walk (heap (from_dictionary ws)) b v) →
  a = b.
Proof.
  intros Hasc Ha Hb Heq.
  pose proof (lang_inv_from_dictionary ws Hasc) as Hli.
  destruct (from_dictionary_owned ws a Ha) as [->|Har],
           (from_dictionary_owned ws b Hb) as [->|Hbr].
  - done.
  - by destruct (root_not_registry ws b Hasc Hbr).
  - destruct (root_not_registry ws a Hasc Har). intros v. by rewrite Heq.
  - by apply (li_distinct ws _ Hli).
Qed.

Lemma reach_walk h a u t v :
  reach h a u = Some t → walk h a (u ++ v) = walk h t v.
Proof. intros H. by rewrite walk_app, H. Qed.

Lemma walk_reach h a u v :
  walk h a (u ++ v) = true → ∃ t, reach h a u = Some t ∧ walk h t v = true.
Proof.
  rewrite walk_app. destruct (reach h a u) as [t|]; [|done]. by exists t.
Qed.

Lemma from_dictionary_trim ws e :
  strictly_ascending ws = true →
  e ∈ minimized_vertices_ (from_dictionary ws) →
  ∃ u v, u ≠ [] ∧ u ++ v ∈ ws
         ∧ reach (heap (from_dictionary ws))
             (root_vertex_ (from_dictionary ws)) u = Some e
         ∧ walk (heap (from_dictionary ws)) e v = true.
Proof.
  intros Hasc He.
  pose proof (lang_inv_from_dictionary ws Hasc) as Hli.
  destruct (li_registry ws _ Hli e He) as (u & Hu & _ & [v0 Hv0] & Hl).
  exists u, v0. split_and!; [done|done| |by apply Hl].
  pose proof Hv0 as Hr. apply (from_dictionary_root_lang ws Hasc) in Hr.
  apply walk_reach in Hr as (t & Hr & Ht). rewrite Hr. f_equal.
  apply (from_dictionary_distinct ws); [done|by eapply walk_true_live| |].
  - apply (wf_live _ (wf_from_dictionary ws)). unfold owned. right.
    apply elem_of_app. by right.
  - intros v. apply bool_eq_of_iff.
    rewrite <- (reach_walk _ _ u t v Hr), (from_dictionary_root_lang ws Hasc).
    symmetry. apply Hl.
Qed.

Lemma reach_target_live s a u b :
  wf s → is_Some (heap s !! a) → reach (heap s) a u = Some b →
  is_Some (heap s !! b).
Proof.
  intros Hwf. revert a. induction u as [|c u IH]; intros a Ha Hr.
  - simpl in Hr. by injection Hr as <-.
  - simpl in Hr. destruct (heap s !! a) as [v|] eqn:Hv; [|done].
    destruct (edges v !! c) as [t|] eqn:Ht; [|done].
    apply (IH t); [|done]. by eapply wf_no_dangling.
Qed.

(** From the root the automaton reads the prefixes of the words and nothing
    else. *)
Lemma from_dictionary_reads ws u :
  strictly_ascending ws = true →
  is_Some (reach (heap (from_dictionary ws))
             (root_vertex_ (from_dictionary ws)) u)
  ↔ u = [] ∨ ∃ v, u ++ v ∈ ws.
Proof.
  intros Hasc. split.
  - intros [e Hr]. destruct u as [|c u]; [by left|]. right.
    assert (is_Some (heap (from_dictionary ws) !! e)) as He.
    { eapply (reach_target_live _ _ _ _ (wf_from_dictionary ws)); [|exact Hr].
      apply (wf_live _ (wf_from_dictionary ws)). by left. }
    destruct (from_dictionary_owned ws e He) as [->|Hreg].
    + exfalso.
      pose proof (construction_state_from_dictionary ws) as Hcs.
      destruct (descend_reach _ _ _ _ _ _ (graph_order_descend _ Hcs)
                  ltac:(by left) Hr) as (l1 & l2 & Heq & Hin).
      pose proof (graph_order_NoDup _ (wf_from_dictionary ws)) as Hnd.
      rewrite Heq in Hnd. apply NoDup_app in Hnd as (_ & _ & Hnd).
      apply NoDup_cons in Hnd as [Hnd _]. done.
    + destruct (from_dictionary_trim ws e Hasc Hreg) as (u' & v & _ & _ & _ & Hv).
      exists v. apply (from_dictionary_root_lang ws Hasc).
      by rewrite (reach_walk _ _ _ e v Hr).
  - intros [->|[v Hv]]; [by eexists|].
    apply (from_dictionary_root_lang ws Hasc) in Hv.
    apply walk_reach in Hv as (t & Ht & _). by eexists.
Qed.

End trim.

(** * Calls of [minimize_until] in a row *)

Section composition.

Lemma minimize_until_min d d' s :
  minimize_until d (minimize_until d' s) = minimize_until (d `min` d') s.
Proof.
  rewrite (minimize_until_iter d), minimize_until_path, length_drop.
  rewrite (minimize_until_iter d'), (minimize_until_iter (d `min` d')).
  rewrite <- Nat.iter_add. f_equal. lia.
Qed.

Lemma finish_minimization_idemp s :
  finish_minimization (finish_minimization s) = finish_minimization s.
Proof. unfold finish_minimization. by rewrite minimize_until_min. Qed.

End composition.

(** * The empty word, whatever the order of the input *)

Section empty_word.

Lemma root_flag_add_suffix_keep suffix s :
  wf s → root_flag s = Some true → root_flag (add_suffix suffix s) = Some true.
Proof.
  intros Hwf Hs. unfold root_flag. rewrite add_suffix_eq. simpl.
  set (s' := (add_suffix_loop suffix
                (parent_of (root_vertex_ s) (unminimized_path_ s)) s).2).
  pose proof (root_flag_add_suffix_loop suffix s Hwf) as Hloop. fold s' in Hloop.
  rewrite Hs in Hloop. unfold root_flag in Hloop.
  destruct (decide (parent_of (root_vertex_ s') (unminimized_path_ s')
                    = root_vertex_ s')) as [->|Hne].
  - rewrite lookup_alter_eq.
    destruct (heap s' !! root_vertex_ s') as [v|]; [done|done].
  - by rewrite lookup_alter_ne.
Qed.

Lemma root_flag_insert_word_keep w s :
  wf s → root_flag s = Some true → root_flag (insert_word w s) = Some true.
Proof.
  intros Hwf Hs. unfold insert_word, root_flag. simpl.
  apply root_flag_add_suffix_keep; [by apply wf_minimize_until|].
  by rewrite root_flag_minimize_until.
Qed.

Lemma root_flag_insert_nil s :
  wf s → root_flag (insert_word [] s) = Some true.
Proof.
  intros Hwf. unfold insert_word, root_flag.
  assert (mismatch (prev_word_ s) [] = 0) as ->.
  { pose proof (mismatch_le_r (prev_word_ s) []). simpl in *. lia. }
  rewrite drop_0, add_suffix_nil. simpl.
  assert (unminimized_path_ (minimize_until 0 s) = []) as Hp.
  { rewrite minimize_until_path. apply drop_ge. lia. }
  rewrite Hp. simpl. rewrite lookup_alter_eq.
  destruct (wf_live _ (wf_minimize_until 0 s Hwf)
              (root_vertex_ (minimize_until 0 s))) as [v Hv]; [by left|].
  by rewrite Hv.
Qed.

Lemma root_flag_insert_all_nil ws :
  [] ∈ ws → root_flag (insert_all ws empty_dagger) = Some true.
Proof.
  induction ws as [|w ws IH] using rev_ind; [by intros ?%elem_of_nil|].
  rewrite insert_all_snoc. intros [H|H]%elem_of_app.
  - apply root_flag_insert_word_keep; [|by apply IH].
    apply wf_insert_all, wf_empty_dagger.
  - apply list_elem_of_singleton in H as <-.
    apply root_flag_insert_nil, wf_insert_all, wf_empty_dagger.
Qed.

Lemma contains_empty_word_complete ws :
  [] ∈ ws → (contains [] (from_dictionary ws)).1 = true.
Proof.
  intros H. apply root_flag_insert_all_nil in H.
  rewrite <- (root_flag_minimize_until 0) in H
    by apply wf_insert_all, wf_empty_dagger.
  unfold root_flag in H.
  fold (finish_minimization (insert_all ws empty_dagger)) in H.
  fold (from_dictionary ws) in H.
  rewrite contains_answer.
  rewrite walk_nil.
  destruct (heap (from_dictionary ws) !! root_vertex_ (from_dictionary ws))
    as [v|]; [|done].
  simpl in H. by injection H.
Qed.

End empty_word.

(** * As many allocations as the trie has nodes *)

Section trie_count.

Lemma take_length_inj (w : word) j k :
  j ≤ length w → k ≤ length w → take j w = take k w → j = k.
Proof.
  intros Hj Hk H. apply (f_equal length) in H. rewrite !length_take in H. lia.
Qed.

Lemma prefix_is_take (x w : word) : x `prefix_of` w → x = take (length x) w.
Proof. intros [k ->]. by rewrite take_app_length. Qed.

(** The prefixes that a word adds to those of the words before it, in an
    ascending sequence, are the ones longer than what it shares with its
    predecessor. *)
Lemma all_prefixes_snoc_count ws w :
  strictly_ascending (ws ++ [w]) = true →
  length (remove_dups (all_prefixes (ws ++ [w])))
  = length (remove_dups (all_prefixes ws))
    + (length w - mismatch (List.last ws []) w).
Proof.
  intros Hasc. set (n := mismatch (List.last ws []) w).
  assert (n ≤ length w) as Hn by apply mismatch_le_r.
  assert (length ((λ k, take k w) <$> seq (S n) (length w - n))
          = length w - n) as <- by by rewrite length_fmap, length_seq.
  rewrite <- length_app.
  apply Permutation_length, NoDup_Permutation.
  - apply NoDup_remove_dups.
  - apply NoDup_app. split_and!.
    + apply NoDup_remove_dups.
    + intros x Hx HN. rewrite elem_of_remove_dups in Hx.
      apply list_elem_of_fmap in HN as (k & -> & Hk).
      apply elem_of_seq in Hk.
      apply elem_of_all_prefixes in Hx as [Hx|(y & Hy & Hpre)].
      * apply (f_equal length) in Hx. rewrite length_take in Hx.
        simpl in Hx. lia.
      * pose proof (shared_prefix_bound ws w y (take k w) Hasc Hy Hpre
                      (prefix_take _ _)) as Hb.
        apply prefix_length in Hb. rewrite !length_take in Hb.
        fold n in Hb. lia.
    + apply NoDup_fmap_2_strong; [|apply NoDup_seq].
      intros j k Hj Hk. apply elem_of_seq in Hj, Hk.
      apply take_length_inj; lia.
  - intros x.
    rewrite elem_of_app, !elem_of_remove_dups, !elem_of_all_prefixes,
      list_elem_of_fmap.
    split.
    + intros [->|(y & Hy & Hpre)]; [left; by left|].
      apply elem_of_app in Hy as [Hy|Hy]; [left; right; by exists y|].
      apply list_elem_of_singleton in Hy as ->.
      pose proof (prefix_length _ _ Hpre) as Hlen.
      pose proof (prefix_is_take x w Hpre) as Hx.
      destruct (decide (length x ≤ n)) as [Hle|Hgt].
      * left. destruct (decide (ws = [])) as [->|Hne].
        { left. simpl in n. destruct x; [done|]. unfold n in Hle.
          simpl in Hle. lia. }
        right. exists (List.last ws []). split.
        { rewrite (app_removelast_last [] Hne) at 2.
          apply elem_of_app. right. by left. }
        rewrite Hx.
        replace (take (length x) w) with (take (length x) (take n w))
          by (rewrite take_take; f_equal; lia).
        unfold n. rewrite <- mismatch_take.
        etrans; apply prefix_take.
      * right. exists (length x). split; [done|]. apply elem_of_seq. lia.
    + intros [[->|(y & Hy & Hpre)]|(k & -> & Hk)].
      * by left.
      * right. exists y. split; [|done]. apply elem_of_app. by left.
      * right. exists w. split; [|apply prefix_take].
        apply elem_of_app. right. by left.
Qed.

Lemma insert_all_trie_count ws :
  strictly_ascending ws = true →
  next_addr (insert_all ws empty_dagger)
  = length (remove_dups (all_prefixes ws)).
Proof.
  induction ws as [|w ws IH] using rev_ind; intros Hasc; [done|].
  rewrite insert_all_snoc, insert_word_next, insert_all_prev.
  rewrite all_prefixes_snoc_count by done.
  rewrite IH; [done|]. by eapply strictly_ascending_app_l.
Qed.

End trie_count.

(** * Vertices and residuals *)

Section nerode.

Lemma from_dictionary_reach_lang ws u e :
  strictly_ascending ws = true →
  reach (heap (from_dictionary ws)) (root_vertex_ (from_dictionary ws)) u
  = Some e →
  ∀ v, walk (heap (from_dictionary ws)) e v = true ↔ u ++ v ∈ ws.
Proof.
  intros Hasc Hr v. rewrite <- (reach_walk _ _ _ _ v Hr).
  apply (from_dictionary_root_lang ws Hasc).
Qed.

Lemma from_dictionary_reach_live ws u e :
  reach (heap (from_dictionary ws)) (root_vertex_ (from_dictionary ws)) u
  = Some e →
  is_Some (heap (from_dictionary ws) !! e).
Proof.
  apply (reach_target_live _ _ _ _ (wf_from_dictionary ws)).
  apply (wf_live _ (wf_from_dictionary ws)). by left.
Qed.

Lemma from_dictionary_nerode ws u u' e e' :
  strictly_ascending ws = true →
  reach (heap (from_dictionary ws)) (root_vertex_ (from_dictionary ws)) u
  = Some e →
  reach (heap (from_dictionary ws)) (root_vertex_ (from_dictionary ws)) u'
  = Some e' →
  e = e' ↔ residual u ws = residual u' ws.
Proof.
  intros Hasc Hr Hr'. rewrite (residual_eq_iff ws u u' Hasc).
  pose proof (from_dictionary_reach_lang ws u e Hasc Hr) as Hl.
  pose proof (from_dictionary_reach_lang ws u' e' Hasc Hr') as Hl'.
  split.
  - intros <- v. by rewrite <- Hl, <- Hl'.
  - intros Heq. apply (from_dictionary_distinct ws); [done| | |].
    + by eapply from_dictionary_reach_live.
    + by eapply from_dictionary_reach_live.
    + intros v. apply bool_eq_of_iff. by rewrite Hl, Hl', Heq.
Qed.

End nerode.

(** * Ascending input with repeated words *)

Section repetitions.

Lemma ascending_cons u v rest :
  ascending (u :: v :: rest) = true
  ↔ (u = v ∨ word_ltb u v = true) ∧ ascending (v :: rest) = true.
Proof.
  change (ascending (u :: v :: rest))
    with ((bool_decide (u = v) || word_ltb u v) && ascending (v :: rest)).
  by rewrite andb_true_iff, orb_true_iff, bool_decide_eq_true.
Qed.

Lemma ascending_tail u rest :
  ascending (u :: rest) = true → ascending rest = true.
Proof. destruct rest; [done|]. by intros [_ ?]%ascending_cons. Qed.

Lemma ascending_all u rest x :
  ascending (u :: rest) = true → x ∈ rest → x = u ∨ word_ltb u x = true.
Proof.
  revert u. induction rest as [|v rest IH]; intros u Hasc Hx.
  { by apply elem_of_nil in Hx. }
  apply ascending_cons in Hasc as [Huv Hasc].
  apply elem_of_cons in Hx as [->|Hx].
  - destruct Huv as [->|?]; [by left|by right].
  - destruct (IH v Hasc Hx) as [->|Hvx]; [destruct Huv as [->|?]; by eauto|].
    right. destruct Huv as [->|Huv]; [done|]. by eapply word_ltb_trans.
Qed.

(** In ascending input a word that comes again comes again at once. *)
Lemma ascending_repeated u v rest :
  ascending (u :: v :: rest) = true → u ∈ v :: rest → u = v.
Proof.
  intros Hasc Hin. pose proof Hasc as [[->|Huv] Hasc']%ascending_cons; [done|].
  apply elem_of_cons in Hin as [->|Hin]; [done|].
  destruct (ascending_all v rest u Hasc' Hin) as [->|Hvu]; [done|].
  pose proof (word_ltb_trans u v u Huv Hvu) as H.
  by rewrite word_ltb_irrefl in H.
Qed.

Lemma remove_dups_cons_in (u : word) rest :
  u ∈ rest → remove_dups (u :: rest) = remove_dups rest.
Proof. intros H. simpl. by destruct (decide_rel elem_of u rest). Qed.

Lemma remove_dups_cons_notin (u : word) rest :
  u ∉ rest → remove_dups (u :: rest) = u :: remove_dups rest.
Proof. intros H. simpl. by destruct (decide_rel elem_of u rest). Qed.

Lemma ascending_remove_dups ws :
  ascending ws = true →
  strictly_ascending (remove_dups ws) = true
  ∧ head (remove_dups ws) = head ws.
Proof.
  induction ws as [|u rest IH]; intros Hasc; [done|].
  destruct (IH (ascending_tail u rest Hasc)) as [IH1 IH2].
  destruct (decide (u ∈ rest)) as [Hin|Hnin].
  - rewrite remove_dups_cons_in by done. split; [done|].
    destruct rest as [|v rest']; [by apply elem_of_nil in Hin|].
    rewrite IH2. simpl. f_equal. symmetry. by eapply ascending_repeated.
  - rewrite remove_dups_cons_notin by done. split; [|done].
    apply strictly_ascending_cons. split; [done|].
    intros x Hx. rewrite IH2 in Hx.
    destruct rest as [|v rest']; [done|]. simpl in Hx. injection Hx as ->.
    apply ascending_cons in Hasc as [[->|Hux] _]; [|done].
    exfalso. apply Hnin. by left.
Qed.

Lemma insert_all_remove_dups ws s :
  ascending ws = true →
  wf s → path_word (unminimized_path_ s) = prev_word_ s →
  insert_all ws s = insert_all (remove_dups ws) s.
Proof.
  revert s. induction ws as [|u rest IH]; intros s Hasc Hwf Hpath; [done|].
  pose proof (ascending_tail u rest Hasc) as Hasc'.
  destruct (decide (u ∈ rest)) as [Hin|Hnin].
  - rewrite remove_dups_cons_in by done. rewrite <- (IH s Hasc' Hwf Hpath).
    destruct rest as [|v rest']; [by apply elem_of_nil in Hin|].
    assert (u = v) as <- by by eapply ascending_repeated.
    unfold insert_all. simpl. by rewrite insert_word_twice.
  - rewrite remove_dups_cons_notin by done.
    change (insert_all (u :: rest) s) with (insert_all rest (insert_word u s)).
    change (insert_all (u :: remove_dups rest) s)
      with (insert_all (remove_dups rest) (insert_word u s)).
    apply IH; [done|by apply wf_insert_word|].
    by rewrite insert_word_prev, insert_word_path_word.
Qed.

Lemma from_dictionary_remove_dups ws :
  ascending ws = true → from_dictionary ws = from_dictionary (remove_dups ws).
Proof.
  intros Hasc. unfold from_dictionary. f_equal.
  apply insert_all_remove_dups; [done|apply wf_empty_dagger|done].
Qed.

End repetitions.


(** * The properties of the specification *)

(** The test of the repository: every word of the list is found, and
    "balade" is not. *)
Example test_construction :
  forallb (λ w, (contains w (from_dictionary test_words)).1) test_words = true
  ∧ (contains (word_of_string "balade") (from_dictionary test_words)).1 = false.
Proof. vm_compute. split; reflexivity. Qed.

Example test_words_ascending : strictly_ascending test_words = true.
Proof. reflexivity. Qed.

(** The dictionary with the single word "a". *)
Example single_character :
  let d := from_dictionary [word_of_string "a"] in
  (contains (word_of_string "a") d).1 = true
  ∧ (contains (word_of_string "") d).1 = false
  ∧ (contains (word_of_string "aa") d).1 = false.
Proof. vm_compute. done. Qed.

(** Vertex counts that can be checked by hand: "tap", "taps", "top" and
    "tops" need the root, the state after "t", the state after "ta" or
    "to", the state after "tap" or "top" and the final state. *)
Example hand_counted :
  vertex_count (from_dictionary []) = 1
  ∧ vertex_count (from_dictionary [word_of_string ""]) = 1
  ∧ vertex_count (from_dictionary (word_of_string <$> ["a"; "b"]%string)) = 2
  ∧ vertex_count
      (from_dictionary (word_of_string <$> ["tap"; "taps"; "top"; "tops"]%string))
    = 5
  ∧ length
      (minimal_dfa_states (word_of_string <$> ["tap"; "taps"; "top"; "tops"]%string))
    = 5.
Proof. vm_compute. done. Qed.

(** C1. Membership correctness: for every sequence of words in strictly
    ascending order, [contains] is true, after [from_dictionary], of every
    word of the sequence. *)
Theorem membership_correct (ws : list word) (w : word) :
  strictly_ascending ws = true → w ∈ ws →
  (contains w (from_dictionary ws)).1 = true.
Proof. intros Hasc Hw. by apply from_dictionary_language. Qed.

Lemma membership_correct_witness :
  strictly_ascending test_words = true
  ∧ word_of_string "abacost" ∈ test_words
  ∧ (contains (word_of_string "abacost") (from_dictionary test_words)).1 = true.
Proof.
  assert (word_of_string "abacost" ∈ test_words) as Hin.
  { apply (bool_decide_unpack _). vm_compute. exact I. }
  split_and!; [reflexivity|exact Hin|].
  apply (membership_correct test_words (word_of_string "abacost"));
    [reflexivity|exact Hin].
Defined.

(** C2. Negative correctness: for every sequence of words in strictly
    ascending order, [contains] is false, after [from_dictionary], of every
    string that is not a word of the sequence; the automaton accepts the
    input language and nothing more. *)
Theorem negative_correct (ws : list word) (s : word) :
  strictly_ascending ws = true → s ∉ ws →
  (contains s (from_dictionary ws)).1 = false.
Proof.
  intros Hasc Hs. apply not_true_is_false. intros H. apply Hs.
  by apply from_dictionary_language.
Qed.

Lemma negative_correct_witness :
  strictly_ascending test_words = true
  ∧ (word_of_string "balade" ∉ test_words)
  ∧ (contains (word_of_string "balade") (from_dictionary test_words)).1 = false.
Proof.
  assert (word_of_string "balade" ∉ test_words) as Hnin.
  { apply (bool_decide_unpack _). vm_compute. exact I. }
  split_and!; [reflexivity|exact Hnin|].
  apply (negative_correct test_words (word_of_string "balade"));
    [reflexivity|exact Hnin].
Defined.

(** C3. Minimality: for every sequence of words in strictly ascending order
    the built automaton has as many vertices, the registry and the root, as
    the minimal deterministic automaton of the input language has states.
    [minimal_dfa_states_least] shows that no graph of vertices accepting the
    language has fewer. *)
Theorem minimal_vertex_count (ws : list word) :
  strictly_ascending ws = true →
  vertex_count (from_dictionary ws) = length (minimal_dfa_states ws).
Proof. apply from_dictionary_vertex_count. Qed.

Lemma minimal_vertex_count_witness :
  strictly_ascending test_words = true
  ∧ vertex_count (from_dictionary test_words)
    = length (minimal_dfa_states test_words).
Proof.
  split; [reflexivity|]. apply (minimal_vertex_count test_words). reflexivity.
Defined.

(** C4. [minimize_until d] pops the entries of the unminimized path deepest
    first until at most [d] are left and resolves each as the specification
    says ([spec_minimized]: when an equivalent vertex is found in the
    registry, the new parent, the entry now on top or the root, has its
    transition for the label redirected to that vertex, keeps its other
    transitions and its flag, and the popped vertex is gone from the heap;
    otherwise the popped vertex enters the registry and the heap is as it
    was).  The specification leaves no choice: whatever satisfies it is the
    path, the registry and the heap that [minimize_until] leaves.  The root
    and the previous word are not touched; [finish_minimization] is
    [minimize_until 0]. *)
Theorem minimize_until_engine (s : dagger) (d : nat) :
  construction_state s →
  spec_minimized d (root_vertex_ s) (unminimized_path_ s)
    (minimized_vertices_ s) (heap s)
    (unminimized_path_ (minimize_until d s))
    (minimized_vertices_ (minimize_until d s)) (heap (minimize_until d s))
  ∧ (∀ path' registry' h',
       spec_minimized d (root_vertex_ s) (unminimized_path_ s)
         (minimized_vertices_ s) (heap s) path' registry' h' →
       path' = unminimized_path_ (minimize_until d s)
       ∧ registry' = minimized_vertices_ (minimize_until d s)
       ∧ h' = heap (minimize_until d s))
  ∧ root_vertex_ (minimize_until d s) = root_vertex_ s
  ∧ prev_word_ (minimize_until d s) = prev_word_ s
  ∧ unminimized_path_ (minimize_until d s)
    = drop (length (unminimized_path_ s) - d) (unminimized_path_ s)
  ∧ length (unminimized_path_ (minimize_until d s)) ≤ d
  ∧ finish_minimization s = minimize_until 0 s.
Proof.
  intros Hs. pose proof (wf_construction_state s Hs) as Hwf. split_and!.
  - by apply minimize_until_minimized.
  - intros path' registry' h'. by apply minimized_unique.
  - apply minimize_until_root.
  - apply minimize_until_prev.
  - apply minimize_until_path.
  - rewrite minimize_until_length. lia.
  - done.
Qed.

Lemma minimize_until_engine_witness :
  construction_state example_state
  ∧ spec_minimized 0 (root_vertex_ example_state)
      (unminimized_path_ example_state)
      (minimized_vertices_ example_state) (heap example_state)
      (unminimized_path_ (minimize_until 0 example_state))
      (minimized_vertices_ (minimize_until 0 example_state))
      (heap (minimize_until 0 example_state)).
Proof.
  assert (construction_state example_state) as Hs.
  { apply steps_insert, steps_insert, steps_refl. }
  split; [exact Hs|].
  apply (proj1 (minimize_until_engine example_state 0 Hs)).
Defined.

(** C5, amended. Inserting the same word twice in immediate succession: the
    tail after the common prefix is empty, the second [insert] creates no
    vertex and leaves the automaton as it is, it re-marks a vertex that is
    accepting already, namely the vertex on top of the unminimized path, or
    the root when the path is empty, which is the case exactly when the word
    is the empty string; the automaton built is the one built with a single
    insertion, with the same language and the same number of vertices. *)
Theorem duplicate_insertion (pre : list word) (w : word) :
  let s1 := insert_word w (insert_all pre empty_dagger) in
  drop (mismatch (prev_word_ s1) w) w = []
  ∧ insert_word w s1 = s1
  ∧ next_addr (insert_word w s1) = next_addr s1
  ∧ marked_vertex w s1 = parent_of (root_vertex_ s1) (unminimized_path_ s1)
  ∧ (∃ v, heap s1 !! marked_vertex w s1 = Some v ∧ is_word_end v = true)
  ∧ (unminimized_path_ s1 = [] ↔ w = [])
  ∧ ∀ post,
      let twice := from_dictionary (pre ++ w :: w :: post) in
      let once := from_dictionary (pre ++ w :: post) in
      twice = once
      ∧ vertex_count twice = vertex_count once
      ∧ ∀ x, (contains x twice).1 = (contains x once).1.
Proof.
  intros s1.
  assert (wf (insert_all pre empty_dagger)) as Hwf
    by apply wf_insert_all, wf_empty_dagger.
  pose proof (insert_all_path_word pre) as Hpath.
  assert (path_word (unminimized_path_ s1) = w) as Hw
    by by apply insert_word_path_word.
  assert (insert_word w s1 = s1) as Htwice by by apply insert_word_twice.
  assert (marked_vertex w s1
          = parent_of (root_vertex_ s1) (unminimized_path_ s1)) as Hmarked.
  { unfold marked_vertex.
    assert (prev_word_ s1 = w) as -> by done.
    rewrite mismatch_refl, drop_all.
    by rewrite minimize_until_done by by rewrite <- path_word_length, Hw. }
  split_and!.
  - assert (prev_word_ s1 = w) as -> by done.
    by rewrite mismatch_refl, drop_all.
  - done.
  - by rewrite Htwice.
  - done.
  - rewrite Hmarked. by apply insert_word_top_accepting.
  - by rewrite <- path_word_nil, Hw.
  - intros post twice once.
    assert (twice = once) as ->; [|done].
    unfold twice, once, from_dictionary. f_equal.
    rewrite !insert_all_app. simpl. f_equal. exact Htwice.
Qed.

(** C5 as stated fails for the empty word.  After a first insertion of the
    empty word a word has been inserted, yet the path is empty: there is no
    vertex on top of it, and the second insertion re-marks the root.  The
    same happens when other words were inserted before the empty one. *)
Lemma duplicate_marks_top_of_path_fails :
  ¬ (∀ (pre : list word) (w : word),
       let s1 := insert_word w (insert_all pre empty_dagger) in
       pre ++ [w] ≠ [] →
       ∃ top rest, unminimized_path_ s1 = top :: rest
                   ∧ marked_vertex w s1 = vertex_ top)
  ∧ (let s1 := insert_word [] (insert_all [] empty_dagger) in
     unminimized_path_ s1 = [] ∧ marked_vertex [] s1 = root_vertex_ s1)
  ∧ (let s1 := insert_word [] (insert_all [word_of_string "a"] empty_dagger) in
     unminimized_path_ s1 = [] ∧ marked_vertex [] s1 = root_vertex_ s1).
Proof.
  split_and!.
  - intros H. destruct (H [] []) as (top & rest & Hp & _); [done|].
    vm_compute in Hp. discriminate Hp.
  - vm_compute. done.
  - vm_compute. done.
Qed.

(** C6. Termination: for every sequence of words, ascending or not, the
    construction ends: with the loop of every call of [minimize_until]
    allowed one more iteration than the longest word has characters,
    [from_dictionary] returns, and so does the loop from any state when
    allowed one more iteration than the path has entries. *)
Theorem construction_terminates (ws : list word) :
  from_dictionary_fuel (S (longest ws)) ws = Some (from_dictionary ws)
  ∧ ∀ s d,
      minimize_while (S (length (unminimized_path_ s))) d s
      = Some (minimize_until d s).
Proof.
  split.
  - apply from_dictionary_fuel_enough. lia.
  - intros s d. apply minimize_while_until. lia.
Qed.

(** C7. Empty input: the automaton built from no word accepts no string,
    the empty string included; and for any input the root is accepting,
    that is [contains] accepts the empty string, only if the empty string
    was inserted. *)
Theorem empty_input :
  (∀ s : word, (contains s (from_dictionary [])).1 = false)
  ∧ (∀ ws : list word,
       (contains [] (from_dictionary ws)).1 = true → [] ∈ ws).
Proof.
  split.
  - intros s. rewrite contains_answer. apply walk_empty_dagger.
  - apply contains_empty_word.
Qed.

(** C8. Throughout the construction, whatever the input, a vertex of the
    registry stays in the registry with its value (transitions and flag)
    unchanged; and whenever the registry is queried, for the vertex on top
    of the unminimized path, every transition of the probe leads into the
    registry, so that the vertex found, equal to the probe by flag and by
    targets, accepts what the probe accepts. *)
Theorem registry_immutable (s : dagger) :
  construction_state s →
  (∀ s', construction_steps s s' → registry_kept s s')
  ∧ (∀ top rest, unminimized_path_ s = top :: rest →
       edges_into (heap s) (minimized_vertices_ s) (vertex_ top) None
       ∧ ∀ it,
           registry_find (heap s) (minimized_vertices_ s) (vertex_ top)
           = Some it →
           it ∈ minimized_vertices_ s
           ∧ heap s !! it = heap s !! vertex_ top
           ∧ ∀ w, walk (heap s) it w = walk (heap s) (vertex_ top) w)
  ∧ (∀ e, e ∈ minimized_vertices_ s →
       edges_into (heap s) (minimized_vertices_ s) e None).
Proof.
  intros Hs. pose proof (wf_construction_state s Hs) as Hwf. split_and!.
  - intros s' Hs'. by apply registry_kept_construction_steps.
  - intros top rest Hp. split.
    + pose proof (wf_top s Hwf) as H. by rewrite Hp in H.
    + intros it Hf. destruct (wf_find_Some s top rest it Hwf Hp Hf) as [H1 H2].
      split_and!; [done|done|]. intros w. by apply walk_same_vertex.
  - apply (wf_closed s Hwf).
Qed.

Lemma registry_immutable_witness :
  construction_state example_state
  ∧ ∀ s', construction_steps example_state s' → registry_kept example_state s'.
Proof.
  assert (construction_state example_state) as Hs.
  { apply steps_insert, steps_insert, steps_refl. }
  split; [exact Hs|].
  apply (proj1 (registry_immutable example_state Hs)).
Defined.

(** C9. [contains] is read-only.  It is code that could write, a non-const
    member function that reaches the vertices through non-const accessors,
    and it is embedded as a computation that returns the automaton it
    leaves behind; what it does is read: [find] on the transition tables and
    [is_word_end], at every step of its loop.  So it returns the automaton
    as it got it, root, registry, transition tables and flags, and asked
    twice about the same word it answers the same. *)
Theorem contains_read_only (w : word) (s : dagger) :
  (contains w s).2 = s
  ∧ (contains w (contains w s).2).1 = (contains w s).1.
Proof.
  assert ((contains w s).2 = s) as H by by rewrite contains_walk.
  split; [done|]. by rewrite H.
Qed.

(** C10. Under strictly ascending input, right after [insert w] the
    unminimized path has [length w] entries and its labels, read from the
    bottom to the top, spell [w]; and the depth [insert] passes to
    [minimize_until] is no more than the size of the path at that time. *)
Theorem path_spells_word (pre : list word) (w : word) :
  strictly_ascending (pre ++ [w]) = true →
  let s0 := insert_all pre empty_dagger in
  let s := insert_word w s0 in
  length (unminimized_path_ s) = length w
  ∧ path_word (unminimized_path_ s) = w
  ∧ mismatch (prev_word_ s0) w ≤ length (unminimized_path_ s0).
Proof.
  intros _ s0 s.
  assert (path_word (unminimized_path_ s) = w) as Hw
    by apply insert_word_path_word, insert_all_path_word.
  split_and!.
  - by rewrite <- path_word_length, Hw.
  - done.
  - unfold s0. rewrite insert_all_path_length. apply mismatch_le_l.
Qed.

Lemma path_spells_word_witness :
  strictly_ascending ([word_of_string "ab"] ++ [word_of_string "ac"]) = true
  ∧ path_word
      (unminimized_path_
         (insert_word (word_of_string "ac")
            (insert_all [word_of_string "ab"] empty_dagger)))
    = word_of_string "ac".
Proof.
  split; [reflexivity|].
  apply (path_spells_word [word_of_string "ab"] (word_of_string "ac")).
  reflexivity.
Defined.


(** * Further properties of the construction *)

(** ** The order the registry is built on *)

(** X1. The comparison [*a < *b] that orders the registry is a strict weak
    order, as [std::set] asks, whether the implementation makes [char]
    signed or not, at all addresses of any heap: no vertex is below itself,
    two vertices are never each below the other, the comparison is
    transitive, and so is being neither below nor above a live vertex. *)
Theorem comparator_strict_order (signed : bool) (h : gmap nat vertex)
    (a b c : nat) :
  dereferencing_less_as signed h a a = false
  ∧ (dereferencing_less_as signed h a b = true →
     dereferencing_less_as signed h b a = false)
  ∧ (dereferencing_less_as signed h a b = true →
     dereferencing_less_as signed h b c = true →
     dereferencing_less_as signed h a c = true)
  ∧ (is_Some (h !! b) →
     negb (dereferencing_less_as signed h a b)
     && negb (dereferencing_less_as signed h b a) = true →
     negb (dereferencing_less_as signed h b c)
     && negb (dereferencing_less_as signed h c b) = true →
     negb (dereferencing_less_as signed h a c)
     && negb (dereferencing_less_as signed h c a) = true)
  ∧ dereferencing_less_as false h a b = dereferencing_less h a b.
Proof.
  split_and!.
  - apply dereferencing_less_as_irrefl.
  - apply dereferencing_less_as_asym.
  - apply dereferencing_less_as_trans.
  - apply dereferencing_less_as_equiv_trans.
  - done.
Qed.

(** X2. Two live vertices are equivalent for the registry, neither below the
    other, exactly when they have the same accepting flag and the same
    edges, labels and target addresses alike. *)
Theorem comparator_equivalence (h : gmap nat vertex) (a b : nat)
    (va vb : vertex) :
  h !! a = Some va → h !! b = Some vb →
  negb (dereferencing_less h a b) && negb (dereferencing_less h b a) = true
  ↔ is_word_end va = is_word_end vb ∧ edges va = edges vb.
Proof.
  intros Ha Hb. rewrite (dereferencing_less_equiv h a b va vb Ha Hb).
  destruct va, vb. simpl. split; [by intros [= -> ->]|by intros [-> ->]].
Qed.

Lemma comparator_equivalence_witness :
  heap example_state !! 2 = Some (mark_word_end new_vertex)
  ∧ heap example_state !! 4 = Some (mark_word_end new_vertex)
  ∧ (negb (dereferencing_less (heap example_state) 2 4)
     && negb (dereferencing_less (heap example_state) 4 2) = true
     ↔ is_word_end (mark_word_end new_vertex)
       = is_word_end (mark_word_end new_vertex)
       ∧ edges (mark_word_end new_vertex) = edges (mark_word_end new_vertex)).
Proof.
  split_and!; [reflexivity|reflexivity|].
  apply (comparator_equivalence (heap example_state) 2 4); reflexivity.
Defined.

(** X3. Which vertices are equivalent does not depend on whether [char] is
    signed: the two readings of the labels order the edges differently and
    give the same equivalence. *)
Theorem equivalence_signedness (a b : nat) (va vb : vertex) :
  negb (vertex_lt signed_char_code a va b vb)
  && negb (vertex_lt signed_char_code b vb a va)
  = negb (vertex_lt char_code a va b vb)
    && negb (vertex_lt char_code b vb a va).
Proof.
  destruct (decide (a = b)) as [->|Hab].
  - unfold vertex_lt. by rewrite !decide_True.
  - by apply vertex_equivalence_signedness.
Qed.

(** X4. Whenever the construction looks the vertex on top of the path up in
    the registry, the lookup returns [it] exactly when [it] is a vertex of
    the registry with the flag and the edges of the probe; there is at most
    one, so the answer does not depend on how the registry is ordered. *)
Theorem registry_lookup_exact (s : dagger) (top : unminimized_vertex)
    (rest : list unminimized_vertex) (it : nat) :
  construction_state s → unminimized_path_ s = top :: rest →
  registry_find (heap s) (minimized_vertices_ s) (vertex_ top) = Some it
  ↔ it ∈ minimized_vertices_ s ∧ heap s !! it = heap s !! vertex_ top.
Proof.
  intros Hs Hp. pose proof (wf_construction_state s Hs) as Hwf. split.
  - by apply (wf_find_Some s top rest).
  - intros [Hit Hval]. by apply (wf_find_unique s top rest).
Qed.

Lemma registry_lookup_exact_witness :
  construction_state example_state
  ∧ unminimized_path_ example_state
    = UnminimizedVertex 4 "b" :: [UnminimizedVertex 3 "c"]
  ∧ (registry_find (heap example_state) (minimized_vertices_ example_state) 4
     = Some 2
     ↔ 2 ∈ minimized_vertices_ example_state
       ∧ heap example_state !! 2 = heap example_state !! 4).
Proof.
  assert (construction_state example_state) as Hs.
  { apply steps_insert, steps_insert, steps_refl. }
  split_and!; [exact Hs|reflexivity|].
  apply (registry_lookup_exact example_state (UnminimizedVertex 4 "b")
           [UnminimizedVertex 3 "c"] 2 Hs).
  reflexivity.
Defined.

(** ** The shape of the graph *)

(** X5. No edge dangles: at every point of the construction, whatever the
    input, every vertex reached from a live vertex along edges is live, so
    that [contains] never follows a pointer to a destroyed vertex. *)
Theorem no_dangling_edge (s : dagger) (a b : nat) (u : word) :
  construction_state s → is_Some (heap s !! a) →
  reach (heap s) a u = Some b → is_Some (heap s !! b).
Proof.
  intros Hs. apply reach_target_live. by apply wf_construction_state.
Qed.

Lemma no_dangling_edge_witness :
  construction_state example_state
  ∧ is_Some (heap example_state !! 0)
  ∧ reach (heap example_state) 0 (word_of_string "cb") = Some 4
  ∧ is_Some (heap example_state !! 4).
Proof.
  assert (construction_state example_state) as Hs.
  { apply steps_insert, steps_insert, steps_refl. }
  assert (is_Some (heap example_state !! 0)) as H0.
  { apply (bool_decide_unpack _). vm_compute. exact I. }
  split_and!; [exact Hs|exact H0|reflexivity|].
  apply (no_dangling_edge example_state 0 4 (word_of_string "cb") Hs H0).
  reflexivity.
Defined.

(** X6. Every live vertex has exactly one owner between the steps of the
    construction: before and after each iteration of the loop of
    [minimize_until], each call of [add_suffix] and each call of [insert],
    whatever the input, the live vertices are the root, the vertices of the
    unminimized path and the vertices of the registry, each once.  No vertex
    is owned twice and none is left without an owner. *)
Theorem ownership_exact (s : dagger) :
  construction_state s →
  NoDup (owned s)
  ∧ (∀ a, is_Some (heap s !! a) ↔ a ∈ owned s)
  ∧ size (heap s)
    = 1 + length (unminimized_path_ s) + length (minimized_vertices_ s).
Proof.
  intros Hs. pose proof (wf_construction_state s Hs) as Hwf. split_and!.
  - apply (wf_nodup s Hwf).
  - intros a. split; [apply (wf_owned s Hwf)|apply (wf_live s Hwf)].
  - rewrite (wf_heap_size s Hwf). unfold owned. simpl.
    by rewrite length_app, length_fmap.
Qed.

Lemma ownership_exact_witness :
  construction_state example_state
  ∧ size (heap example_state)
    = 1 + length (unminimized_path_ example_state)
      + length (minimized_vertices_ example_state).
Proof.
  assert (construction_state example_state) as Hs.
  { apply steps_insert, steps_insert, steps_refl. }
  split; [exact Hs|].
  apply (proj2 (proj2 (ownership_exact example_state Hs))).
Defined.

(** X7. The graph is acyclic, and nothing leads back to the root: at every
    point of the construction, whatever the input, a walk along one edge or
    more ends neither where it started nor at the root. *)
Theorem graph_acyclic (s : dagger) (a b : nat) (c : ascii) (u : word) :
  construction_state s → reach (heap s) a (c :: u) = Some b →
  b ≠ a ∧ b ≠ root_vertex_ s.
Proof.
  intros Hs Hr. pose proof (wf_construction_state s Hs) as Hwf.
  assert (a ∈ graph_order s) as Ha.
  { apply graph_order_owned, (wf_owned s Hwf). by eapply reach_live. }
  destruct (descend_reach _ _ _ _ _ _ (graph_order_descend s Hs) Ha Hr)
    as (l1 & l2 & Heq & Hb).
  pose proof (graph_order_NoDup s Hwf) as Hnd. rewrite Heq in Hnd.
  apply NoDup_app in Hnd as (_ & Hl1 & Hnd).
  apply NoDup_cons in Hnd as [Hal2 _]. split.
  - by intros ->.
  - intros ->. destruct l1 as [|x l1].
    + unfold graph_order in Heq. simpl in Heq. injection Heq as <- _. done.
    + unfold graph_order in Heq. simpl in Heq. injection Heq as <- _.
      apply (Hl1 (root_vertex_ s)); [by left|]. by right.
Qed.

Lemma graph_acyclic_witness :
  construction_state example_state
  ∧ reach (heap example_state) 0 (word_of_string "cb") = Some 4
  ∧ 4 ≠ 0 ∧ 4 ≠ root_vertex_ example_state.
Proof.
  assert (construction_state example_state) as Hs.
  { apply steps_insert, steps_insert, steps_refl. }
  split_and!; [exact Hs|reflexivity| |].
  - apply (graph_acyclic example_state 0 4 "c" (word_of_string "b") Hs).
    reflexivity.
  - apply (graph_acyclic example_state 0 4 "c" (word_of_string "b") Hs).
    reflexivity.
Defined.

(** ** What is accepted, whatever the order of the input *)

(** X8. Minimisation changes the graph and not its language: at every point
    of the construction, whatever the input, [contains] answers after
    [minimize_until], to any depth, and after [finish_minimization] what it
    answered before. *)
Theorem minimization_keeps_language (s : dagger) (d : nat) (v : word) :
  construction_state s →
  (contains v (minimize_until d s)).1 = (contains v s).1
  ∧ (contains v (finish_minimization s)).1 = (contains v s).1.
Proof.
  intros Hs. pose proof (wf_construction_state s Hs) as Hwf.
  unfold finish_minimization. rewrite !contains_answer.
  rewrite !minimize_until_root. split; by apply minimize_until_walk_root.
Qed.

Lemma minimization_keeps_language_witness :
  construction_state example_state
  ∧ (contains (word_of_string "cb") (minimize_until 1 example_state)).1
    = (contains (word_of_string "cb") example_state).1.
Proof.
  assert (construction_state example_state) as Hs.
  { apply steps_insert, steps_insert, steps_refl. }
  split; [exact Hs|].
  apply (proj1 (minimization_keeps_language example_state 1
                  (word_of_string "cb") Hs)).
Defined.

(** X9. The word inserted last is always accepted: for any sequence of
    words, in order or not, [contains] is true of the last word right after
    its insertion and after [from_dictionary]. *)
Theorem last_word_accepted (ws : list word) (w : word) :
  (contains w (insert_word w (insert_all ws empty_dagger))).1 = true
  ∧ (contains w (from_dictionary (ws ++ [w]))).1 = true.
Proof.
  assert (wf (insert_all ws empty_dagger)) as Hwf
    by apply wf_insert_all, wf_empty_dagger.
  assert ((contains w (insert_word w (insert_all ws empty_dagger))).1 = true)
    as H.
  { rewrite contains_answer.
    by apply insert_word_accepts; [|apply insert_all_path_word]. }
  split; [done|].
  unfold from_dictionary, finish_minimization. rewrite insert_all_snoc.
  rewrite contains_answer in *.
  rewrite minimize_until_root, minimize_until_walk_root; [done|].
  by apply wf_insert_word.
Qed.

(** X10. No false positive, whatever the input: for any sequence of words,
    in order or not, with or without repetitions, a word that [contains]
    accepts after [from_dictionary] is a word of the sequence. *)
Theorem accepted_words_were_inserted (ws : list word) (w : word) :
  (contains w (from_dictionary ws)).1 = true → w ∈ ws.
Proof. apply from_dictionary_accepts_only. Qed.

Lemma accepted_words_were_inserted_witness :
  (contains (word_of_string "a")
     (from_dictionary (word_of_string <$> ["b"; "a"]%string))).1 = true
  ∧ word_of_string "a" ∈ (word_of_string <$> ["b"; "a"]%string).
Proof.
  split; [reflexivity|].
  apply (accepted_words_were_inserted (word_of_string <$> ["b"; "a"]%string)
           (word_of_string "a")).
  reflexivity.
Defined.

(** X11. The empty word is answered exactly whatever the order of the
    input: after [from_dictionary], [contains] is true of the empty word if
    and only if the empty word is one of the words. *)
Theorem empty_word_exact (ws : list word) :
  (contains [] (from_dictionary ws)).1 = true ↔ [] ∈ ws.
Proof.
  split; [apply contains_empty_word|apply contains_empty_word_complete].
Qed.

(** ** The cost of the construction *)

(** X12. What [insert] does to the path and how much it allocates: it
    keeps the entries of the path below the depth of the prefix shared with
    the previous word and pushes on them one entry for each character after
    that prefix, labelled with it; it allocates one vertex for each of these
    characters and no other, and it keeps the root. *)
Theorem insert_allocation (w : word) (s : dagger) :
  let n := mismatch (prev_word_ s) w in
  (∃ pushed,
      unminimized_path_ (insert_word w s)
      = pushed ++ drop (length (unminimized_path_ s) - n) (unminimized_path_ s)
      ∧ edge_from_parent_ <$> reverse pushed = drop n w)
  ∧ next_addr (insert_word w s) = next_addr s + (length w - n)
  ∧ root_vertex_ (insert_word w s) = root_vertex_ s.
Proof.
  intros n. split_and!.
  - exists (reverse (fresh_entries (next_addr s) (drop n w))). split.
    + apply insert_word_path.
    + by rewrite reverse_involutive, fresh_entries_labels.
  - apply insert_word_next.
  - unfold insert_word. simpl. by rewrite add_suffix_root, minimize_until_root.
Qed.

(** X13. The automaton is never larger than the input: for any sequence of
    words, [from_dictionary] allocates, the root included, at most one
    vertex more than the words have characters, and so many vertices at
    most are left in the automaton it returns. *)
Theorem size_bounded_by_input (ws : list word) :
  next_addr (from_dictionary ws) ≤ 1 + total_length ws
  ∧ size (heap (from_dictionary ws)) ≤ 1 + total_length ws
  ∧ vertex_count (from_dictionary ws) ≤ 1 + total_length ws.
Proof.
  pose proof (from_dictionary_next ws) as Hn.
  pose proof (wf_owned_next _ (wf_from_dictionary ws)) as Ho.
  rewrite <- (wf_heap_size _ (wf_from_dictionary ws)) in Ho.
  pose proof (from_dictionary_heap_size ws) as Hv.
  split_and!; lia.
Qed.

(** X14. Calls of [minimize_until] compose: minimising down to depth [d']
    and then down to depth [d] is minimising down to the smaller of the two;
    [finish_minimization] a second time changes nothing. *)
Theorem minimize_until_compose (d d' : nat) (s : dagger) :
  minimize_until d (minimize_until d' s) = minimize_until (d `min` d') s
  ∧ finish_minimization (finish_minimization s) = finish_minimization s.
Proof. split; [apply minimize_until_min|apply finish_minimization_idemp]. Qed.

(** ** The automaton of an ascending input *)

(** X15. No two vertices are equivalent: in the automaton built from words
    in strictly ascending order, two distinct vertices accept different
    languages. *)
Theorem vertices_pairwise_distinct (ws : list word) (a b : nat) :
  strictly_ascending ws = true →
  is_Some (heap (from_dictionary ws) !! a) →
  is_Some (heap (from_dictionary ws) !! b) →
  a ≠ b →
  ¬ ∀ v, walk (heap (from_dictionary ws)) a v
         = walk (heap (from_dictionary ws)) b v.
Proof.
  intros Hasc Ha Hb Hab Heq. apply Hab.
  by apply (from_dictionary_distinct ws).
Qed.

Lemma vertices_pairwise_distinct_witness :
  strictly_ascending test_words = true
  ∧ is_Some (heap (from_dictionary test_words) !! 0)
  ∧ is_Some (heap (from_dictionary test_words) !! 1)
  ∧ 0 ≠ 1
  ∧ ¬ ∀ v, walk (heap (from_dictionary test_words)) 0 v
           = walk (heap (from_dictionary test_words)) 1 v.
Proof.
  assert (is_Some (heap (from_dictionary test_words) !! 0)) as H0.
  { apply (bool_decide_unpack _). vm_compute. exact I. }
  assert (is_Some (heap (from_dictionary test_words) !! 1)) as H1.
  { apply (bool_decide_unpack _). vm_compute. exact I. }
  split_and!; [reflexivity|exact H0|exact H1|lia|].
  apply (vertices_pairwise_distinct test_words 0 1);
    [reflexivity|exact H0|exact H1|lia].
Defined.

(** X16. No vertex is useless: in the automaton built from words in
    strictly ascending order, every vertex of the registry lies on the path
    of a word of the input; it is reached from the root and an accepting
    vertex is reached from it. *)
Theorem registry_vertices_useful (ws : list word) (e : nat) :
  strictly_ascending ws = true →
  e ∈ minimized_vertices_ (from_dictionary ws) →
  ∃ u v, u ≠ [] ∧ u ++ v ∈ ws
         ∧ reach (heap (from_dictionary ws))
             (root_vertex_ (from_dictionary ws)) u = Some e
         ∧ walk (heap (from_dictionary ws)) e v = true.
Proof. apply from_dictionary_trim. Qed.

Lemma registry_vertices_useful_witness :
  strictly_ascending test_words = true
  ∧ 3 ∈ minimized_vertices_ (from_dictionary test_words)
  ∧ ∃ u v, u ≠ [] ∧ u ++ v ∈ test_words
           ∧ reach (heap (from_dictionary test_words))
               (root_vertex_ (from_dictionary test_words)) u = Some 3
           ∧ walk (heap (from_dictionary test_words)) 3 v = true.
Proof.
  assert (3 ∈ minimized_vertices_ (from_dictionary test_words)) as Hin.
  { apply (bool_decide_unpack _). vm_compute. exact I. }
  split_and!; [reflexivity|exact Hin|].
  apply (registry_vertices_useful test_words 3); [reflexivity|exact Hin].
Defined.

(** X17. No path is a dead end: in the automaton built from words in
    strictly ascending order, the words that can be read from the root
    along edges are the prefixes of the words of the input, the empty one
    included, and no others. *)
Theorem readable_words_are_prefixes (ws : list word) (u : word) :
  strictly_ascending ws = true →
  is_Some (reach (heap (from_dictionary ws))
             (root_vertex_ (from_dictionary ws)) u)
  ↔ u = [] ∨ ∃ v, u ++ v ∈ ws.
Proof. apply from_dictionary_reads. Qed.

Lemma readable_words_are_prefixes_witness :
  strictly_ascending test_words = true
  ∧ (is_Some (reach (heap (from_dictionary test_words))
                (root_vertex_ (from_dictionary test_words))
                (word_of_string "aba"))
     ↔ word_of_string "aba" = []
       ∨ ∃ v, word_of_string "aba" ++ v ∈ test_words).
Proof.
  split; [reflexivity|].
  apply (readable_words_are_prefixes test_words (word_of_string "aba")).
  reflexivity.
Defined.

(** X18. Two words that can be read from the root lead to the same vertex
    exactly when they have the same continuations in the input: in the
    automaton built from words in strictly ascending order the vertices
    stand one for one for the residuals of the language, transitions
    included. *)
Theorem same_vertex_same_residual (ws : list word) (u u' : word) (e e' : nat) :
  strictly_ascending ws = true →
  reach (heap (from_dictionary ws)) (root_vertex_ (from_dictionary ws)) u
  = Some e →
  reach (heap (from_dictionary ws)) (root_vertex_ (from_dictionary ws)) u'
  = Some e' →
  e = e' ↔ residual u ws = residual u' ws.
Proof. apply from_dictionary_nerode. Qed.

Lemma same_vertex_same_residual_witness :
  strictly_ascending test_words = true
  ∧ reach (heap (from_dictionary test_words))
      (root_vertex_ (from_dictionary test_words)) (word_of_string "abaca")
    = Some 5
  ∧ reach (heap (from_dictionary test_words))
      (root_vertex_ (from_dictionary test_words)) (word_of_string "abacost")
    = Some 5
  ∧ (5 = 5 ↔ residual (word_of_string "abaca") test_words
             = residual (word_of_string "abacost") test_words).
Proof.
  split_and!; [reflexivity|reflexivity|reflexivity|].
  apply (same_vertex_same_residual test_words (word_of_string "abaca")
           (word_of_string "abacost") 5 5); reflexivity.
Defined.

(** X19. For words in strictly ascending order the construction allocates
    as many vertices as the trie of the words has nodes, one for each
    distinct prefix, the root for the empty one: the size of the minimal
    automaton is reached by merging vertices, and each character of the
    input is turned into a vertex at most once. *)
Theorem allocations_are_trie_nodes (ws : list word) :
  strictly_ascending ws = true →
  next_addr (from_dictionary ws) = length (remove_dups (all_prefixes ws)).
Proof.
  intros Hasc. unfold from_dictionary, finish_minimization.
  rewrite minimize_until_next. by apply insert_all_trie_count.
Qed.

Lemma allocations_are_trie_nodes_witness :
  strictly_ascending test_words = true
  ∧ next_addr (from_dictionary test_words)
    = length (remove_dups (all_prefixes test_words)).
Proof.
  split; [reflexivity|].
  apply (allocations_are_trie_nodes test_words). reflexivity.
Defined.

(** X20. Repeated words do no harm: for words in ascending order with
    repetitions allowed, [from_dictionary] builds the automaton it builds
    from the words without the repetitions, which are in strictly ascending
    order; it accepts the words of the input and no others, and it is the
    minimal one. *)
Theorem ascending_with_repetitions (ws : list word) :
  ascending ws = true →
  from_dictionary ws = from_dictionary (remove_dups ws)
  ∧ strictly_ascending (remove_dups ws) = true
  ∧ (∀ w, (contains w (from_dictionary ws)).1 = true ↔ w ∈ ws)
  ∧ vertex_count (from_dictionary ws)
    = length (minimal_dfa_states (remove_dups ws)).
Proof.
  intros Hasc.
  destruct (ascending_remove_dups ws Hasc) as [Hstrict _].
  rewrite (from_dictionary_remove_dups ws Hasc). split_and!; [done|done| |].
  - intros w. rewrite (from_dictionary_language _ w Hstrict).
    apply elem_of_remove_dups.
  - by apply from_dictionary_vertex_count.
Qed.

Lemma ascending_with_repetitions_witness :
  ascending (word_of_string <$> ["a"; "a"; "b"]%string) = true
  ∧ from_dictionary (word_of_string <$> ["a"; "a"; "b"]%string)
    = from_dictionary (remove_dups (word_of_string <$> ["a"; "a"; "b"]%string)).
Proof.
  assert (ascending (word_of_string <$> ["a"; "a"; "b"]%string) = true) as H
    by reflexivity.
  split; [exact H|].
  apply (proj1 (ascending_with_repetitions
                  (word_of_string <$> ["a"; "a"; "b"]%string) H)).
Defined.

